(** * charge_assign: collectors, histogram binning and charge redistribution

    A shallow embedding of [charge/chargers.py] and [charge/collectors.py].

    Numbers.  Python [float]s (and the [int]s mixed with them) are read with
    their real-number meaning and embedded as exact rationals [Q]; equality of
    charges is [Qeq].  Python's [round(x, n)] is round-half-to-even at [n]
    decimals, [math.ceil] is [Qceiling].  Round-off of binary floating point
    is outside the model, and so is nan.  Doubles and rationals part where a
    quotient falls on a rounding tie, where [np.arange] accumulates round-off
    or its step is below the resolution of its bounds, and at [np.mean] of an
    empty list.  A statement that would depend on such a case carries a
    hypothesis that excludes it or leaves the outcome open.

    Objects.  A networkx graph is a record of its graph attribute dict, its
    node list in iteration order (node id and attribute dict) and its edges.
    Attribute dicts are [gmap string value]; reading a missing key raises
    [KeyError], as [d[k]] does.  Exceptions are values of [exn]; a statement
    that may raise returns [result].  In-place mutation is explicit state
    passing: a function that mutates the graph returns the graph it leaves
    behind together with its outcome, also when it raises half-way.

    The [print] calls of [__calculate_histogram] write to stdout only and are
    left out. *)

From Stdlib Require Import ZArith QArith Qround Qabs Qpower Qfield Lia Lqa.
From stdpp Require Import base option list gmap strings sorting.

Local Open Scope Q_scope.

(** ** Python values, exceptions and results *)

Inductive value : Type :=
  | VNum (q : Q)
  | VStr (s : string)
  | VOther (repr : string).

(** [AssignmentError] carries the atoms without charges and the advice that
    ends its message; the quotation marks the source puts around the word
    shell in that advice are left out. *)
Inductive exn : Type :=
  | KeyError (key : string)
  | TypeError (msg : string)
  | ValueError (msg : string)
  | IndexError
  | ZeroDivisionError
  | AssignmentError (no_vals : list Z) (hint : string).

Inductive result (A : Type) : Type :=
  | Ok (a : A)
  | Raise (e : exn).
Arguments Ok {A} a.
Arguments Raise {A} e.

Definition rbind {A B} (r : result A) (k : A -> result B) : result B :=
  match r with
  | Ok a => k a
  | Raise e => Raise e
  end.

Notation "'let!' x ':=' r 'in' k" := (rbind r (fun x => k))
  (at level 10, x pattern, r at level 100, k at level 200).

(** [d[k]] *)
Definition getitem (d : gmap string value) (k : string) : result value :=
  match d !! k with
  | Some v => Ok v
  | None => Raise (KeyError k)
  end.

(** A value used in arithmetic or in an order comparison with a number. *)
Definition num (v : value) : result Q :=
  match v with
  | VNum q => Ok q
  | _ => Raise (TypeError "unsupported operand type(s)")
  end.

(** [x / y] on Python numbers. *)
Definition py_div (x y : Q) : result Q :=
  if Qeq_bool y 0 then Raise ZeroDivisionError else Ok (x / y).

(** ** [round(x, ndigits)] *)

(** Nearest integer, a tie going to the even neighbour. *)
Definition round_half_even (x : Q) : Z :=
  let f := Qfloor x in
  match Qcompare (x - inject_Z f) (1 # 2) with
  | Lt => f
  | Gt => (f + 1)%Z
  | Eq => if Z.even f then f else (f + 1)%Z
  end.

Definition pow10 (n : Z) : Q := Qpower 10 n.

Definition py_round (x : Q) (ndigits : Z) : Q :=
  inject_Z (round_half_even (x * pow10 ndigits)) / pow10 ndigits.

(** ** Molecule graphs, the repository and the canonization oracle *)

(** [graph.graph], [graph.nodes().data()] in iteration order, and the bonds.
    networkx keeps nodes in a dict, so node ids do not repeat; the theorems
    that depend on it assume [NoDup (nodes g).*1]. *)
Record Graph : Type := {
  graph : gmap string value;
  nodes : list (Z * gmap string value);
  edges : list (Z * Z)
}.

(** [graph.node[atom]] *)
Definition node (g : Graph) (atom : Z) : result (gmap string value) :=
  match list_find (fun nd => nd.1 = atom) (nodes g) with
  | Some (_, nd) => Ok nd.2
  | None => Raise (KeyError "node")
  end.

(** ChargeSet: shell size -> canonical key -> observed charges. *)
Abbreviation ChargeSet := (gmap Z (gmap string (list Q))).

Record Repository : Type := {
  charges_iacm : ChargeSet;
  charges_elem : ChargeSet
}.

(** The Nauty handle; only [canonize_neighborhood(graph, atom, shell,
    color_key)] is used, as an oracle. *)
Record Nauty : Type := {
  canonize_neighborhood : Graph -> Z -> Z -> string -> string
}.

(** Modelled from the spec: [charge/nauty.py] is not part of the sources, so
    the coloring used when [canonize_neighborhood] is called without
    [color_key] is taken from the specification of the plain-element lookup
    (section 4.1, step 3): elemental-type coloring. *)
Definition default_color_key : string := "atom_type".

(** ** Histogram binning: [HistogramCollector.__calculate_histogram] *)

Definition Qltb (x y : Q) : bool := negb (Qle_bool y x).

(** [min(charges)] and [max(charges)] *)
Definition py_min (l : list Q) : result Q :=
  match l with
  | [] => Raise (ValueError "min() arg is an empty sequence")
  | x :: r => Ok (fold_left (fun m y => if Qltb y m then y else m) r x)
  end.

Definition py_max (l : list Q) : result Q :=
  match l with
  | [] => Raise (ValueError "max() arg is an empty sequence")
  | x :: r => Ok (fold_left (fun m y => if Qltb m y then y else m) r x)
  end.

(** The local function [round_to]; its third parameter is never read. *)
Definition round_to (x grain : Q) (up : bool) : Q :=
  inject_Z (Qceiling (x / grain - (1 # 2))) * grain.

(** [np.arange(start, stop, step)]: [ceil((stop - start) / step)] values
    [start + i * step]. *)
Definition np_arange (start stop step : Q) : list Q :=
  map (fun i : nat => start + inject_Z (Z.of_nat i) * step)
      (seq 0 (Z.to_nat (Qceiling ((stop - start) / step)))).

Fixpoint count_if (p : Q -> bool) (a : list Q) : Z :=
  match a with
  | [] => 0%Z
  | x :: r => ((if p x then 1 else 0) + count_if p r)%Z
  end.

(** Counts per bin for explicit edges: every bin is closed on the left and
    open on the right, except the last one, which is closed on both sides. *)
Fixpoint bin_counts (a : list Q) (bin_edges : list Q) : list Z :=
  match bin_edges with
  | lo :: (hi :: rest) as tl =>
      let last_bin := match rest with [] => true | _ => false end in
      count_if (fun x => Qle_bool lo x &&
                           (if last_bin then Qle_bool x hi else Qltb x hi)) a
        :: bin_counts a tl
  | _ => []
  end.

Fixpoint monotonic (bin_edges : list Q) : bool :=
  match bin_edges with
  | lo :: (hi :: _) as tl => Qle_bool lo hi && monotonic tl
  | _ => true
  end.

(** [np.histogram(a, bins=bin_edges)], the counts. *)
Definition np_histogram (a : list Q) (bin_edges : list Q) : result (list Z) :=
  if monotonic bin_edges then Ok (bin_counts a bin_edges)
  else Raise (ValueError "`bins` must increase monotonically, when an array").

Definition np_count_nonzero (counts : list Z) : Z :=
  Z.of_nat (length (filter (fun c => c ≠ 0%Z) counts)).

(** [np.nonzero(counts)]: the indices of the non-zero entries, in order. *)
Fixpoint nonzero_from (i : nat) (counts : list Z) : list nat :=
  match counts with
  | [] => []
  | c :: rest =>
      if (c =? 0)%Z then nonzero_from (S i) rest
      else i :: nonzero_from (S i) rest
  end.

Definition np_nonzero (counts : list Z) : list nat := nonzero_from 0 counts.

(** [arr[idx]] for an index array. *)
Fixpoint take_at {A} (arr : list A) (idx : list nat) : result (list A) :=
  match idx with
  | [] => Ok []
  | i :: r =>
      match arr !! i with
      | None => Raise IndexError
      | Some x => let! xs := take_at arr r in Ok (x :: xs)
      end
  end.

Definition eps : Q := 1 # (10 ^ 15).

(** [bin_edges[-1] += 1e-15] *)
Definition nudge_last (bin_edges : list Q) : result (list Q) :=
  match last bin_edges with
  | None => Raise IndexError
  | Some e => Ok (<[Nat.pred (length bin_edges) := e + eps]> bin_edges)
  end.

(** The variables that live across iterations of the [while] loop. *)
Record hist_state : Type := {
  spacing : Z;
  num_bins : Z;
  bin_centers : list Q;
  counts : list Z
}.

(** One run of the loop body. *)
Definition histogram_body (charges : list Q) (grain : Q) (st : hist_state)
  : result hist_state :=
  let spacing := (spacing st + 1)%Z in
  let step := grain * inject_Z spacing in
  let! mn := py_min charges in
  let min_charge_bin := round_to mn step false in
  let! mx := py_max charges in
  let max_charge_bin := round_to mx step true in
  let bin_centers := np_arange min_charge_bin (max_charge_bin + (1 # 2) * step) step in
  let min_bin_edge := min_charge_bin - (1 # 2) * step in
  let max_bin_edge := max_charge_bin + (1 # 2) * step in
  let bin_edges := np_arange min_bin_edge (max_bin_edge + (1 # 2) * step) step in
  let! bin_edges := nudge_last bin_edges in
  let! counts := np_histogram charges bin_edges in
  Ok {| spacing := spacing; num_bins := np_count_nonzero counts;
        bin_centers := bin_centers; counts := counts |}.

(** [while num_bins > max_bins: body]; [None] when the fuel runs out before
    the loop condition turns false. *)
Fixpoint histogram_while (fuel : nat) (charges : list Q) (max_bins : Z)
    (grain : Q) (st : hist_state) : option (result hist_state) :=
  if (num_bins st >? max_bins)%Z then
    match fuel with
    | O => None
    | S fuel' =>
        match histogram_body charges grain st with
        | Raise e => Some (Raise e)
        | Ok st' => histogram_while fuel' charges max_bins grain st'
        end
    end
  else Some (Ok st).

(** [__calculate_histogram(charges, max_bins)] on a collector built with
    [rounding_digits]; [bin_centers] and [counts] are unbound before the
    first iteration, which always runs. *)
Definition calculate_histogram (fuel : nat) (rounding_digits : Z)
    (charges : list Q) (max_bins : Z) : option (result (list Q * list Z)) :=
  let grain := pow10 (- rounding_digits) in
  match histogram_while fuel charges max_bins grain
          {| spacing := 0; num_bins := max_bins + 1;
             bin_centers := []; counts := [] |} with
  | None => None
  | Some (Raise e) => Some (Raise e)
  | Some (Ok st) =>
      let nonzero_bins := np_nonzero (counts st) in
      Some (let! cs := take_at (counts st) nonzero_bins in
            let! bs := take_at (bin_centers st) nonzero_bins in
            Ok (bs, cs))
  end.


(** ** Collectors

    A collector object is its class with the fields [__init__] stores.  The
    chargers always hand their own Nauty handle to the collector, so the
    [Nauty()] a collector would build for [nauty=None] does not occur. *)

Inductive Collector : Type :=
  | MeanCollector (repository : Repository) (rounding_digits : Z) (nauty : Nauty)
  | HistogramCollector (repository : Repository) (rounding_digits : Z) (nauty : Nauty).

(** What a collector returns: atom -> (charges, weights). *)
Abbreviation Values := (gmap Z (list Q * list Q)).

(** [np.mean(values)] of a non-empty list.  For the empty list numpy returns
    nan (with a warning); the rationals have no such value and the quotient
    below is 0 there, see [no_empty_lists]. *)
Definition np_mean (values : list Q) : Q :=
  fold_right Qplus 0 values / inject_Z (Z.of_nat (length values)).

(** [MeanCollector.__collect]; [None] stands for the empty list [[]] that is
    returned when nothing matches. *)
Definition mean_collect (rounding_digits : Z) (nauty : Nauty) (g : Graph)
    (atom shell_size : Z) (attribute : string) (charges : ChargeSet)
  : option (list Q * list Q) :=
  match charges !! shell_size with
  | Some by_key =>
      let key := canonize_neighborhood nauty g atom shell_size attribute in
      match by_key !! key with
      | Some values =>
          let mean_charge := py_round (np_mean values) rounding_digits in
          Some ([mean_charge], [1])
      | None => None
      end
  | None => None
  end.

(** The body of [for shell_size in shells] of [MeanCollector.collect_values],
    run from the given shell on: [Ok (Some c)] when the loop leaves through
    [break] with [charges[atom] = c], [Ok None] when it runs to its [else]. *)
Fixpoint mean_shells (repository : Repository) (rounding_digits : Z)
    (nauty : Nauty) (g : Graph) (atom : Z) (iacm_data_only : bool)
    (shells : list Z) : result (option (list Q * list Q)) :=
  match shells with
  | [] => Ok None
  | shell_size :: rest =>
      let! data := node g atom in
      let atom_has_iacm := bool_decide (is_Some (data !! "iacm")) in
      let attribute := if atom_has_iacm then "iacm" else "atom_type" in
      let c := mean_collect rounding_digits nauty g atom shell_size attribute
                 (charges_iacm repository) in
      let c := match c with
               | None =>
                   if negb iacm_data_only
                   then mean_collect rounding_digits nauty g atom shell_size
                          "atom_type" (charges_elem repository)
                   else None
               | Some _ => c
               end in
      match c with
      | Some _ => Ok c
      | None => mean_shells repository rounding_digits nauty g atom
                  iacm_data_only rest
      end
  end.

Definition zero_in (shells : list Z) : bool := bool_decide (0%Z ∈ shells).

(** [MeanCollector.collect_values].  The dict [charges] only matters when no
    atom is left without values, so the empty entries of unmatched atoms are
    not kept. *)
Fixpoint mean_atoms (repository : Repository) (rounding_digits : Z)
    (nauty : Nauty) (g : Graph) (iacm_data_only : bool) (shells : list Z)
    (atoms : list Z) (charges : Values) (no_vals : list Z)
  : result (Values * list Z) :=
  match atoms with
  | [] => Ok (charges, no_vals)
  | atom :: rest =>
      let! c := mean_shells repository rounding_digits nauty g atom
                  iacm_data_only shells in
      match c with
      | Some c => mean_atoms repository rounding_digits nauty g iacm_data_only
                    shells rest (<[atom := c]> charges) no_vals
      | None => mean_atoms repository rounding_digits nauty g iacm_data_only
                  shells rest charges (no_vals ++ [atom])
      end
  end.

Definition mean_collect_values (repository : Repository) (rounding_digits : Z)
    (nauty : Nauty) (g : Graph) (iacm_data_only : bool) (shells : list Z)
  : result Values :=
  match mean_atoms repository rounding_digits nauty g iacm_data_only shells
          (nodes g).*1 ∅ [] with
  | Raise e => Raise e
  | Ok (charges, no_vals) =>
      if (0 <? length no_vals)%nat then
        Raise (AssignmentError no_vals
                 (if negb (zero_in shells)
                  then " Please retry with a smaller shell parameter." else ""))
      else Ok charges
  end.

(** A histogram as a collector hands it on: bin centers and counts. *)
Definition as_values (h : list Q * list Z) : list Q * list Q :=
  (h.1, inject_Z <$> h.2).

(** The body of [for shell in shells] of [HistogramCollector.collect_values].
    The outer [option] is the fuel of [calculate_histogram]. *)
Fixpoint histogram_shells (fuel : nat) (repository : Repository)
    (rounding_digits : Z) (nauty : Nauty) (g : Graph) (atom : Z)
    (iacm_data_only : bool) (max_bins : Z) (shells : list Z)
  : option (result (option (list Q * list Z))) :=
  match shells with
  | [] => Some (Ok None)
  | shell :: rest =>
      let continue :=
        histogram_shells fuel repository rounding_digits nauty g atom
          iacm_data_only max_bins rest in
      match charges_iacm repository !! shell with
      | Some by_key =>
          match node g atom with
          | Raise e => Some (Raise e)
          | Ok data =>
              let key := canonize_neighborhood nauty g atom shell
                           (if bool_decide (is_Some (data !! "iacm"))
                            then "iacm" else "atom_type") in
              match by_key !! key with
              | Some charges =>
                  match calculate_histogram fuel rounding_digits charges max_bins with
                  | None => None
                  | Some (Raise e) => Some (Raise e)
                  | Some (Ok h) => Some (Ok (Some h))
                  end
              | None => continue
              end
          end
      | None =>
          if negb iacm_data_only then
            match charges_elem repository !! shell with
            | Some by_key =>
                let key := canonize_neighborhood nauty g atom shell
                             default_color_key in
                match by_key !! key with
                | Some charges =>
                    match calculate_histogram fuel rounding_digits charges max_bins with
                    | None => None
                    | Some (Raise e) => Some (Raise e)
                    | Some (Ok h) => Some (Ok (Some h))
                    end
                | None => continue
                end
            | None => continue
            end
          else continue
      end
  end.

Fixpoint histogram_atoms (fuel : nat) (repository : Repository)
    (rounding_digits : Z) (nauty : Nauty) (g : Graph) (iacm_data_only : bool)
    (max_bins : Z) (shells : list Z) (atoms : list Z) (histograms : Values)
    (no_vals : list Z) : option (result (Values * list Z)) :=
  match atoms with
  | [] => Some (Ok (histograms, no_vals))
  | atom :: rest =>
      match histogram_shells fuel repository rounding_digits nauty g atom
              iacm_data_only max_bins shells with
      | None => None
      | Some (Raise e) => Some (Raise e)
      | Some (Ok (Some h)) =>
          histogram_atoms fuel repository rounding_digits nauty g
            iacm_data_only max_bins shells rest
            (<[atom := as_values h]> histograms) no_vals
      | Some (Ok None) =>
          histogram_atoms fuel repository rounding_digits nauty g
            iacm_data_only max_bins shells rest histograms (no_vals ++ [atom])
      end
  end.

Section Settings.

(** [charge/settings.py] is not part of the sources. *)
Variable MAX_BINS : Z.

(** [HistogramCollector.collect_values]; [kwargs] carries integer options. *)
Definition histogram_collect_values (fuel : nat) (repository : Repository)
    (rounding_digits : Z) (nauty : Nauty) (g : Graph) (iacm_data_only : bool)
    (shells : list Z) (kwargs : gmap string Z) : option (result Values) :=
  let max_bins := match kwargs !! "max_bins" with
                  | Some m => Z.max m 1
                  | None => MAX_BINS
                  end in
  match histogram_atoms fuel repository rounding_digits nauty g iacm_data_only
          max_bins shells (nodes g).*1 ∅ [] with
  | None => None
  | Some (Raise e) => Some (Raise e)
  | Some (Ok (histograms, no_vals)) =>
      if (0 <? length no_vals)%nat then
        Some (Raise (AssignmentError no_vals
               (if negb (zero_in shells)
                then " Please retry with a smaller shell parameter or a SimpleCharger."
                else " Please retry with a SimpleCharger.")))
      else Some (Ok histograms)
  end.

(** [self._collector.collect_values(graph, iacm_data_only, shells, **kwargs)] *)
Definition collect_values (fuel : nat) (c : Collector) (g : Graph)
    (iacm_data_only : bool) (shells : list Z) (kwargs : gmap string Z)
  : option (result Values) :=
  match c with
  | MeanCollector repository rounding_digits nauty =>
      Some (mean_collect_values repository rounding_digits nauty g
              iacm_data_only shells)
  | HistogramCollector repository rounding_digits nauty =>
      histogram_collect_values fuel repository rounding_digits nauty g
        iacm_data_only shells kwargs
  end.

End Settings.

(** ** Chargers *)

(** The solver classes imported from [charge/solvers.py] (not part of the
    sources); a solver object is its class with its constructor arguments. *)
Inductive SolverClass : Type := CDPSolver | DPSolver | ILPSolver | SimpleSolver.

Record Solver : Type := {
  solver_class : SolverClass;
  solver_args : list Z
}.

Record Charger : Type := {
  _nauty : Nauty;
  _repo : Repository;
  _rounding_digits : Z;
  _collector : Collector;
  _solver : Solver
}.

(** The [shell] argument of [charge]: [None], an [int] or a list of ints. *)
Inductive shell_arg : Type :=
  | ShellNone
  | ShellInt (shell : Z)
  | ShellList (shell : list Z).

(** [not shell]: [None], [0] and the empty list are falsy. *)
Definition py_not (shell : shell_arg) : bool :=
  match shell with
  | ShellNone => true
  | ShellInt n => (n =? 0)%Z
  | ShellList l => match l with [] => true | _ => false end
  end.

(** [isinstance(shell, Iterable[int])]: the [typing] module refuses instance
    checks against a subscripted generic, whatever the object is. *)
Definition isinstance_Iterable_int (shell : shell_arg) : result bool :=
  Raise (TypeError "Subscripted generics cannot be used with class and instance checks").

(** [sorted(d.keys(), reverse=True)] *)
Definition sorted_keys_reverse {A} (d : gmap Z A) : list Z :=
  reverse (merge_sort Z.le (elements (dom d))).

(** Lines 65-72 of [Charger.charge]: the list [shells] handed to the
    collector. *)
Definition charge_shells (self : Charger) (shell : shell_arg) : result (list Z) :=
  if py_not shell then
    Ok (sorted_keys_reverse (charges_iacm (_repo self)))
  else
    match shell with
    | ShellInt n => Ok [n]
    | _ =>
        let! is_iterable := isinstance_Iterable_int shell in
        if is_iterable then
          match shell with
          | ShellList l => Ok l
          | _ => Ok []
          end
        else Raise (TypeError "shell must be int or List[int]")
    end.

(** *** [Charger.__add_redistributed_charges] *)

(** [total_charge_redist], [min_score] ([None] is [float('inf')]) and
    [min_atom_data]: the dict object is shared with the graph, so it is kept
    as the position of its node. *)
Record redist_acc : Type := {
  total_charge_redist : Q;
  min_score : option Q;
  min_atom_data : option nat
}.

(** The first loop: [proportions] and [total_prop]. *)
Fixpoint proportions_loop (total_score : value)
    (nds : list (Z * gmap string value)) (proportions : gmap Z Q)
    (total_prop : Q) : result (gmap Z Q * Q) :=
  match nds with
  | [] => Ok (proportions, total_prop)
  | (v, data) :: rest =>
      let! score := (let! s := getitem data "score" in num s) in
      let! p := (if Qltb 0 score
                 then (let! ts := num total_score in py_div ts score)
                 else Ok 0) in
      proportions_loop total_score rest (<[v := p]> proportions) (total_prop + p)
  end.

(** [delta], line 112. *)
Definition delta (self : Charger) (proportions : gmap Z Q)
    (total_error total_prop : Q) (v : Z) : result Q :=
  let! p := match proportions !! v with
            | Some p => Ok p
            | None => Raise (KeyError "proportions")
            end in
  let! x := py_div (p * total_error) total_prop in
  Ok (py_round x (_rounding_digits self)).

Definition score_lt (score : Q) (min_score : option Q) : bool :=
  match min_score with
  | None => true
  | Some m => Qltb score m
  end.

(** One iteration of the second loop on the node at position [i]: the node's
    dict as the iteration leaves it, and the loop variables or the exception. *)
Definition redist_node (self : Charger) (proportions : gmap Z Q)
    (total_error total_prop : Q) (i : nat) (v : Z) (data : gmap string value)
    (acc : redist_acc) : gmap string value * result redist_acc :=
  match (let! d := delta self proportions total_error total_prop v in
         let! pc := (let! x := getitem data "partial_charge" in num x) in
         Ok (py_round (pc + d) (_rounding_digits self))) with
  | Raise e => (data, Raise e)
  | Ok r =>
      let data := <["partial_charge_redist" := VNum r]> data in
      (data,
       let total := total_charge_redist acc + r in
       let! score := (let! s := getitem data "score" in num s) in
       if score_lt score (min_score acc)
       then Ok {| total_charge_redist := total; min_score := Some score;
                  min_atom_data := Some i |}
       else Ok {| total_charge_redist := total; min_score := min_score acc;
                  min_atom_data := min_atom_data acc |})
  end.

Fixpoint redist_loop (self : Charger) (proportions : gmap Z Q)
    (total_error total_prop : Q) (i : nat)
    (nds : list (Z * gmap string value)) (acc : redist_acc)
  : list (Z * gmap string value) * result redist_acc :=
  match nds with
  | [] => ([], Ok acc)
  | (v, data) :: rest =>
      match redist_node self proportions total_error total_prop i v data acc with
      | (data', Raise e) => ((v, data') :: rest, Raise e)
      | (data', Ok acc') =>
          let '(rest', r) :=
            redist_loop self proportions total_error total_prop (S i) rest acc' in
          ((v, data') :: rest', r)
      end
  end.

(** Lines 119-123: the remainder goes to the atom of minimum score. *)
Definition redist_remainder (self : Charger) (g : Graph) (total_charge : Z)
    (acc : redist_acc) : Graph * result unit :=
  match min_atom_data acc with
  | None => (g, Ok tt)
  | Some i =>
      match nodes g !! i with
      | None => (g, Ok tt)
      | Some (v, data) =>
          if (size data =? 0)%nat then (g, Ok tt)
          else
            match (let! m := (let! x := getitem data "partial_charge_redist" in num x) in
                   Ok (py_round (m + inject_Z total_charge - total_charge_redist acc)
                         (_rounding_digits self))) with
            | Raise e => (g, Raise e)
            | Ok r =>
                let data := <["partial_charge_redist" := VNum r]> data in
                let total := total_charge_redist acc
                             + (inject_Z total_charge - total_charge_redist acc) in
                ({| graph := <["total_charge_redist" :=
                                 VNum (py_round total (_rounding_digits self))]> (graph g);
                    nodes := <[i := (v, data)]> (nodes g);
                    edges := edges g |}, Ok tt)
            end
      end
  end.

(** Lines 99-109: [total_error], [proportions] and [total_prop]. *)
Definition redist_setup (g : Graph) (total_charge : Z)
  : result (Q * gmap Z Q * Q) :=
  let! total_score := getitem (graph g) "score" in
  let! tc := (let! x := getitem (graph g) "total_charge" in num x) in
  let total_error := inject_Z total_charge - tc in
  let! props := proportions_loop total_score (nodes g) ∅ 0 in
  Ok (total_error, props.1, props.2).

(** The graph as the call leaves it, and whether it returned or raised. *)
Definition add_redistributed_charges (self : Charger) (g : Graph)
    (total_charge : Z) : Graph * result unit :=
  match redist_setup g total_charge with
  | Raise e => (g, Raise e)
  | Ok (total_error, proportions, total_prop) =>
      let acc0 := {| total_charge_redist := 0; min_score := None;
                     min_atom_data := None |} in
      match redist_loop self proportions total_error total_prop 0 (nodes g) acc0 with
      | (nds, Raise e) =>
          ({| graph := graph g; nodes := nds; edges := edges g |}, Raise e)
      | (nds, Ok acc) =>
          redist_remainder self
            {| graph := graph g; nodes := nds; edges := edges g |}
            total_charge acc
      end
  end.

Section Chargers.

(** [charge/settings.py], [charge/nauty.py], [charge/util.py] and
    [charge/solvers.py] are not part of the sources: the setting, the
    [Nauty()] constructor, [util.iacmize] and [solve_partial_charges] are
    parameters. *)
Variable MAX_ROUNDING_DIGITS : Z.
Variable MAX_BINS : Z.
Variable new_Nauty : Nauty.
Variable util_iacmize : Graph -> Graph.
Variable solve_partial_charges :
  Solver -> Graph -> Values -> Z -> gmap string Z -> Graph * result unit.

(** [Charger.__init__]: the fields every charger gets. *)
Definition init_nauty (nauty : option Nauty) : Nauty := default new_Nauty nauty.

Definition init_rounding_digits (rounding_digits : Z) : Z :=
  Z.min (Z.max rounding_digits 0) MAX_ROUNDING_DIGITS.

Definition SimpleCharger (repository : Repository) (rounding_digits : Z)
    (nauty : option Nauty) : Charger :=
  let self_nauty := init_nauty nauty in
  {| _nauty := self_nauty;
     _repo := repository;
     _rounding_digits := init_rounding_digits rounding_digits;
     _collector := MeanCollector repository rounding_digits self_nauty;
     _solver := {| solver_class := SimpleSolver;
                   solver_args := [rounding_digits] |} |}.

Definition ILPCharger (repository : Repository) (rounding_digits max_seconds : Z)
    (nauty : option Nauty) : Charger :=
  let self_nauty := init_nauty nauty in
  {| _nauty := self_nauty;
     _repo := repository;
     _rounding_digits := init_rounding_digits rounding_digits;
     _collector := HistogramCollector repository rounding_digits self_nauty;
     _solver := {| solver_class := ILPSolver;
                   solver_args := [rounding_digits; max_seconds] |} |}.

Definition DPCharger (repository : Repository) (rounding_digits max_seconds : Z)
    (nauty : option Nauty) : Charger :=
  let self_nauty := init_nauty nauty in
  {| _nauty := self_nauty;
     _repo := repository;
     _rounding_digits := init_rounding_digits rounding_digits;
     _collector := HistogramCollector repository rounding_digits self_nauty;
     _solver := {| solver_class := ILPSolver;
                   solver_args := [rounding_digits; max_seconds] |} |}.

Definition CDPCharger (repository : Repository) (rounding_digits max_seconds : Z)
    (nauty : option Nauty) : Charger :=
  let self_nauty := init_nauty nauty in
  {| _nauty := self_nauty;
     _repo := repository;
     _rounding_digits := init_rounding_digits rounding_digits;
     _collector := HistogramCollector repository rounding_digits self_nauty;
     _solver := {| solver_class := ILPSolver;
                   solver_args := [rounding_digits; max_seconds] |} |}.

(** [Charger.charge]: the graph it leaves behind and its outcome; [None] when
    the histogram loop of the collector runs out of fuel. *)
Definition charge (fuel : nat) (self : Charger) (g : Graph) (total_charge : Z)
    (iacmize iacm_data_only : bool) (shell : shell_arg)
    (kwargs : gmap string Z) : option (Graph * result unit) :=
  match charge_shells self shell with
  | Raise e => Some (g, Raise e)
  | Ok shells =>
      let g := if iacmize then util_iacmize g else g in
      match collect_values MAX_BINS fuel (_collector self) g
              (iacm_data_only || iacmize) shells kwargs with
      | None => None
      | Some (Raise e) => Some (g, Raise e)
      | Some (Ok values) =>
          match solve_partial_charges (_solver self) g values total_charge kwargs with
          | (g, Raise e) => Some (g, Raise e)
          | (g, Ok _) => Some (add_redistributed_charges self g total_charge)
          end
      end
  end.

End Chargers.

(** ** Fixtures

    The reference molecule of [charge/test/conftest.py]: a carbon bonded to
    four hydrogens. *)

Definition ref_graph_nodes : list (Z * gmap string value) :=
  [ (1%Z, {[ "atom_type" := VStr "C";  "label" := VStr "C1"; "charge_group" := VNum 0 ]});
    (2%Z, {[ "atom_type" := VStr "HC"; "label" := VStr "H1"; "charge_group" := VNum 0 ]});
    (3%Z, {[ "atom_type" := VStr "HC"; "label" := VStr "H2"; "charge_group" := VNum 0 ]});
    (4%Z, {[ "atom_type" := VStr "HC"; "label" := VStr "H3"; "charge_group" := VNum 0 ]});
    (5%Z, {[ "atom_type" := VStr "HC"; "label" := VStr "H4"; "charge_group" := VNum 0 ]}) ].

Definition ref_graph : Graph :=
  {| graph := {[ "group_charges" := VOther "{0: 0.0}" ]};
     nodes := ref_graph_nodes;
     edges := [(1, 2); (1, 3); (1, 4); (1, 5)]%Z |}.

(** A canonization oracle that is exact at radius 0, where the neighborhood
    is the atom alone: the key is the atom's color. *)
Definition color_nauty : Nauty :=
  {| canonize_neighborhood := fun g atom shell color_key =>
       match node g atom with
       | Ok data => match data !! color_key with
                    | Some (VStr s) => s
                    | _ => ""
                    end
       | Raise _ => ""
       end |}.

(** A repository whose IACM data knows shells 0, 1 and 2 but, at shell 0,
    only the carbon; the plain-element data knows both atom types. *)
Definition ref_repository : Repository :=
  {| charges_iacm := {[ 0%Z := {[ "C" := [-(1 # 10)] ]};
                        1%Z := ∅; 2%Z := ∅ ]};
     charges_elem := {[ 0%Z := {[ "C" := [-(1 # 10)];
                                  "HC" := [2 # 100; 3 # 100] ]} ]} |}.

Definition ref_charger : Charger := SimpleCharger 9 color_nauty ref_repository 3 None.

Definition ref_histogram_charger : Charger :=
  DPCharger 9 color_nauty ref_repository 3 60 None.

(** ** Notions used to state the properties *)

(** The numbers with at most [d] decimals. *)
Definition on_grid (d : Z) (x : Q) : Prop :=
  exists z : Z, x == inject_Z z / pow10 d.

(** [d'] differs from [d] at most at key [k]. *)
Definition same_but (k : string) (d d' : gmap string value) : Prop :=
  forall k', k' ≠ k -> d' !! k' = d !! k'.

(** Same node ids in the same order, dicts equal except at [k]. *)
Definition nodes_same_but (k : string) (nds nds' : list (Z * gmap string value)) : Prop :=
  Forall2 (fun nd nd' => nd'.1 = nd.1 /\ same_but k nd.2 nd'.2) nds nds'.

(** The number stored under [k], 0 when there is none. *)
Definition the_num (d : gmap string value) (k : string) : Q :=
  match d !! k with
  | Some (VNum q) => q
  | _ => 0
  end.

(** A node as the solver leaves it: a numeric [score] and [partial_charge]. *)
Definition node_solved (nd : Z * gmap string value) : Prop :=
  exists s pc : Q,
    nd.2 !! "score" = Some (VNum s) /\ nd.2 !! "partial_charge" = Some (VNum pc).

(** A graph as the solver leaves it. *)
Definition solved (g : Graph) : Prop :=
  (exists T c : Q,
      graph g !! "score" = Some (VNum T)
      /\ graph g !! "total_charge" = Some (VNum c))
  /\ Forall node_solved (nodes g).

(** The weight [1 / score] of an atom, 0 for an atom without confidence. *)
Definition inv_score (nd : Z * gmap string value) : Q :=
  if Qltb 0 (the_num nd.2 "score") then / the_num nd.2 "score" else 0.

Definition Qsum (l : list Q) : Q := fold_right Qplus 0 l.

(** The solver's part on a fixture: a raw charge and a score per atom, in
    node order, and the graph's total charge and score. *)
Definition set_solution (g : Graph) (charges_scores : list (Q * Q))
    (total_charge score : Q) : Graph :=
  {| graph := <["total_charge" := VNum total_charge]>
                (<["score" := VNum score]> (graph g));
     nodes := zip_with
                (fun nd cs => (nd.1, <["partial_charge" := VNum cs.1]>
                                       (<["score" := VNum cs.2]> nd.2)))
                (nodes g) charges_scores;
     edges := edges g |}.

(** The reference molecule with raw charges that sum to -0.008. *)
Definition methane_solved : Graph :=
  set_solution ref_graph
    [ (-(100 # 1000), 1); (23 # 1000, 1); (23 # 1000, 1); (23 # 1000, 1);
      (23 # 1000, 1) ]
    (-(8 # 1000)) 5.

(** The same with no confidence in any atom. *)
Definition methane_zero_scores : Graph :=
  set_solution ref_graph
    [ (-(100 # 1000), 0); (23 # 1000, 0); (23 # 1000, 0); (23 # 1000, 0);
      (23 # 1000, 0) ]
    (-(8 # 1000)) 0.

(** The [delta] and the rounded charge the second loop computes for a node,
    as total functions of the loop's inputs. *)
Definition node_delta (self : Charger) (proportions : gmap Z Q)
    (total_error total_prop : Q) (v : Z) : Q :=
  py_round (default 0 (proportions !! v) * total_error / total_prop)
    (_rounding_digits self).

Definition node_redist (self : Charger) (proportions : gmap Z Q)
    (total_error total_prop : Q) (nd : Z * gmap string value) : Q :=
  py_round (the_num nd.2 "partial_charge"
            + node_delta self proportions total_error total_prop nd.1)
    (_rounding_digits self).

Definition redist_written (self : Charger) (proportions : gmap Z Q)
    (total_error total_prop : Q) (nd : Z * gmap string value)
  : Z * gmap string value :=
  (nd.1, <["partial_charge_redist" :=
             VNum (node_redist self proportions total_error total_prop nd)]> nd.2).

(** The minimum search of the second loop on the list of scores alone. *)
Fixpoint scan_min (i : nat) (scores : list Q) (m : option Q) (j : option nat)
  : option Q * option nat :=
  match scores with
  | [] => (m, j)
  | s :: rest =>
      if score_lt s m then scan_min (S i) rest (Some s) (Some i)
      else scan_min (S i) rest m j
  end.

Definition score_of (nd : Z * gmap string value) : Q := the_num nd.2 "score".

(** [j] is the position of the first smallest element of [scores]. *)
Definition first_min (scores : list Q) (j : nat) : Prop :=
  exists m : Q,
    scores !! j = Some m
    /\ (forall k s, scores !! k = Some s -> m <= s)
    /\ (forall k s, (k < j)%nat -> scores !! k = Some s -> m < s).

(** The sum over all atoms of [partial_charge_redist]. *)
Definition redist_sum (nds : list (Z * gmap string value)) : Q :=
  Qsum ((fun nd => the_num nd.2 "partial_charge_redist") <$> nds).

(** What the minimum search knows after the scores [l]: nothing, or the
    first smallest score and its position. *)
Definition min_state (l : list Q) (m : option Q) (j : option nat) : Prop :=
  match m, j with
  | None, None => l = []
  | Some mv, Some jv =>
      l !! jv = Some mv
      /\ (forall k s, l !! k = Some s -> mv <= s)
      /\ (forall k s, (k < jv)%nat -> l !! k = Some s -> mv < s)
  | _, _ => False
  end.

(** The product of a list of numbers. *)
Definition Qprod (l : list Q) : Q := fold_right Qmult 1 l.

(** The same raw charges where the first hydrogen has score 0 and the graph
    score is the product of the atom scores, which is then 0. *)
Definition methane_product_score : Graph :=
  set_solution ref_graph
    [ (-(100 # 1000), 1); (23 # 1000, 0); (23 # 1000, 1); (23 # 1000, 1);
      (23 # 1000, 1) ]
    (-(8 # 1000)) 0.

(** The value of the local [delta] for atom [v] in a call of
    [__add_redistributed_charges]. *)
Definition delta_of (self : Charger) (g : Graph) (total_charge : Z) (v : Z)
  : result Q :=
  match redist_setup g total_charge with
  | Raise e => Raise e
  | Ok (total_error, proportions, total_prop) =>
      delta self proportions total_error total_prop v
  end.

(** The reference molecule with equal raw charges on the hydrogens and no
    confidence in the first of them. *)
Definition methane_unsure_hydrogen : Graph :=
  set_solution ref_graph
    [ (-(100 # 1000), 1); (23 # 1000, 0); (23 # 1000, 1); (23 # 1000, 1);
      (23 # 1000, 1) ]
    (-(8 # 1000)) 5.

(** The reference molecule with more confidence in the later hydrogens. *)
Definition methane_graded_scores : Graph :=
  set_solution ref_graph
    [ (-(100 # 1000), 4); (23 # 1000, 1); (23 # 1000, 2); (23 # 1000, 2);
      (23 # 1000, 2) ]
    (-(8 # 1000)) 11.

(** A state as the loop body leaves it: [num_bins] counts the occupied bins,
    there is a center for every count, no count is negative and the centers
    are an [np.arange] with a positive step. *)
Definition hist_good (st : hist_state) : Prop :=
  num_bins st = np_count_nonzero (counts st)
  /\ (length (counts st) <= length (bin_centers st))%nat
  /\ Forall (fun c => (0 <= c)%Z) (counts st)
  /\ exists start stop step : Q,
       0 < step /\ bin_centers st = np_arange start stop step.

(** All charges round to the same center 0 at this [step]. *)
Definition wide (step mn mx : Q) : Prop :=
  - ((1 # 2) * step) < mn /\ mx <= (1 # 2) * step.

(** The sum of a list of counts. *)
Definition Zsum (l : list Z) : Z := fold_right Z.add 0%Z l.

(** The state the loop body leaves when it is entered with [spacing = s - 1],
    that is, the binning with bins [s] grains wide. *)
Definition histogram_pass (charges : list Q) (grain : Q) (s : Z)
  : result hist_state :=
  histogram_body charges grain
    {| spacing := s - 1; num_bins := 0; bin_centers := []; counts := [] |}.

(** The state in which [__calculate_histogram] enters its loop. *)
Definition histogram_start (max_bins : Z) : hist_state :=
  {| spacing := 0; num_bins := max_bins + 1; bin_centers := []; counts := [] |}.

(** The first shell, in the given order, at which [try] finds something. *)
Fixpoint first_match {A} (try : Z -> option A) (shells : list Z) : option A :=
  match shells with
  | [] => None
  | s :: rest =>
      match try s with
      | Some c => Some c
      | None => first_match try rest
      end
  end.

(** The attribute dict of an atom, empty for an atom the graph lacks. *)
Definition atom_data (g : Graph) (atom : Z) : gmap string value :=
  match node g atom with
  | Ok data => data
  | Raise _ => ∅
  end.

(** What the Mean collector finds for an atom at one shell: the IACM data
    under the atom's IACM coloring (elemental when it has no IACM type), and
    failing that, unless [iacm_data_only], the plain-element data. *)
Definition mean_try (repository : Repository) (rounding_digits : Z)
    (nauty : Nauty) (g : Graph) (iacm_data_only : bool) (atom shell_size : Z)
  : option (list Q * list Q) :=
  match mean_collect rounding_digits nauty g atom shell_size
          (if bool_decide (is_Some (atom_data g atom !! "iacm"))
           then "iacm" else "atom_type")
          (charges_iacm repository) with
  | Some c => Some c
  | None =>
      if iacm_data_only then None
      else mean_collect rounding_digits nauty g atom shell_size "atom_type"
             (charges_elem repository)
  end.

(** No key of the charge set holds an empty list of charges.  [np.mean] of
    an empty list is nan, which the rationals lack: what is said about the
    value of a mean is said of repositories without empty lists. *)
Definition no_empty_lists (cs : ChargeSet) : Prop :=
  map_Forall (fun _ by_key => map_Forall (fun _ (l : list Q) => l ≠ []) by_key) cs.

Definition mean_match (repository : Repository) (rounding_digits : Z)
    (nauty : Nauty) (g : Graph) (iacm_data_only : bool) (shells : list Z)
    (atom : Z) : option (list Q * list Q) :=
  first_match (mean_try repository rounding_digits nauty g iacm_data_only atom)
    shells.

(** The raw charges the Histogram collector finds for an atom at one shell:
    the IACM data when it has the shell at all, the plain-element data only
    when the IACM data lacks the shell (and [iacm_data_only] is off). *)
Definition hist_try (repository : Repository) (nauty : Nauty) (g : Graph)
    (iacm_data_only : bool) (atom shell : Z) : option (list Q) :=
  match charges_iacm repository !! shell with
  | Some by_key =>
      by_key !! canonize_neighborhood nauty g atom shell
                  (if bool_decide (is_Some (atom_data g atom !! "iacm"))
                   then "iacm" else "atom_type")
  | None =>
      if iacm_data_only then None
      else match charges_elem repository !! shell with
           | Some by_key =>
               by_key !! canonize_neighborhood nauty g atom shell default_color_key
           | None => None
           end
  end.

(** The number of bins a call of the Histogram collector allows. *)
Definition effective_max_bins (MAX_BINS : Z) (kwargs : gmap string Z) : Z :=
  match kwargs !! "max_bins" with
  | Some m => Z.max m 1
  | None => MAX_BINS
  end.

(** An atom with a numeric [score]. *)
Definition has_score (nd : Z * gmap string value) : Prop :=
  exists s : Q, nd.2 !! "score" = Some (VNum s).

(** The raw charge of an atom. *)
Definition raw_charge (nd : Z * gmap string value) : Q :=
  the_num nd.2 "partial_charge".

(** The reference molecule with raw charges that already sum to 0. *)
Definition methane_neutral : Graph :=
  set_solution ref_graph
    [ (-(100 # 1000), 1); (25 # 1000, 2); (25 # 1000, 2); (25 # 1000, 2);
      (25 # 1000, 2) ]
    0 9.

(** The reference molecule before the solver ran, with a graph score and
    total only: no atom has a score yet. *)
Definition methane_unsolved : Graph :=
  {| graph := <["total_charge" := VNum 0]> (<["score" := VNum 5]> (graph ref_graph));
     nodes := nodes ref_graph;
     edges := edges ref_graph |}.

(** The solved reference molecule whose third atom lost its raw charge. *)
Definition methane_missing_charge : Graph :=
  {| graph := graph methane_solved;
     nodes := <[2%nat := (3%Z, {[ "atom_type" := VStr "HC"; "score" := VNum 1 ]})]>
                (nodes methane_solved);
     edges := edges methane_solved |}.

(** The [rounding_digits] a collector was built with. *)
Definition collector_rounding_digits (c : Collector) : Z :=
  match c with
  | MeanCollector _ rounding_digits _ => rounding_digits
  | HistogramCollector _ rounding_digits _ => rounding_digits
  end.

(** Modelled from the spec: [charge/solvers.py] is not part of the sources.
    A stand-in for the Simple solver of section 4.4, "trivial pass-through
    (single candidate per atom)", used to run [charge] on a fixture: each atom
    gets its first candidate as [partial_charge] and that candidate's weight
    as [score]; the graph gets their sums. *)
Definition pass_through_solver (s : Solver) (g : Graph) (values : Values)
    (total_charge : Z) (kwargs : gmap string Z) : Graph * result unit :=
  let pick (nd : Z * gmap string value) : Q * Q :=
    match values !! nd.1 with
    | Some (c :: _, w :: _) => (c, w)
    | _ => (0, 0)
    end in
  ({| graph := <["total_charge" := VNum (Qsum ((fun nd => (pick nd).1) <$> nodes g))]>
                 (<["score" := VNum (Qsum ((fun nd => (pick nd).2) <$> nodes g))]>
                    (graph g));
      nodes := (fun nd => (nd.1, <["partial_charge" := VNum (pick nd).1]>
                                   (<["score" := VNum (pick nd).2]> nd.2)))
               <$> nodes g;
      edges := edges g |}, Ok tt).

(** Modelled from the spec: [charge/solvers.py] is not part of the sources.
    A stand-in for a solver that has no confidence in any atom, used to run
    [charge] on a fixture: each atom gets its first candidate as
    [partial_charge] and the [score] 0; the graph gets their sums. *)
Definition no_confidence_solver (s : Solver) (g : Graph) (values : Values)
    (total_charge : Z) (kwargs : gmap string Z) : Graph * result unit :=
  let pick (nd : Z * gmap string value) : Q :=
    match values !! nd.1 with
    | Some (c :: _, _) => c
    | _ => 0
    end in
  ({| graph := <["total_charge" := VNum (Qsum (pick <$> nodes g))]>
                 (<["score" := VNum 0]> (graph g));
      nodes := (fun nd => (nd.1, <["partial_charge" := VNum (pick nd)]>
                                   (<["score" := VNum 0]> nd.2)))
               <$> nodes g;
      edges := edges g |}, Ok tt).

(** * Properties *)

(** ** Rounding *)

Lemma pow10_pos (n : Z) : 0 < pow10 n.
Proof. unfold pow10. apply Qpower_0_lt. reflexivity. Qed.

Lemma pow10_nonzero (n : Z) : ~ pow10 n == 0.
Proof. pose proof (pow10_pos n). lra. Qed.

#[global]
Instance round_half_even_comp : Proper (Qeq ==> eq) round_half_even.
Proof.
  intros x y Hxy. unfold round_half_even.
  rewrite (Qfloor_comp _ _ Hxy).
  assert (H : x - inject_Z (Qfloor y) == y - inject_Z (Qfloor y)) by (rewrite Hxy; reflexivity).
  rewrite (Qcompare_comp _ _ H _ _ (Qeq_refl (1 # 2))). reflexivity.
Qed.

Lemma round_half_even_Z (z : Z) : round_half_even (inject_Z z) = z.
Proof.
  unfold round_half_even. rewrite Qfloor_Z.
  destruct (Qcompare_spec (inject_Z z - inject_Z z) (1 # 2)) as [H | H | H];
    [exfalso; lra | reflexivity | exfalso; lra].
Qed.

Lemma round_half_even_bounds (x : Q) :
  (Qfloor x <= round_half_even x <= Qfloor x + 1)%Z.
Proof.
  unfold round_half_even.
  destruct (Qcompare _ _); [destruct (Z.even _) | |]; lia.
Qed.

Lemma round_half_even_mono (x y : Q) :
  x <= y -> (round_half_even x <= round_half_even y)%Z.
Proof.
  intros Hxy.
  pose proof (Qfloor_resp_le _ _ Hxy) as Hf.
  destruct (Z.eq_dec (Qfloor x) (Qfloor y)) as [Heq | Hne].
  - unfold round_half_even. rewrite Heq.
    destruct (Qcompare_spec (x - inject_Z (Qfloor y)) (1 # 2)) as [Hx | Hx | Hx];
      destruct (Qcompare_spec (y - inject_Z (Qfloor y)) (1 # 2)) as [Hy | Hy | Hy];
      try destruct (Z.even (Qfloor y)); try lia; exfalso; lra.
  - pose proof (round_half_even_bounds x). pose proof (round_half_even_bounds y).
    lia.
Qed.


Example py_round_tie_even : py_round (5 # 2) 0 == 2 /\ py_round (7 # 2) 0 == 4.
Proof. split; reflexivity. Qed.

Example py_round_3 : py_round (12345 # 10000) 3 == 1234 # 1000.
Proof. vm_compute. reflexivity. Qed.

#[global]
Instance py_round_comp : Proper (Qeq ==> eq ==> Qeq) py_round.
Proof.
  intros x y Hxy d ? <-. unfold py_round.
  assert (H : x * pow10 d == y * pow10 d) by (rewrite Hxy; reflexivity).
  rewrite (round_half_even_comp _ _ H). reflexivity.
Qed.

Lemma py_round_mono (x y : Q) (d : Z) : x <= y -> py_round x d <= py_round y d.
Proof.
  intros Hxy. unfold py_round. pose proof (pow10_pos d) as Hp.
  apply Qmult_le_compat_r.
  - rewrite <- Zle_Qle. apply round_half_even_mono.
    apply Qmult_le_compat_r; [assumption | lra].
  - apply Qlt_le_weak, Qinv_lt_0_compat, Hp.
Qed.

Lemma py_round_0 (d : Z) : py_round 0 d == 0.
Proof.
  unfold py_round.
  assert (H : 0 * pow10 d == inject_Z 0) by (unfold inject_Z; ring).
  rewrite (round_half_even_comp _ _ H), round_half_even_Z.
  unfold Qdiv. unfold inject_Z. ring.
Qed.

#[global]
Instance on_grid_comp (d : Z) : Proper (Qeq ==> iff) (on_grid d).
Proof. intros x y Hxy. unfold on_grid. setoid_rewrite Hxy. reflexivity. Qed.

Lemma py_round_on_grid (x : Q) (d : Z) : on_grid d (py_round x d).
Proof. eexists. reflexivity. Qed.

Lemma py_round_id (x : Q) (d : Z) : on_grid d x -> py_round x d == x.
Proof.
  intros [z Hz]. unfold py_round. pose proof (pow10_nonzero d) as Hp.
  assert (H : x * pow10 d == inject_Z z) by (rewrite Hz; field; assumption).
  rewrite (round_half_even_comp _ _ H), round_half_even_Z, Hz. reflexivity.
Qed.

Lemma on_grid_plus (d : Z) (x y : Q) : on_grid d x -> on_grid d y -> on_grid d (x + y).
Proof.
  intros [a Ha] [b Hb]. exists (a + b)%Z. pose proof (pow10_nonzero d).
  rewrite Ha, Hb, inject_Z_plus. field. assumption.
Qed.

Lemma on_grid_opp (d : Z) (x : Q) : on_grid d x -> on_grid d (- x).
Proof.
  intros [a Ha]. exists (- a)%Z. pose proof (pow10_nonzero d).
  rewrite Ha, inject_Z_opp. field. assumption.
Qed.

Lemma on_grid_minus (d : Z) (x y : Q) : on_grid d x -> on_grid d y -> on_grid d (x - y).
Proof. intros Hx Hy. apply on_grid_plus; [assumption | apply on_grid_opp, Hy]. Qed.

Lemma on_grid_0 (d : Z) : on_grid d 0.
Proof. exists 0%Z. unfold Qdiv. unfold inject_Z. ring. Qed.

Lemma on_grid_Z (d : Z) (n : Z) : (0 <= d)%Z -> on_grid d (inject_Z n).
Proof.
  intros Hd. exists (n * 10 ^ d)%Z. pose proof (pow10_nonzero d) as Hp.
  rewrite inject_Z_mult. unfold pow10 in *.
  rewrite (Zpower_Qpower 10 d Hd). change (inject_Z 10) with 10.
  field. assumption.
Qed.

(** ** The [shell] argument of [charge] *)

Lemma charge_shells_none (self : Charger) :
  charge_shells self ShellNone
  = Ok (sorted_keys_reverse (charges_iacm (_repo self))).
Proof. reflexivity. Qed.

Lemma charge_shells_int_nonzero (self : Charger) (n : Z) :
  n ≠ 0%Z -> charge_shells self (ShellInt n) = Ok [n].
Proof.
  intros Hn. unfold charge_shells, py_not.
  destruct (Z.eqb_spec n 0) as [->|_]; [contradiction | reflexivity].
Qed.

Lemma charge_shells_int_zero (self : Charger) :
  charge_shells self (ShellInt 0)
  = Ok (sorted_keys_reverse (charges_iacm (_repo self))).
Proof. reflexivity. Qed.

(** C5.  The claim: every integer [shell], 0 included, gives the singleton
    list of that integer.  The code tests [not shell] first, and 0 is falsy:
    with [shell = 0] the reference charger tries every shell of the IACM data,
    largest first, and not the list [[0]]. *)
Theorem C5_shell_zero_is_taken_as_unset :
  charge_shells ref_charger (ShellInt 0) = Ok [2; 1; 0]%Z
  /\ charge_shells ref_charger (ShellInt 0) ≠ Ok [0%Z].
Proof. split; [vm_compute; reflexivity | vm_compute; discriminate]. Qed.

Lemma charge_shells_list_raises (self : Charger) (x : Z) (l : list Z) :
  exists msg, charge_shells self (ShellList (x :: l)) = Raise (TypeError msg).
Proof. eexists. reflexivity. Qed.

Lemma charge_shells_list_never_given (self : Charger) (l : list Z) :
  l ≠ [] -> charge_shells self (ShellList l) ≠ Ok l.
Proof. destruct l as [|x l]; [contradiction | discriminate]. Qed.

(** C6.  The claim: a list of shell sizes is used as given and no type error
    is raised.  The code reaches [isinstance(shell, Iterable[int])] for every
    non-empty list, and that check itself raises [TypeError]: for the list
    [[2, 1, 0]] no shell list is produced at all. *)
Theorem C6_shell_list_raises_type_error :
  charge_shells ref_charger (ShellList [2; 1; 0]%Z)
  = Raise (TypeError "Subscripted generics cannot be used with class and instance checks")
  /\ charge_shells ref_charger (ShellList [2; 1; 0]%Z) ≠ Ok [2; 1; 0]%Z.
Proof. split; [reflexivity | discriminate]. Qed.

(** ** The charger variants *)

(** C7.  The claim: the DP-based charger pairs the Histogram collector with a
    dynamic-programming solver, not the ILP solver.  In the code [DPCharger]
    and [CDPCharger] build exactly the collector and the solver of
    [ILPCharger]: an [ILPSolver]; neither [DPSolver] nor [CDPSolver] is ever
    constructed. *)
Theorem C7_dp_chargers_use_the_ilp_solver
    (MAX_ROUNDING_DIGITS : Z) (new_Nauty : Nauty) (repository : Repository)
    (rounding_digits max_seconds : Z) (nauty : option Nauty) :
  let dp := DPCharger MAX_ROUNDING_DIGITS new_Nauty repository rounding_digits
              max_seconds nauty in
  let cdp := CDPCharger MAX_ROUNDING_DIGITS new_Nauty repository rounding_digits
               max_seconds nauty in
  let ilp := ILPCharger MAX_ROUNDING_DIGITS new_Nauty repository rounding_digits
               max_seconds nauty in
  solver_class (_solver dp) = ILPSolver
  /\ solver_class (_solver dp) ≠ DPSolver
  /\ solver_class (_solver cdp) = ILPSolver
  /\ solver_class (_solver cdp) ≠ CDPSolver
  /\ dp = ilp /\ cdp = ilp.
Proof. cbn. repeat split; discriminate. Qed.

(** ** Fallback to the plain-element data *)

Lemma mean_shells_falls_back (repository : Repository) (rounding_digits : Z)
    (nauty : Nauty) (g : Graph) (atom shell_size : Z) (rest : list Z)
    (data : gmap string value) (c : list Q * list Q) :
  node g atom = Ok data ->
  mean_collect rounding_digits nauty g atom shell_size
    (if bool_decide (is_Some (data !! "iacm")) then "iacm" else "atom_type")
    (charges_iacm repository) = None ->
  mean_collect rounding_digits nauty g atom shell_size "atom_type"
    (charges_elem repository) = Some c ->
  mean_shells repository rounding_digits nauty g atom false (shell_size :: rest)
  = Ok (Some c).
Proof.
  intros Hnode Hiacm Helem. cbn [mean_shells]. rewrite Hnode. cbn [rbind].
  rewrite Hiacm. cbn [negb]. rewrite Helem. reflexivity.
Qed.

(** When the IACM data has the shell but not the key, the Histogram collector
    goes on to the next shell whatever the plain-element data holds. *)
Lemma histogram_shells_skips_elem (fuel : nat) (repository : Repository)
    (rounding_digits : Z) (nauty : Nauty) (g : Graph) (atom shell : Z)
    (iacm_data_only : bool) (max_bins : Z) (rest : list Z)
    (data : gmap string value) (by_key : gmap string (list Q)) :
  node g atom = Ok data ->
  charges_iacm repository !! shell = Some by_key ->
  by_key !! canonize_neighborhood nauty g atom shell
              (if bool_decide (is_Some (data !! "iacm"))
               then "iacm" else "atom_type") = None ->
  histogram_shells fuel repository rounding_digits nauty g atom iacm_data_only
    max_bins (shell :: rest)
  = histogram_shells fuel repository rounding_digits nauty g atom iacm_data_only
      max_bins rest.
Proof.
  intros Hnode Hshell Hkey. cbn [histogram_shells].
  rewrite Hshell, Hnode, Hkey. reflexivity.
Qed.

(** C2.  The claim: under both strategies a miss of the IACM lookup at a shell
    is followed, when [iacm_data_only] is false, by a probe of the
    plain-element data at that shell.  The Mean collector does so; the
    Histogram collector only looks at the plain-element data when the IACM
    data lacks the whole shell.  On the reference molecule the hydrogens miss
    the IACM data at shell 0 and are in the plain-element data at shell 0:
    Mean finds them, Histogram reports them unresolved. *)
Theorem C2_histogram_skips_element_fallback :
  (exists (values : Values) (c : Q),
      mean_collect_values ref_repository 3 color_nauty ref_graph false [0%Z]
      = Ok values
      /\ values !! 2%Z = Some ([c], [1]) /\ c == 25 # 1000)
  /\ histogram_collect_values 25 1 ref_repository 3 color_nauty ref_graph false
       [0%Z] ∅
     = Some (Raise (AssignmentError [2; 3; 4; 5]%Z
                      " Please retry with a SimpleCharger.")).
Proof.
  split; [| vm_compute; reflexivity].
  eexists _, _. split; [vm_compute; reflexivity |].
  split; [vm_compute; reflexivity | reflexivity].
Qed.

(** ** Frame of the redistribution *)

Lemma same_but_refl (k : string) (d : gmap string value) : same_but k d d.
Proof. intros k' _. reflexivity. Qed.

Lemma same_but_insert (k : string) (x : value) (d d' : gmap string value) :
  same_but k d d' -> same_but k d (<[k := x]> d').
Proof. intros H k' Hk'. rewrite lookup_insert_ne by congruence. apply H, Hk'. Qed.

Lemma same_but_trans (k : string) (d1 d2 d3 : gmap string value) :
  same_but k d1 d2 -> same_but k d2 d3 -> same_but k d1 d3.
Proof. intros H12 H23 k' Hk'. rewrite H23, H12; auto. Qed.

Lemma nodes_same_but_refl (k : string) (nds : list (Z * gmap string value)) :
  nodes_same_but k nds nds.
Proof. apply Forall2_same_length_lookup. split; [reflexivity|].
  intros i x y Hx Hy. rewrite Hx in Hy. injection Hy as <-. split; [reflexivity | apply same_but_refl].
Qed.

Lemma redist_node_frame (self : Charger) (proportions : gmap Z Q)
    (total_error total_prop : Q) (i : nat) (v : Z) (data : gmap string value)
    (acc : redist_acc) :
  same_but "partial_charge_redist" data
    (redist_node self proportions total_error total_prop i v data acc).1.
Proof.
  unfold redist_node.
  destruct (rbind _ _) as [r | e]; cbn [fst].
  - apply same_but_insert, same_but_refl.
  - apply same_but_refl.
Qed.

Lemma redist_loop_frame (self : Charger) (proportions : gmap Z Q)
    (total_error total_prop : Q) (nds : list (Z * gmap string value)) :
  forall (i : nat) (acc : redist_acc),
    nodes_same_but "partial_charge_redist" nds
      (redist_loop self proportions total_error total_prop i nds acc).1.
Proof.
  induction nds as [| [v data] rest IH]; intros i acc; cbn [redist_loop].
  - constructor.
  - pose proof (redist_node_frame self proportions total_error total_prop i v data acc) as Hn.
    destruct (redist_node _ _ _ _ _ _ _ _) as [data' [acc' | e]]; cbn [fst] in Hn.
    + specialize (IH (S i) acc').
      destruct (redist_loop _ _ _ _ _ _ _) as [rest' r]. cbn [fst] in *.
      constructor; [split; [reflexivity | assumption] | assumption].
    + cbn [fst]. constructor; [split; [reflexivity | assumption] |].
      apply nodes_same_but_refl.
Qed.

Lemma nodes_same_but_insert (k : string) (nds nds' : list (Z * gmap string value))
    (i : nat) (v : Z) (data : gmap string value) (x : value) :
  nodes_same_but k nds nds' -> nds' !! i = Some (v, data) ->
  nodes_same_but k nds (<[i := (v, <[k := x]> data)]> nds').
Proof.
  intros H Hi. unfold nodes_same_but in *.
  apply Forall2_same_length_lookup. apply Forall2_same_length_lookup in H as [Hlen H].
  split; [rewrite length_insert; assumption |].
  intros j a b Ha Hb.
  destruct (decide (i = j)) as [<- | Hne].
  - rewrite list_lookup_insert_eq in Hb by (eapply lookup_lt_Some; eassumption).
    injection Hb as <-. destruct (H i a (v, data) Ha Hi) as [H1 H2].
    split; [exact H1 | apply same_but_insert, H2].
  - rewrite list_lookup_insert_ne in Hb by assumption. eauto.
Qed.

Lemma redist_remainder_frame (self : Charger) (g0 g : Graph) (total_charge : Z)
    (acc : redist_acc) :
  nodes_same_but "partial_charge_redist" (nodes g0) (nodes g) ->
  let g' := (redist_remainder self g total_charge acc).1 in
  nodes_same_but "partial_charge_redist" (nodes g0) (nodes g')
  /\ same_but "total_charge_redist" (graph g) (graph g')
  /\ edges g' = edges g.
Proof.
  intros H. unfold redist_remainder.
  destruct (min_atom_data acc) as [i |]; [| cbn; auto using same_but_refl].
  destruct (nodes g !! i) as [[v data] |] eqn:Hi; [| cbn; auto using same_but_refl].
  destruct (size data =? 0)%nat; [cbn; auto using same_but_refl |].
  destruct (rbind _ _) as [r | e]; [| cbn; auto using same_but_refl].
  cbn. split; [| split; [apply same_but_insert, same_but_refl | reflexivity]].
  apply nodes_same_but_insert; assumption.
Qed.

Lemma nodes_same_but_ids (k : string) (nds nds' : list (Z * gmap string value)) :
  nodes_same_but k nds nds' -> nds'.*1 = nds.*1.
Proof.
  induction 1 as [| nd nd' nds nds' [H1 _] _ IH]; [reflexivity |].
  cbn. rewrite H1, IH. reflexivity.
Qed.

(** C10.  Whatever the graph and however the call ends, the redistribution
    step leaves the bonds, the node ids and their order as they were, changes
    no node attribute other than [partial_charge_redist] and no graph
    attribute other than [total_charge_redist]; in particular every
    [partial_charge] and [score] is as before. *)
Theorem C10_redistribution_frame (self : Charger) (g : Graph) (total_charge : Z) :
  let g' := (add_redistributed_charges self g total_charge).1 in
  edges g' = edges g
  /\ (nodes g').*1 = (nodes g).*1
  /\ nodes_same_but "partial_charge_redist" (nodes g) (nodes g')
  /\ same_but "total_charge_redist" (graph g) (graph g')
  /\ Forall2 (fun nd nd' =>
                nd'.2 !! "partial_charge" = nd.2 !! "partial_charge"
                /\ nd'.2 !! "score" = nd.2 !! "score") (nodes g) (nodes g').
Proof.
  cbn zeta.
  assert (H : nodes_same_but "partial_charge_redist" (nodes g)
                (nodes (add_redistributed_charges self g total_charge).1)
              /\ same_but "total_charge_redist" (graph g)
                   (graph (add_redistributed_charges self g total_charge).1)
              /\ edges (add_redistributed_charges self g total_charge).1 = edges g).
  { unfold add_redistributed_charges.
    destruct (redist_setup _ _) as [[[total_error proportions] total_prop] | e];
      [| cbn; auto using same_but_refl, nodes_same_but_refl].
    pose proof (redist_loop_frame self proportions total_error total_prop (nodes g) 0
                  {| total_charge_redist := 0; min_score := None; min_atom_data := None |}) as Hl.
    destruct (redist_loop _ _ _ _ _ _ _) as [nds [acc | e]]; cbn [fst] in Hl.
    - apply (redist_remainder_frame self g
               {| graph := graph g; nodes := nds; edges := edges g |} total_charge acc Hl).
    - cbn. auto using same_but_refl. }
  destruct H as (Hn & Hg & He).
  split; [exact He |]. split; [eapply nodes_same_but_ids, Hn |].
  split; [exact Hn |]. split; [exact Hg |].
  eapply Forall2_impl; [exact Hn |].
  intros nd nd' [_ Hs]. split; apply Hs; discriminate.
Qed.

(** ** The proportions *)

Lemma Qltb_lt (x y : Q) : Qltb x y = true <-> x < y.
Proof.
  unfold Qltb. rewrite negb_true_iff. split.
  - intros H. apply Qnot_le_lt. intros Hle. apply Qle_bool_iff in Hle. congruence.
  - intros H. destruct (Qle_bool y x) eqn:E; [| reflexivity].
    apply Qle_bool_iff in E. lra.
Qed.

Lemma Qltb_ge (x y : Q) : Qltb x y = false <-> y <= x.
Proof.
  unfold Qltb. rewrite negb_false_iff. apply Qle_bool_iff.
Qed.

Lemma py_div_ok (x y : Q) : ~ y == 0 -> py_div x y = Ok (x / y).
Proof.
  intros Hy. unfold py_div. destruct (Qeq_bool y 0) eqn:E; [| reflexivity].
  apply Qeq_bool_eq in E. contradiction.
Qed.

Lemma py_div_zero (x y : Q) : y == 0 -> py_div x y = Raise ZeroDivisionError.
Proof.
  intros Hy. unfold py_div. apply Qeq_bool_iff in Hy. rewrite Hy. reflexivity.
Qed.

Lemma inv_score_nonneg (nd : Z * gmap string value) : 0 <= inv_score nd.
Proof.
  unfold inv_score. destruct (Qltb 0 _) eqn:E; [| lra].
  apply Qltb_lt in E. apply Qlt_le_weak, Qinv_lt_0_compat, E.
Qed.

Lemma inv_score_pos (nd : Z * gmap string value) :
  0 < the_num nd.2 "score" -> 0 < inv_score nd.
Proof.
  intros H. unfold inv_score. apply Qltb_lt in H as H'. rewrite H'.
  apply Qinv_lt_0_compat, H.
Qed.

Lemma Qsum_cons (x : Q) (l : list Q) : Qsum (x :: l) = x + Qsum l.
Proof. reflexivity. Qed.

Lemma Qsum_inv_score_nonneg (nds : list (Z * gmap string value)) :
  0 <= Qsum (inv_score <$> nds).
Proof.
  induction nds as [| nd rest IH]; [cbn; lra |].
  rewrite fmap_cons, Qsum_cons. pose proof (inv_score_nonneg nd). lra.
Qed.

Lemma Qsum_inv_score_pos (nds : list (Z * gmap string value)) :
  Exists (fun nd => 0 < the_num nd.2 "score") nds ->
  0 < Qsum (inv_score <$> nds).
Proof.
  induction 1 as [nd rest H | nd rest _ IH]; rewrite fmap_cons, Qsum_cons.
  - pose proof (inv_score_pos nd H). pose proof (Qsum_inv_score_nonneg rest). lra.
  - pose proof (inv_score_nonneg nd). lra.
Qed.

Lemma Qsum_inv_score_zero (nds : list (Z * gmap string value)) :
  Forall (fun nd => the_num nd.2 "score" <= 0) nds ->
  Qsum (inv_score <$> nds) == 0.
Proof.
  induction 1 as [| nd rest H _ IH]; [reflexivity |].
  rewrite fmap_cons, Qsum_cons, IH. unfold inv_score.
  apply Qltb_ge in H. rewrite H. lra.
Qed.

Lemma proportions_loop_step (ts : value) (v : Z) (data : gmap string value)
    (rest : list (Z * gmap string value)) (proportions : gmap Z Q)
    (total_prop s p : Q) :
  data !! "score" = Some (VNum s) ->
  (if Qltb 0 s then (let! t := num ts in py_div t s) else Ok 0) = Ok p ->
  proportions_loop ts ((v, data) :: rest) proportions total_prop
  = proportions_loop ts rest (<[v := p]> proportions) (total_prop + p).
Proof.
  intros Hs Hp. cbn [proportions_loop]. unfold getitem. rewrite Hs.
  cbn [rbind num]. rewrite Hp. reflexivity.
Qed.

Lemma proportion_solved (T s : Q) (v : Z) (data : gmap string value) :
  data !! "score" = Some (VNum s) ->
  exists p,
    (if Qltb 0 s then (let! t := num (VNum T) in py_div t s) else Ok 0) = Ok p
    /\ p == T * inv_score (v, data).
Proof.
  intros Hs. unfold inv_score, the_num. cbn [snd]. rewrite Hs.
  destruct (Qltb 0 s) eqn:E.
  - apply Qltb_lt in E. cbn [rbind num]. rewrite py_div_ok by lra.
    eexists. split; [reflexivity |]. unfold Qdiv. reflexivity.
  - eexists. split; [reflexivity |]. lra.
Qed.

(** The loop only writes the proportions of the nodes it visits. *)
Lemma proportions_loop_keeps (ts : value) (v : Z)
    (nds : list (Z * gmap string value)) :
  v ∉ nds.*1 ->
  forall (proportions0 : gmap Z Q) (total_prop0 : Q) proportions total_prop,
    proportions_loop ts nds proportions0 total_prop0 = Ok (proportions, total_prop) ->
    proportions !! v = proportions0 !! v.
Proof.
  induction nds as [| [u du] rest IH]; intros Hv m0 P0 m P Hl.
  - cbn in Hl. injection Hl as <- _. reflexivity.
  - cbn [proportions_loop] in Hl. cbn in Hv. apply not_elem_of_cons in Hv as [Hne Hv].
    destruct (let! s := getitem du "score" in num s) as [s | e]; [| discriminate].
    cbn [rbind] in Hl.
    destruct (if Qltb 0 s then _ else _) as [p | e]; [| discriminate].
    cbn [rbind] in Hl. rewrite (IH Hv _ _ _ _ Hl).
    apply lookup_insert_ne. congruence.
Qed.

(** The first loop on solved nodes: it returns, [total_prop] is the graph
    score times the sum of the weights, and every node has its proportion. *)
Lemma proportions_loop_ok (T : Q) (nds : list (Z * gmap string value)) :
  Forall node_solved nds ->
  forall (proportions0 : gmap Z Q) (total_prop0 : Q),
  exists (proportions : gmap Z Q) (total_prop : Q),
    proportions_loop (VNum T) nds proportions0 total_prop0
    = Ok (proportions, total_prop)
    /\ total_prop == total_prop0 + T * Qsum (inv_score <$> nds)
    /\ (forall v, is_Some (proportions0 !! v) -> is_Some (proportions !! v))
    /\ (forall v, v ∈ nds.*1 -> is_Some (proportions !! v))
    /\ (forall v data, NoDup nds.*1 -> (v, data) ∈ nds ->
          exists p, proportions !! v = Some p /\ p == T * inv_score (v, data)).
Proof.
  induction 1 as [| [v data] rest (s & pc & Hs & Hpc) _ IH]; intros props0 P0.
  - exists props0, P0. cbn. split; [reflexivity |]. split; [lra |].
    split; [auto |]. split; [intros v Hv; inversion Hv |].
    intros v data _ Hin. inversion Hin.
  - cbn in Hs, Hpc.
    destruct (proportion_solved T s v data Hs) as (p & Hpeq & Hp).
    rewrite (proportions_loop_step _ _ _ _ _ _ _ _ Hs Hpeq).
    destruct (IH (<[v := p]> props0) (P0 + p)) as (props & P & Hloop & HP & Hold & Hnew & Hval).
    exists props, P. split; [exact Hloop |].
    split; [rewrite HP, Hp, fmap_cons, Qsum_cons; lra |].
    split.
    { intros w Hw. apply Hold. rewrite lookup_insert. case_decide; [eauto | exact Hw]. }
    split.
    { intros w Hw. cbn in Hw. apply elem_of_cons in Hw as [-> | Hw].
      - apply Hold. rewrite lookup_insert_eq. eauto.
      - apply Hnew, Hw. }
    intros w dw Hnd Hin. cbn in Hnd. apply NoDup_cons in Hnd as [Hnotin Hnd].
    apply elem_of_cons in Hin as [Heq | Hin].
    + injection Heq as -> ->. exists p. split; [| exact Hp].
      rewrite (proportions_loop_keeps _ _ _ Hnotin _ _ _ _ Hloop).
      apply lookup_insert_eq.
    + apply Hval; assumption.
Qed.

(** Without any atom of positive score the first loop returns too, whatever
    the graph score is, and [total_prop] stays 0. *)
Lemma proportions_loop_zero (ts : value) (nds : list (Z * gmap string value)) :
  Forall (fun nd => exists s, nd.2 !! "score" = Some (VNum s) /\ s <= 0) nds ->
  forall (proportions0 : gmap Z Q) (total_prop0 : Q),
  exists (proportions : gmap Z Q) (total_prop : Q),
    proportions_loop ts nds proportions0 total_prop0 = Ok (proportions, total_prop)
    /\ total_prop == total_prop0
    /\ (forall v, is_Some (proportions0 !! v) -> is_Some (proportions !! v))
    /\ (forall v, v ∈ nds.*1 -> is_Some (proportions !! v)).
Proof.
  induction 1 as [| [v data] rest (s & Hs & Hle) _ IH]; intros props0 P0.
  - exists props0, P0. cbn. split; [reflexivity |]. split; [lra |].
    split; [auto |]. intros v Hv; inversion Hv.
  - cbn in Hs.
    assert (Hp : (if Qltb 0 s then (let! t := num ts in py_div t s) else Ok 0) = Ok 0).
    { apply Qltb_ge in Hle. rewrite Hle. reflexivity. }
    rewrite (proportions_loop_step _ _ _ _ _ _ _ _ Hs Hp).
    destruct (IH (<[v := 0]> props0) (P0 + 0)) as (props & P & Hloop & HP & Hold & Hnew).
    exists props, P. split; [exact Hloop |]. split; [rewrite HP; lra |].
    split.
    { intros w Hw. apply Hold. rewrite lookup_insert. case_decide; [eauto | exact Hw]. }
    intros w Hw. cbn in Hw. apply elem_of_cons in Hw as [-> | Hw].
    + apply Hold. rewrite lookup_insert_eq. eauto.
    + apply Hnew, Hw.
Qed.

(** ** Redistribution without confidence *)

Lemma redist_loop_zero_division (self : Charger) (proportions : gmap Z Q)
    (total_error total_prop : Q) (i : nat) (v : Z) (data : gmap string value)
    (rest : list (Z * gmap string value)) (acc : redist_acc) :
  is_Some (proportions !! v) -> total_prop == 0 ->
  redist_loop self proportions total_error total_prop i ((v, data) :: rest) acc
  = ((v, data) :: rest, Raise ZeroDivisionError).
Proof.
  intros [p Hp] HP. cbn [redist_loop]. unfold redist_node, delta.
  rewrite Hp. cbn [rbind]. rewrite (py_div_zero _ _ HP). reflexivity.
Qed.

Lemma redistribution_zero_scores (self : Charger) (g : Graph)
    (total_charge : Z) :
  (exists (ts : value) (c : Q),
      graph g !! "score" = Some ts /\ graph g !! "total_charge" = Some (VNum c)) ->
  nodes g ≠ [] ->
  Forall (fun nd => exists s, nd.2 !! "score" = Some (VNum s) /\ s == 0) (nodes g) ->
  add_redistributed_charges self g total_charge = (g, Raise ZeroDivisionError).
Proof.
  intros (ts & c & Hts & Hc) Hne Hzero.
  assert (Hz : Forall (fun nd => exists s, nd.2 !! "score" = Some (VNum s) /\ s <= 0)
                 (nodes g)).
  { eapply Forall_impl; [exact Hzero |]. intros nd (s & Hs & H0). exists s.
    split; [exact Hs | lra]. }
  destruct (proportions_loop_zero ts (nodes g) Hz ∅ 0)
    as (props & P & Hloop & HP & _ & Hdom).
  unfold add_redistributed_charges, redist_setup, getitem.
  rewrite Hts, Hc. cbn [rbind num]. rewrite Hloop. cbn [rbind fst snd].
  destruct g as [ga nds es]. cbn [nodes graph edges] in *.
  destruct nds as [| [v data] rest]; [contradiction |].
  rewrite redist_loop_zero_division; [reflexivity | | lra].
  apply Hdom. cbn. apply elem_of_cons. left. reflexivity.
Qed.

(** C3, as the code has it.  On a graph [g1] with at least one atom whose
    atoms all have score 0, the redistribution step has no guard of its own:
    the division by [total_prop = 0] raises Python's [ZeroDivisionError] at
    the first atom of the second loop, before anything is written to the
    graph.  [charge] has no handler either: when the shells are accepted, the
    collector returns candidates and the solver leaves such a graph, the
    [ZeroDivisionError] is the outcome of [charge]. *)
Theorem C3_zero_scores_raise_zero_division (MAX_BINS : Z)
    (util_iacmize : Graph -> Graph)
    (solve_partial_charges :
       Solver -> Graph -> Values -> Z -> gmap string Z -> Graph * result unit)
    (fuel : nat) (self : Charger) (g : Graph) (total_charge : Z)
    (iacmize iacm_data_only : bool) (shell : shell_arg) (kwargs : gmap string Z)
    (shells : list Z) (values : Values) (g1 : Graph) :
  (exists (ts : value) (c : Q),
      graph g1 !! "score" = Some ts /\ graph g1 !! "total_charge" = Some (VNum c)) ->
  nodes g1 ≠ [] ->
  Forall (fun nd => exists s, nd.2 !! "score" = Some (VNum s) /\ s == 0) (nodes g1) ->
  add_redistributed_charges self g1 total_charge = (g1, Raise ZeroDivisionError)
  /\ (charge_shells self shell = Ok shells ->
      collect_values MAX_BINS fuel (_collector self)
        (if iacmize then util_iacmize g else g) (iacm_data_only || iacmize)
        shells kwargs = Some (Ok values) ->
      solve_partial_charges (_solver self)
        (if iacmize then util_iacmize g else g) values total_charge kwargs
      = (g1, Ok tt) ->
      charge MAX_BINS util_iacmize solve_partial_charges fuel self g
        total_charge iacmize iacm_data_only shell kwargs
      = Some (g1, Raise ZeroDivisionError)).
Proof.
  intros Hattrs Hne Hzero.
  pose proof (redistribution_zero_scores self g1 total_charge Hattrs Hne Hzero)
    as Hrun.
  split; [exact Hrun |].
  intros Hshells Hcollect Hsolve. unfold charge.
  rewrite Hshells, Hcollect, Hsolve, Hrun. reflexivity.
Qed.

Lemma C3_zero_scores_witness :
  exists g1 : Graph,
    nodes g1 ≠ []
    /\ add_redistributed_charges ref_charger g1 0 = (g1, Raise ZeroDivisionError)
    /\ charge 25 (fun g => g) no_confidence_solver 0 ref_charger ref_graph 0
         false false ShellNone ∅
       = Some (g1, Raise ZeroDivisionError).
Proof.
  assert (Hc : exists values : Values,
             collect_values 25 0 (_collector ref_charger) ref_graph
               (false || false) [2%Z; 1%Z; 0%Z] ∅ = Some (Ok values))
    by (eexists; vm_compute; reflexivity).
  destruct Hc as [values Hc].
  pose (g1 := (no_confidence_solver (_solver ref_charger) ref_graph values 0 ∅).1).
  assert (Hne : nodes g1 ≠ []) by discriminate.
  destruct (C3_zero_scores_raise_zero_division 25 (fun g => g)
              no_confidence_solver 0 ref_charger ref_graph 0 false false
              ShellNone ∅ [2%Z; 1%Z; 0%Z] values g1) as [Hrun Hcharge].
  - eexists _, _. split; reflexivity.
  - exact Hne.
  - repeat constructor; exists 0; split; reflexivity.
  - exists g1. split; [exact Hne |]. split; [exact Hrun |].
    apply Hcharge; [reflexivity | exact Hc | reflexivity].
Defined.

(** C3, as claimed: a failure of its own kind instead of the arithmetic
    fault.  On the reference molecule without confidence the call ends in
    [ZeroDivisionError] and in nothing else. *)
Lemma C3_counterexample :
  ~ (exists e : exn,
        (add_redistributed_charges ref_charger methane_zero_scores 0).2 = Raise e
        /\ e ≠ ZeroDivisionError).
Proof.
  intros (e & He & Hne). vm_compute in He. congruence.
Qed.

(** ** The second loop *)

Lemma delta_ok (self : Charger) (proportions : gmap Z Q)
    (total_error total_prop : Q) (v : Z) :
  is_Some (proportions !! v) -> ~ total_prop == 0 ->
  delta self proportions total_error total_prop v
  = Ok (node_delta self proportions total_error total_prop v).
Proof.
  intros [p Hp] HP. unfold delta, node_delta. rewrite Hp. cbn [rbind default].
  rewrite py_div_ok by exact HP. reflexivity.
Qed.

Lemma redist_node_ok (self : Charger) (proportions : gmap Z Q)
    (total_error total_prop : Q) (i : nat) (v : Z) (data : gmap string value)
    (acc : redist_acc) :
  node_solved (v, data) -> is_Some (proportions !! v) -> ~ total_prop == 0 ->
  let nd' := redist_written self proportions total_error total_prop (v, data) in
  let total := total_charge_redist acc
               + node_redist self proportions total_error total_prop (v, data) in
  redist_node self proportions total_error total_prop i v data acc
  = (nd'.2,
     Ok (if score_lt (score_of (v, data)) (min_score acc)
         then {| total_charge_redist := total;
                 min_score := Some (score_of (v, data));
                 min_atom_data := Some i |}
         else {| total_charge_redist := total; min_score := min_score acc;
                 min_atom_data := min_atom_data acc |})).
Proof.
  intros (s & pc & Hs & Hpc) Hp HP. cbn [fst snd] in *. cbn zeta.
  unfold redist_node. rewrite (delta_ok _ _ _ _ _ Hp HP). cbn [rbind].
  unfold getitem at 1. rewrite Hpc. cbn [rbind num].
  unfold getitem. rewrite lookup_insert_ne by discriminate. rewrite Hs.
  cbn [rbind num]. unfold redist_written, node_redist, score_of, the_num.
  cbn [fst snd]. rewrite Hs, Hpc.
  destruct (score_lt s (min_score acc)); reflexivity.
Qed.

Lemma redist_loop_ok (self : Charger) (proportions : gmap Z Q)
    (total_error total_prop : Q) (nds : list (Z * gmap string value)) :
  Forall node_solved nds ->
  (forall v, v ∈ nds.*1 -> is_Some (proportions !! v)) ->
  ~ total_prop == 0 ->
  forall (i : nat) (acc0 : redist_acc),
  exists acc : redist_acc,
    redist_loop self proportions total_error total_prop i nds acc0
    = (redist_written self proportions total_error total_prop <$> nds, Ok acc)
    /\ total_charge_redist acc
       == total_charge_redist acc0
          + Qsum (node_redist self proportions total_error total_prop <$> nds)
    /\ (min_score acc, min_atom_data acc)
       = scan_min i (score_of <$> nds) (min_score acc0) (min_atom_data acc0).
Proof.
  intros Hsolved. induction Hsolved as [| [v data] rest Hnd _ IH];
    intros Hdom HP i acc0.
  - exists acc0. cbn. split; [reflexivity |]. split; [lra | reflexivity].
  - cbn [redist_loop].
    rewrite redist_node_ok; [| exact Hnd | apply Hdom; cbn; apply elem_of_cons; left; reflexivity | exact HP].
    cbn zeta.
    match goal with
    | |- context [redist_loop _ _ _ _ _ _ ?a] => set (acc1 := a)
    end.
    assert (Hdom' : forall w, w ∈ rest.*1 -> is_Some (proportions !! w)).
    { intros w Hw. apply Hdom. cbn. apply elem_of_cons. right. exact Hw. }
    destruct (IH Hdom' HP (S i) acc1) as (acc & Hloop & Htotal & Hmin).
    exists acc. rewrite Hloop. split; [reflexivity |].
    split.
    + rewrite Htotal, fmap_cons, Qsum_cons. subst acc1.
      destruct (score_lt _ _); cbn [total_charge_redist]; lra.
    + rewrite Hmin, fmap_cons. cbn [scan_min]. subst acc1.
      destruct (score_lt _ _); reflexivity.
Qed.

(** ** The atom of minimum score *)

Lemma scan_min_state (rest : list Q) :
  forall (pre : list Q) (m : option Q) (j : option nat),
    min_state pre m j ->
    min_state (pre ++ rest)
      (scan_min (length pre) rest m j).1 (scan_min (length pre) rest m j).2.
Proof.
  induction rest as [| s rest IH]; intros pre m j Hst.
  - cbn. rewrite app_nil_r. exact Hst.
  - cbn [scan_min].
    replace (pre ++ s :: rest) with ((pre ++ [s]) ++ rest)
      by (rewrite <- app_assoc; reflexivity).
    replace (S (length pre)) with (length (pre ++ [s]))
      by (rewrite length_app; cbn; lia).
    destruct (score_lt s m) eqn:Hlt; apply IH.
    + (* a new minimum *)
      cbn. split; [apply list_lookup_middle; reflexivity |].
      assert (Hpre : forall k s', pre !! k = Some s' -> s < s').
      { intros k s' Hk. destruct m as [mv |], j as [jv |]; cbn in Hst; try contradiction.
        - destruct Hst as (_ & Hmin & _). cbn in Hlt. apply Qltb_lt in Hlt.
          specialize (Hmin k s' Hk). lra.
        - subst pre. rewrite lookup_nil in Hk. discriminate. }
      split.
      * intros k s' Hk. apply lookup_app_Some in Hk as [Hk | [_ Hk]].
        -- apply Qlt_le_weak. eauto.
        -- destruct (k - length pre)%nat as [| n]; [| destruct n; discriminate Hk].
           cbn in Hk. injection Hk as <-. lra.
      * intros k s' Hklt Hk. rewrite lookup_app_l in Hk by exact Hklt. eauto.
    + (* the minimum stays *)
      destruct m as [mv |]; [| discriminate]. cbn in Hlt. apply Qltb_ge in Hlt.
      destruct j as [jv |]; cbn in Hst; [| contradiction].
      destruct Hst as (Hj & Hmin & Hfirst). cbn.
      split; [apply lookup_app_l_Some, Hj |]. split.
      * intros k s' Hk. apply lookup_app_Some in Hk as [Hk | [_ Hk]]; [eauto |].
        destruct (k - length pre)%nat as [| n]; [| destruct n; discriminate Hk].
        cbn in Hk. injection Hk as <-. exact Hlt.
      * intros k s' Hklt Hk. apply lookup_lt_Some in Hj.
        rewrite lookup_app_l in Hk by lia. eauto.
Qed.

Lemma scan_min_first_min (scores : list Q) :
  scores ≠ [] ->
  exists (m : Q) (j : nat),
    scan_min 0 scores None None = (Some m, Some j) /\ first_min scores j.
Proof.
  intros Hne. pose proof (scan_min_state scores [] None None eq_refl) as H.
  cbn [length app] in H.
  destruct (scan_min 0 scores None None) as [[m |] [j |]]; cbn in H;
    try contradiction.
  exists m, j. split; [reflexivity |]. exists m. exact H.
Qed.

(** ** Exactness of the redistribution *)

Lemma the_num_insert (d : gmap string value) (k : string) (x : Q) :
  the_num (<[k := VNum x]> d) k = x.
Proof. unfold the_num. rewrite lookup_insert_eq. reflexivity. Qed.

Lemma redist_sum_written (self : Charger) (proportions : gmap Z Q)
    (total_error total_prop : Q) (nds : list (Z * gmap string value)) :
  redist_sum (redist_written self proportions total_error total_prop <$> nds)
  = Qsum (node_redist self proportions total_error total_prop <$> nds).
Proof.
  unfold redist_sum. induction nds as [| nd rest IH]; [reflexivity |].
  rewrite !fmap_cons, !Qsum_cons, IH. unfold redist_written at 1. cbn [snd].
  rewrite the_num_insert. reflexivity.
Qed.

Lemma Qsum_insert (l : list Q) :
  forall (j : nat) (x y : Q),
    l !! j = Some x -> Qsum (<[j := y]> l) == Qsum l - x + y.
Proof.
  induction l as [| a l IH]; intros j x y Hj; [discriminate |].
  destruct j as [| j]; cbn in Hj.
  - injection Hj as <-. cbn [insert list_insert]. rewrite !Qsum_cons. lra.
  - change (<[S j := y]> (a :: l)) with (a :: <[j := y]> l).
    rewrite !Qsum_cons, (IH j x y Hj). lra.
Qed.

Lemma on_grid_Qsum (d : Z) (l : list Q) :
  Forall (on_grid d) l -> on_grid d (Qsum l).
Proof.
  induction 1 as [| x l Hx _ IH]; [apply on_grid_0 |].
  rewrite Qsum_cons. apply on_grid_plus; assumption.
Qed.

Lemma node_redist_on_grid (self : Charger) (proportions : gmap Z Q)
    (total_error total_prop : Q) (nds : list (Z * gmap string value)) :
  Forall (on_grid (_rounding_digits self))
    (node_redist self proportions total_error total_prop <$> nds).
Proof.
  apply Forall_fmap, Forall_true. intros nd. apply py_round_on_grid.
Qed.

(** Lines 119-123 after a second loop that visited every node. *)
Lemma redist_remainder_ok (self : Charger) (ga : gmap string value)
    (nds : list (Z * gmap string value)) (es : list (Z * Z))
    (total_charge : Z) (acc : redist_acc) (j : nat) (v : Z)
    (data : gmap string value) (r : Q) :
  min_atom_data acc = Some j ->
  nds !! j = Some (v, <["partial_charge_redist" := VNum r]> data) ->
  redist_remainder self {| graph := ga; nodes := nds; edges := es |}
    total_charge acc
  = ({| graph := <["total_charge_redist" :=
                     VNum (py_round (total_charge_redist acc
                                     + (inject_Z total_charge
                                        - total_charge_redist acc))
                             (_rounding_digits self))]> ga;
        nodes := <[j := (v, <["partial_charge_redist" :=
                                VNum (py_round (r + inject_Z total_charge
                                                - total_charge_redist acc)
                                        (_rounding_digits self))]>
                              (<["partial_charge_redist" := VNum r]> data))]> nds;
        edges := es |}, Ok tt).
Proof.
  intros Hmin Hj. unfold redist_remainder. rewrite Hmin. cbn [nodes graph edges].
  rewrite Hj.
  destruct (Nat.eqb_spec (size (<["partial_charge_redist" := VNum r]> data)) 0)
    as [Hsize | _].
  { apply map_size_empty_iff in Hsize. apply insert_non_empty in Hsize. contradiction. }
  unfold getitem. rewrite lookup_insert_eq. cbn [rbind num]. reflexivity.
Qed.

(** Where the redistribution step returns.  Take a graph as the solver leaves
    it (numeric [score] and [total_charge] on the graph, numeric [score] and
    [partial_charge] on every atom), a charger that rounds to a non-negative
    number of decimals and an integer target.  If some atom has a positive
    score and the graph score is not 0, the redistribution step returns, every
    atom has a [partial_charge_redist], their sum is the target exactly, and
    so is the recorded [total_charge_redist].  Every atom but one holds its
    own rounded adjusted charge; the first atom of minimum score holds, in
    addition, the rounding residual. *)
Theorem redistribution_exact (self : Charger) (g : Graph) (total_charge : Z)
    (T c : Q) :
  (0 <= _rounding_digits self)%Z ->
  graph g !! "score" = Some (VNum T) ->
  graph g !! "total_charge" = Some (VNum c) ->
  Forall node_solved (nodes g) ->
  Exists (fun nd => 0 < score_of nd) (nodes g) ->
  ~ T == 0 ->
  exists (g' : Graph) (j : nat) (total_error total_prop : Q)
         (proportions : gmap Z Q),
    add_redistributed_charges self g total_charge = (g', Ok tt)
    /\ Forall (fun nd => exists r, nd.2 !! "partial_charge_redist" = Some (VNum r))
         (nodes g')
    /\ redist_sum (nodes g') == inject_Z total_charge
    /\ (exists t, graph g' !! "total_charge_redist" = Some (VNum t)
                  /\ t == inject_Z total_charge)
    /\ redist_setup g total_charge = Ok (total_error, proportions, total_prop)
    /\ first_min (score_of <$> nodes g) j
    /\ (forall k, k ≠ j ->
          nodes g' !! k
          = redist_written self proportions total_error total_prop
              <$> nodes g !! k)
    /\ (exists nd r,
          nodes g !! j = Some nd
          /\ nodes g' !! j
             = Some (nd.1, <["partial_charge_redist" := VNum r]>
                             (redist_written self proportions total_error
                                total_prop nd).2)
          /\ r == node_redist self proportions total_error total_prop nd
                  + (inject_Z total_charge
                     - Qsum (node_redist self proportions total_error total_prop
                               <$> nodes g))).
Proof.
  intros Hd HT Hc Hsolved Hpos HT0.
  destruct (proportions_loop_ok T (nodes g) Hsolved ∅ 0)
    as (props & P & Hloop & HP & _ & Hdom & _).
  assert (HP0 : ~ P == 0).
  { pose proof (Qsum_inv_score_pos (nodes g) Hpos) as HW. rewrite HP.
    intros H0. assert (H1 : T * Qsum (inv_score <$> nodes g) == 0) by lra.
    apply Qmult_integral in H1 as [H1 | H1]; [contradiction | lra]. }
  set (E := inject_Z total_charge - c).
  assert (Hsetup : redist_setup g total_charge = Ok (E, props, P)).
  { unfold redist_setup, getitem. rewrite HT, Hc. cbn [rbind num].
    rewrite Hloop. reflexivity. }
  destruct (redist_loop_ok self props E P (nodes g) Hsolved Hdom HP0 0
              {| total_charge_redist := 0; min_score := None; min_atom_data := None |})
    as (acc & Hloop2 & Htotal & Hmin).
  cbn [total_charge_redist min_score min_atom_data] in Htotal, Hmin.
  assert (Hne : score_of <$> nodes g ≠ []).
  { destruct (nodes g); [inversion Hpos | discriminate]. }
  destruct (scan_min_first_min _ Hne) as (m & j & Hscan & Hfirst).
  rewrite Hscan in Hmin. injection Hmin as _ Hminj.
  destruct Hfirst as (m' & Hjm & Hfirst).
  rewrite list_lookup_fmap in Hjm.
  destruct (nodes g !! j) as [nd |] eqn:Hj; [| discriminate Hjm].
  set (W := redist_written self props E P) in *.
  set (R := node_redist self props E P) in *.
  assert (HjW : (W <$> nodes g) !! j
                = Some (nd.1, <["partial_charge_redist" := VNum (R nd)]> nd.2)).
  { rewrite list_lookup_fmap, Hj. reflexivity. }
  set (S := Qsum (R <$> nodes g)) in *.
  assert (HS : on_grid (_rounding_digits self) S) by apply on_grid_Qsum, node_redist_on_grid.
  assert (Htot : on_grid (_rounding_digits self) (total_charge_redist acc)).
  { rewrite Htotal. apply on_grid_plus; [apply on_grid_0 | exact HS]. }
  assert (Hr : py_round (R nd + inject_Z total_charge - total_charge_redist acc)
                 (_rounding_digits self)
               == R nd + (inject_Z total_charge - S)).
  { rewrite py_round_id.
    - rewrite Htotal. lra.
    - apply on_grid_minus; [apply on_grid_plus |]; try assumption.
      + apply py_round_on_grid.
      + apply on_grid_Z, Hd. }
  eexists _, j, E, P, props.
  split.
  { unfold add_redistributed_charges. rewrite Hsetup, Hloop2.
    apply (redist_remainder_ok self (graph g) (W <$> nodes g) (edges g)
             total_charge acc j nd.1 nd.2 (R nd) Hminj HjW). }
  cbn [nodes graph].
  split.
  { apply Forall_lookup. intros k nd' Hk.
    destruct (decide (j = k)) as [<- | Hjk].
    - rewrite list_lookup_insert_eq in Hk
        by (rewrite length_fmap; eapply lookup_lt_Some, Hj).
      injection Hk as <-. cbn [snd]. rewrite lookup_insert_eq. eauto.
    - rewrite list_lookup_insert_ne in Hk by exact Hjk.
      rewrite list_lookup_fmap in Hk.
      destruct (nodes g !! k) as [ndk |]; [| discriminate Hk].
      injection Hk as <-. cbn [snd W redist_written]. subst W.
      unfold redist_written. cbn [snd]. rewrite lookup_insert_eq. eauto. }
  split.
  { unfold redist_sum. rewrite list_fmap_insert. cbn [snd].
    rewrite the_num_insert.
    rewrite (Qsum_insert _ j (R nd)).
    - fold (redist_sum (W <$> nodes g)). subst W.
      rewrite redist_sum_written. fold R. fold S. rewrite Hr. lra.
    - rewrite list_lookup_fmap, HjW. cbn. rewrite the_num_insert. reflexivity. }
  split.
  { eexists. split; [apply lookup_insert_eq |].
    rewrite py_round_id.
    - lra.
    - assert (Heq : total_charge_redist acc
                    + (inject_Z total_charge - total_charge_redist acc)
                    == inject_Z total_charge) by lra.
      rewrite Heq. apply on_grid_Z, Hd. }
  split; [exact Hsetup |].
  split.
  { exists m'. split; [rewrite list_lookup_fmap, Hj; exact Hjm | exact Hfirst]. }
  split.
  { intros k Hk. rewrite list_lookup_insert_ne by congruence.
    apply list_lookup_fmap. }
  exists nd, (py_round (R nd + inject_Z total_charge - total_charge_redist acc)
                (_rounding_digits self)).
  split; [exact Hj |]. split; [| exact Hr].
  rewrite list_lookup_insert_eq by (rewrite length_fmap; eapply lookup_lt_Some, Hj).
  reflexivity.
Qed.

Lemma redistribution_exact_witness :
  exists g' : Graph,
    add_redistributed_charges ref_charger methane_solved 0 = (g', Ok tt)
    /\ redist_sum (nodes g') == inject_Z 0.
Proof.
  destruct (redistribution_exact ref_charger methane_solved 0 5 (-(8 # 1000)))
    as (g' & j & E & P & props & Hrun & _ & Hsum & _).
  - vm_compute. discriminate.
  - reflexivity.
  - reflexivity.
  - repeat constructor; eexists _, _; split; reflexivity.
  - apply Exists_cons_hd. reflexivity.
  - vm_compute. discriminate.
  - exists g'. split; assumption.
Defined.

(** C1.  The claim and the docstring of [__add_redistributed_charges] promise
    charges that sum to the target for every graph with an atom of positive
    score.  On methane with one hydrogen of score 0 and the graph score taken
    as the product of the atom scores, the graph has five atoms, four of them
    of positive score, and the step ends in [ZeroDivisionError] with the graph
    as it was: no [partial_charge_redist] is written, so nothing sums to the
    target. *)
Theorem C1_product_score_raises :
  nodes methane_product_score ≠ []
  /\ Exists (fun nd => 0 < score_of nd) (nodes methane_product_score)
  /\ the_num (graph methane_product_score) "score"
     == Qprod (score_of <$> nodes methane_product_score)
  /\ add_redistributed_charges ref_charger methane_product_score 0
     = (methane_product_score, Raise ZeroDivisionError)
  /\ Forall (fun nd => nd.2 !! "partial_charge_redist" = None)
       (nodes methane_product_score).
Proof.
  split; [discriminate |]. split; [apply Exists_cons_hd; reflexivity |].
  split; [reflexivity |]. split; [vm_compute; reflexivity |].
  repeat constructor.
Qed.

Lemma init_rounding_digits_nonneg (MAX_ROUNDING_DIGITS rounding_digits : Z) :
  (0 <= MAX_ROUNDING_DIGITS)%Z ->
  (0 <= init_rounding_digits MAX_ROUNDING_DIGITS rounding_digits)%Z.
Proof. unfold init_rounding_digits. lia. Qed.

(** ** Lower confidence, larger adjustment *)

Lemma py_round_abs_le (x y : Q) (d : Z) :
  (0 <= y /\ y <= x) \/ (x <= y /\ y <= 0) ->
  Qabs (py_round y d) <= Qabs (py_round x d).
Proof.
  pose proof (py_round_0 d) as H0.
  intros [[Hy Hyx] | [Hxy Hy]].
  - pose proof (py_round_mono _ _ d Hy). pose proof (py_round_mono _ _ d Hyx).
    rewrite !Qabs_pos; lra.
  - pose proof (py_round_mono _ _ d Hy). pose proof (py_round_mono _ _ d Hxy).
    rewrite !Qabs_neg; lra.
Qed.

Lemma inv_score_of_pos (v : Z) (data : gmap string value) (s : Q) :
  data !! "score" = Some (VNum s) -> 0 < s -> inv_score (v, data) = / s.
Proof.
  intros Hs Hpos. unfold inv_score, the_num. cbn [snd]. rewrite Hs.
  apply Qltb_lt in Hpos. rewrite Hpos. reflexivity.
Qed.

(** C9, as the code has it.  In a graph as the solver leaves it, with a
    graph score different from 0, take two atoms A and B of equal raw
    [partial_charge] with [0 < score A < score B].  Both get a [delta], and
    the magnitude of A's is at least that of B's. *)
Theorem C9_lower_score_larger_delta (self : Charger) (g : Graph)
    (total_charge : Z) (T c : Q) (a b : Z) (da db : gmap string value)
    (sa sb : Q) :
  graph g !! "score" = Some (VNum T) ->
  graph g !! "total_charge" = Some (VNum c) ->
  Forall node_solved (nodes g) ->
  NoDup (nodes g).*1 ->
  ~ T == 0 ->
  (a, da) ∈ nodes g -> (b, db) ∈ nodes g ->
  da !! "partial_charge" = db !! "partial_charge" ->
  da !! "score" = Some (VNum sa) -> db !! "score" = Some (VNum sb) ->
  0 < sa -> sa < sb ->
  exists dA dB : Q,
    delta_of self g total_charge a = Ok dA
    /\ delta_of self g total_charge b = Ok dB
    /\ Qabs dB <= Qabs dA.
Proof.
  intros HT Hc Hsolved Hnodup HT0 Ha Hb _ Hsa Hsb Hpa Hab.
  destruct (proportions_loop_ok T (nodes g) Hsolved ∅ 0)
    as (props & P & Hloop & HP & _ & _ & Hval).
  destruct (Hval a da Hnodup Ha) as (pA & HpA & HpAeq).
  destruct (Hval b db Hnodup Hb) as (pB & HpB & HpBeq).
  rewrite (inv_score_of_pos a da sa Hsa Hpa) in HpAeq.
  rewrite (inv_score_of_pos b db sb Hsb) in HpBeq by lra.
  set (W := Qsum (inv_score <$> nodes g)) in *.
  assert (HW : 0 < W).
  { apply Qsum_inv_score_pos. apply Exists_exists. exists (a, da).
    split; [exact Ha |]. unfold the_num. cbn [snd]. rewrite Hsa. exact Hpa. }
  assert (HP0 : ~ P == 0).
  { rewrite HP. intros H0. assert (H1 : T * W == 0) by lra.
    apply Qmult_integral in H1 as [H1 | H1]; [contradiction | lra]. }
  set (E := inject_Z total_charge - c).
  assert (Hsetup : redist_setup g total_charge = Ok (E, props, P)).
  { unfold redist_setup, getitem. rewrite HT, Hc. cbn [rbind num].
    rewrite Hloop. reflexivity. }
  unfold delta_of. rewrite Hsetup.
  rewrite !delta_ok by (eauto || exact HP0).
  eexists _, _. split; [reflexivity |]. split; [reflexivity |].
  unfold node_delta. rewrite HpA, HpB. cbn [default].
  assert (HxA : pA * E / P == E / W * / sa).
  { rewrite HpAeq, HP. field. repeat split; lra. }
  assert (HxB : pB * E / P == E / W * / sb).
  { rewrite HpBeq, HP. field. repeat split; lra. }
  rewrite HxA, HxB.
  assert (Hinv : 0 < / sb /\ / sb <= / sa).
  { split; [apply Qinv_lt_0_compat; lra |].
    apply Qlt_le_weak. apply (Qinv_lt_contravar sa sb); [exact Hpa | lra | exact Hab]. }
  destruct Hinv as [Hisb Hle].
  apply py_round_abs_le.
  clear HxA HxB. revert Hisb Hle.
  generalize (E / W) as y, (/ sa) as isa, (/ sb) as isb.
  intros y isa isb Hisb Hle.
  destruct (Qlt_le_dec y 0) as [Hneg | Hnn]; [right | left]; split; nra.
Qed.

Lemma C9_lower_score_larger_delta_witness :
  exists dA dB : Q,
    delta_of ref_charger methane_graded_scores 0 2 = Ok dA
    /\ delta_of ref_charger methane_graded_scores 0 3 = Ok dB
    /\ Qabs dB <= Qabs dA.
Proof.
  eapply (C9_lower_score_larger_delta ref_charger methane_graded_scores 0
            11 (-(8 # 1000)) 2 3 _ _ 1 2).
  - reflexivity.
  - reflexivity.
  - repeat constructor; eexists _, _; split; reflexivity.
  - apply (bool_decide_unpack _). vm_compute. exact I.
  - vm_compute. discriminate.
  - apply list_elem_of_lookup. exists 1%nat. reflexivity.
  - apply list_elem_of_lookup. exists 2%nat. reflexivity.
  - reflexivity.
  - reflexivity.
  - reflexivity.
  - reflexivity.
  - reflexivity.
Defined.

(** C9, as claimed: any lower score.  An atom of score 0 has proportion 0 and
    is not adjusted at all, while an atom of equal raw charge and positive
    score is: the first hydrogen of the molecule gets [delta = 0], the second
    one [delta = 0.002]. *)
Lemma C9_counterexample :
  exists (da db : gmap string value) (dA dB : Q),
    nodes methane_unsure_hydrogen !! 1%nat = Some (2%Z, da)
    /\ nodes methane_unsure_hydrogen !! 2%nat = Some (3%Z, db)
    /\ da !! "partial_charge" = db !! "partial_charge"
    /\ score_of (2%Z, da) < score_of (3%Z, db)
    /\ delta_of ref_charger methane_unsure_hydrogen 0 2 = Ok dA
    /\ delta_of ref_charger methane_unsure_hydrogen 0 3 = Ok dB
    /\ ~ Qabs dB <= Qabs dA.
Proof.
  eexists _, _, _, _.
  split; [reflexivity |]. split; [reflexivity |]. split; [reflexivity |].
  split; [reflexivity |].
  split; [vm_compute; reflexivity |]. split; [vm_compute; reflexivity |].
  vm_compute. intros H. apply H. reflexivity.
Qed.

(** ** The rounding of the bin centers *)

Lemma round_to_ignores_up (x grain : Q) :
  round_to x grain true = round_to x grain false.
Proof. reflexivity. Qed.

(** [round_to] goes to the nearest multiple of [grain]; a value half-way
    between two multiples goes to the lower one, whatever [up] is. *)
Lemma round_to_nearest_ties_down (x grain : Q) (up : bool) :
  0 < grain ->
  x - (1 # 2) * grain <= round_to x grain up
  /\ round_to x grain up < x + (1 # 2) * grain.
Proof.
  intros Hg. unfold round_to.
  pose proof (Qle_ceiling (x / grain - (1 # 2))) as Hle.
  pose proof (Qceiling_lt (x / grain - (1 # 2))) as Hlt.
  unfold Z.sub in Hlt. rewrite inject_Z_plus, inject_Z_opp in Hlt.
  set (c := inject_Z (Qceiling (x / grain - (1 # 2)))) in *.
  assert (Hx : x == x / grain * grain) by (field; lra).
  split.
  - assert (H : (x / grain - (1 # 2)) * grain <= c * grain)
      by (apply Qmult_le_compat_r; lra).
    lra.
  - change (inject_Z 1) with 1 in Hlt.
    assert (H : (c + - 1) * grain < (x / grain - (1 # 2)) * grain)
      by (apply Qmult_lt_compat_r; lra).
    lra.
Qed.

(** C4.  The claim: [max(values)] goes to the nearest multiple of [step] with
    ties going up, [min(values)] with ties going down.  [round_to] receives
    [up = True] for the maximum and never reads it: both go down on a tie.
    With the single charge 0.5, no decimals and one bin, [step] is 1 and the
    maximum 0.5 lies half-way between 0 and 1; its center is 0, and the
    histogram is the bin 0 with count 1. *)
Theorem C4_max_center_tie_rounds_down :
  round_to (1 # 2) 1 true == 0
  /\ round_to (1 # 2) 1 false == 0
  /\ exists c : Q,
       calculate_histogram 1 0 [1 # 2] 1 = Some (Ok ([c], [1%Z])) /\ c == 0.
Proof.
  split; [reflexivity |]. split; [reflexivity |].
  eexists. split; [vm_compute; reflexivity | reflexivity].
Qed.

(** ** Histogram binning: the building blocks *)

Lemma fold_min_le (r : list Q) :
  forall x, fold_left (fun m y => if Qltb y m then y else m) r x <= x.
Proof.
  induction r as [| y r IH]; intros x; cbn [fold_left]; [lra |].
  destruct (Qltb y x) eqn:E.
  - apply Qltb_lt in E. specialize (IH y). lra.
  - apply IH.
Qed.

Lemma fold_max_ge (r : list Q) :
  forall x, x <= fold_left (fun m y => if Qltb m y then y else m) r x.
Proof.
  induction r as [| y r IH]; intros x; cbn [fold_left]; [lra |].
  destruct (Qltb x y) eqn:E.
  - apply Qltb_lt in E. specialize (IH y). lra.
  - apply IH.
Qed.

Lemma py_min_max (charges : list Q) :
  charges ≠ [] ->
  exists mn mx, py_min charges = Ok mn /\ py_max charges = Ok mx /\ mn <= mx.
Proof.
  destruct charges as [| x r]; [contradiction |]. intros _.
  eexists _, _. split; [reflexivity |]. split; [reflexivity |].
  pose proof (fold_min_le r x). pose proof (fold_max_ge r x). lra.
Qed.

Lemma Qceiling_unique (q : Q) (z : Z) :
  inject_Z z - 1 < q -> q <= inject_Z z -> Qceiling q = z.
Proof.
  intros Hlo Hhi.
  pose proof (Qle_ceiling q) as Hle. pose proof (Qceiling_lt q) as Hlt.
  unfold Z.sub in Hlt. rewrite inject_Z_plus, inject_Z_opp in Hlt.
  change (inject_Z 1) with 1 in Hlt.
  assert (H1 : (Qceiling q < z + 1)%Z).
  { rewrite Zlt_Qlt, inject_Z_plus. change (inject_Z 1) with 1. lra. }
  assert (H2 : (z < Qceiling q + 1)%Z).
  { rewrite Zlt_Qlt, inject_Z_plus. change (inject_Z 1) with 1. lra. }
  lia.
Qed.

Lemma Qceiling_plus_half (q : Q) (z : Z) :
  q == inject_Z z + (1 # 2) -> Qceiling q = (z + 1)%Z.
Proof.
  intros Hq. apply Qceiling_unique; rewrite inject_Z_plus;
    change (inject_Z 1) with 1; lra.
Qed.

Lemma np_arange_length (start stop step : Q) :
  length (np_arange start stop step)
  = Z.to_nat (Qceiling ((stop - start) / step)).
Proof. unfold np_arange. rewrite length_map, length_seq. reflexivity. Qed.

Lemma np_arange_lookup (start stop step : Q) (i : nat) :
  (i < length (np_arange start stop step))%nat ->
  np_arange start stop step !! i
  = Some (start + inject_Z (Z.of_nat i) * step).
Proof.
  rewrite np_arange_length. intros Hi. unfold np_arange.
  change (map ?f ?l) with (f <$> l).
  rewrite list_lookup_fmap, lookup_seq_lt by exact Hi. reflexivity.
Qed.

Lemma monotonic_cons2 (x y : Q) (l : list Q) :
  monotonic (x :: y :: l) = Qle_bool x y && monotonic (y :: l).
Proof. reflexivity. Qed.

Lemma monotonic_map_seq (start step : Q) (n : nat) :
  0 <= step ->
  forall i, monotonic (map (fun k : nat => start + inject_Z (Z.of_nat k) * step)
                         (seq i n)) = true.
Proof.
  intros Hstep. induction n as [| n IH]; intros i; [reflexivity |].
  cbn [seq map]. destruct n as [| n]; [reflexivity |].
  specialize (IH (S i)). cbn [seq map] in *. rewrite monotonic_cons2.
  rewrite IH, andb_true_r. apply Qle_bool_iff.
  rewrite Nat2Z.inj_succ. unfold Z.succ. rewrite inject_Z_plus.
  change (inject_Z 1) with 1. lra.
Qed.

Lemma np_arange_monotonic (start stop step : Q) :
  0 <= step -> monotonic (np_arange start stop step) = true.
Proof. intros H. apply monotonic_map_seq, H. Qed.

Lemma eps_pos : 0 < eps.
Proof. reflexivity. Qed.

(** Raising the last edge keeps the edges ascending. *)
Lemma monotonic_nudge (l : list Q) :
  monotonic l = true ->
  forall e, last l = Some e ->
    monotonic (<[Nat.pred (length l) := e + eps]> l) = true.
Proof.
  induction l as [| x [| y r] IH]; intros Hm e He; [discriminate | reflexivity |].
  rewrite monotonic_cons2 in Hm. apply andb_true_iff in Hm as [Hxy Hm].
  specialize (IH Hm e He).
  change (Nat.pred (length (x :: y :: r))) with (S (Nat.pred (length (y :: r)))).
  change (<[S ?n := ?v]> (x :: ?l)) with (x :: <[n := v]> l).
  destruct r as [| z r].
  - cbn in He. injection He as <-. cbn. rewrite andb_true_r.
    apply Qle_bool_iff. apply Qle_bool_iff in Hxy. pose proof eps_pos. lra.
  - change (Nat.pred (length (y :: z :: r))) with (S (Nat.pred (length (z :: r)))) in *.
    change (<[S ?n := ?v]> (y :: ?l)) with (y :: <[n := v]> l) in *.
    rewrite monotonic_cons2, Hxy. exact IH.
Qed.

Lemma nudge_last_ok (l : list Q) :
  l ≠ [] ->
  exists l', nudge_last l = Ok l' /\ length l' = length l
             /\ (monotonic l = true -> monotonic l' = true).
Proof.
  intros Hne. unfold nudge_last.
  destruct (last l) as [e |] eqn:He.
  - eexists. split; [reflexivity |]. split; [apply length_insert |].
    intros Hm. apply monotonic_nudge; assumption.
  - apply last_None in He. contradiction.
Qed.

Lemma bin_counts_length (a bin_edges : list Q) :
  length (bin_counts a bin_edges) = Nat.pred (length bin_edges).
Proof.
  induction bin_edges as [| lo [| hi rest] IH]; [reflexivity | reflexivity |].
  cbn [bin_counts length] in *. rewrite IH. reflexivity.
Qed.

Lemma count_if_nonneg (p : Q -> bool) (a : list Q) : (0 <= count_if p a)%Z.
Proof. induction a as [| x r IH]; cbn; [lia | destruct (p x); lia]. Qed.

Lemma bin_counts_nonneg (a bin_edges : list Q) :
  Forall (fun c => (0 <= c)%Z) (bin_counts a bin_edges).
Proof.
  induction bin_edges as [| lo [| hi rest] IH]; [constructor | constructor |].
  cbn [bin_counts]. constructor; [apply count_if_nonneg | exact IH].
Qed.

Lemma np_count_nonzero_le (counts : list Z) :
  (np_count_nonzero counts <= Z.of_nat (length counts))%Z.
Proof.
  unfold np_count_nonzero. apply inj_le, length_filter.
Qed.

(** The indices of the non-zero counts select exactly the non-zero counts. *)
Lemma take_at_nonzero (counts : list Z) :
  forall pre : list Z,
    take_at (pre ++ counts) (nonzero_from (length pre) counts)
    = Ok (filter (fun c => c ≠ 0%Z) counts).
Proof.
  induction counts as [| c rest IH]; intros pre; [reflexivity |].
  cbn [nonzero_from].
  specialize (IH (pre ++ [c])). rewrite <- app_assoc in IH. cbn [app] in IH.
  replace (length (pre ++ [c])) with (S (length pre)) in IH
    by (rewrite length_app; cbn; lia).
  destruct (Z.eqb_spec c 0) as [-> | Hc].
  - rewrite IH, filter_cons_False by (intros H; apply H; reflexivity). reflexivity.
  - cbn [take_at]. rewrite list_lookup_middle by reflexivity.
    rewrite IH, filter_cons_True by exact Hc. reflexivity.
Qed.

Lemma nonzero_from_bounds (counts : list Z) :
  forall i, Forall (fun k => (i <= k < i + length counts)%nat)
              (nonzero_from i counts).
Proof.
  induction counts as [| c rest IH]; intros i; [constructor |].
  cbn [nonzero_from length]. specialize (IH (S i)).
  assert (H : Forall (fun k => (i <= k < i + S (length rest))%nat)
                (nonzero_from (S i) rest)).
  { eapply Forall_impl; [exact IH |]. cbn. intros k Hk. lia. }
  destruct (c =? 0)%Z; [exact H |]. constructor; [lia | exact H].
Qed.

Lemma nonzero_from_sorted (counts : list Z) :
  forall i, StronglySorted lt (nonzero_from i counts).
Proof.
  induction counts as [| c rest IH]; intros i; [constructor |].
  cbn [nonzero_from]. destruct (c =? 0)%Z; [apply IH |].
  constructor; [apply IH |].
  eapply Forall_impl; [apply nonzero_from_bounds |]. cbn. intros k Hk. lia.
Qed.

Lemma nonzero_from_length (counts : list Z) :
  forall i, length (nonzero_from i counts)
            = length (filter (fun c => c ≠ 0%Z) counts).
Proof.
  induction counts as [| c rest IH]; intros i; [reflexivity |].
  cbn [nonzero_from]. destruct (Z.eqb_spec c 0) as [-> | Hc].
  - rewrite filter_cons_False by (intros H; apply H; reflexivity). apply IH.
  - rewrite filter_cons_True by exact Hc. cbn [length]. rewrite IH. reflexivity.
Qed.

(** Picking ascending positions out of an [np.arange] with a positive step
    gives ascending values. *)
Lemma take_at_arange (start stop step : Q) (idx : list nat) :
  0 < step ->
  Forall (fun k => (k < length (np_arange start stop step))%nat) idx ->
  StronglySorted lt idx ->
  exists bs, take_at (np_arange start stop step) idx = Ok bs
             /\ length bs = length idx
             /\ StronglySorted Qlt bs
             /\ Forall (fun b => exists k, k ∈ idx
                          /\ b = start + inject_Z (Z.of_nat k) * step) bs.
Proof.
  intros Hstep Hidx Hsorted.
  induction idx as [| i idx IH].
  - exists []. cbn. repeat split; constructor.
  - apply Forall_cons in Hidx as [Hi Hidx].
    apply StronglySorted_inv in Hsorted as [Hsorted Hlt].
    destruct (IH Hidx Hsorted) as (bs & Hbs & Hlen & Hs & Hval).
    cbn [take_at]. rewrite (np_arange_lookup _ _ _ _ Hi), Hbs. cbn [rbind].
    eexists. split; [reflexivity |]. split; [cbn; rewrite Hlen; reflexivity |].
    split.
    + constructor; [exact Hs |].
      apply Forall_forall. intros b Hb.
      rewrite Forall_forall in Hval. destruct (Hval b Hb) as (k & Hk & ->).
      rewrite Forall_forall in Hlt. specialize (Hlt k Hk).
      assert (Hik : inject_Z (Z.of_nat i) < inject_Z (Z.of_nat k))
        by (rewrite <- Zlt_Qlt; lia).
      assert (inject_Z (Z.of_nat i) * step < inject_Z (Z.of_nat k) * step)
        by (apply Qmult_lt_compat_r; assumption).
      lra.
    + constructor.
      * exists i. split; [apply elem_of_cons; left; reflexivity | reflexivity].
      * eapply Forall_impl; [exact Hval |]. cbn. intros b (k & Hk & ->).
        exists k. split; [apply elem_of_cons; right; exact Hk | reflexivity].
Qed.

(** ** Histogram binning: the loop *)

Lemma histogram_body_ok (charges : list Q) (grain : Q) (st : hist_state)
    (mn mx : Q) :
  py_min charges = Ok mn -> py_max charges = Ok mx -> mn <= mx ->
  0 < grain -> (0 <= spacing st)%Z ->
  exists st' : hist_state,
    histogram_body charges grain st = Ok st'
    /\ spacing st' = (spacing st + 1)%Z
    /\ hist_good st'
    /\ length (counts st')
       = Z.to_nat (Qceiling (mx / (grain * inject_Z (spacing st + 1)) - (1 # 2))
                   - Qceiling (mn / (grain * inject_Z (spacing st + 1)) - (1 # 2))
                   + 1).
Proof.
  intros Hmin Hmax Hle Hgrain Hsp.
  unfold histogram_body. rewrite Hmin, Hmax. cbn [rbind]. unfold round_to.
  set (step := grain * inject_Z (spacing st + 1)).
  assert (Hstep : 0 < step).
  { apply Qmult_lt_0_compat; [exact Hgrain |].
    change 0 with (inject_Z 0). rewrite <- Zlt_Qlt. lia. }
  set (a := Qceiling (mn / step - (1 # 2))).
  set (b := Qceiling (mx / step - (1 # 2))).
  assert (Hab : (a <= b)%Z).
  { apply Qceiling_resp_le.
    assert (mn / step <= mx / step)
      by (unfold Qdiv; apply Qmult_le_compat_r;
          [exact Hle | apply Qlt_le_weak, Qinv_lt_0_compat, Hstep]).
    lra. }
  set (centers := np_arange (inject_Z a * step)
                    (inject_Z b * step + (1 # 2) * step) step).
  set (edges0 := np_arange (inject_Z a * step - (1 # 2) * step)
                   (inject_Z b * step + (1 # 2) * step + (1 # 2) * step) step).
  assert (Hclen : length centers = Z.to_nat (b - a + 1)).
  { unfold centers. rewrite np_arange_length. f_equal.
    apply Qceiling_plus_half. unfold Z.sub.
    rewrite inject_Z_plus, inject_Z_opp. field. lra. }
  assert (Helen : length edges0 = Z.to_nat (b - a + 2)).
  { unfold edges0. rewrite np_arange_length. f_equal.
    replace (b - a + 2)%Z with (b - a + 1 + 1)%Z by lia.
    apply Qceiling_plus_half. unfold Z.sub.
    rewrite !inject_Z_plus, inject_Z_opp. change (inject_Z 1) with 1.
    field. lra. }
  assert (Hne : edges0 ≠ []).
  { intros H. rewrite H in Helen. cbn in Helen. lia. }
  destruct (nudge_last_ok edges0 Hne) as (edges1 & Hnudge & Hlen1 & Hmono).
  rewrite Hnudge. cbn [rbind]. unfold np_histogram.
  rewrite Hmono by (apply np_arange_monotonic; lra). cbn [rbind].
  eexists. split; [reflexivity |].
  cbn [spacing num_bins counts bin_centers].
  split; [reflexivity |].
  assert (Hcounts : length (bin_counts charges edges1) = Z.to_nat (b - a + 1)).
  { rewrite bin_counts_length, Hlen1, Helen. lia. }
  split; [| exact Hcounts].
  unfold hist_good. cbn [spacing num_bins counts bin_centers].
  split; [reflexivity |]. split; [rewrite Hcounts; fold centers; lia |].
  split; [apply bin_counts_nonneg |].
  eexists _, _, step. split; [exact Hstep | reflexivity].
Qed.

Lemma wide_one_bin (step mn mx : Q) :
  0 < step -> mn <= mx -> wide step mn mx ->
  Qceiling (mx / step - (1 # 2)) = 0%Z /\ Qceiling (mn / step - (1 # 2)) = 0%Z.
Proof.
  intros Hstep Hle [Hlo Hhi].
  assert (Hdiv : forall v, - ((1 # 2) * step) < v -> v <= (1 # 2) * step ->
                           Qceiling (v / step - (1 # 2)) = 0%Z).
  { intros v Hv1 Hv2. apply Qceiling_unique; change (inject_Z 0) with 0.
    - assert (- (1 # 2) < v / step)
        by (apply Qlt_shift_div_l; [exact Hstep | lra]).
      lra.
    - assert (v / step <= 1 # 2)
        by (apply Qle_shift_div_r; [exact Hstep | lra]).
      lra. }
  split; apply Hdiv; lra.
Qed.

Lemma histogram_while_stop (fuel : nat) (charges : list Q) (max_bins : Z)
    (grain : Q) (st : hist_state) :
  (num_bins st <= max_bins)%Z ->
  histogram_while fuel charges max_bins grain st = Some (Ok st).
Proof.
  intros H. destruct fuel; cbn [histogram_while];
    destruct (Z.gtb_spec (num_bins st) max_bins); (lia || reflexivity).
Qed.

Lemma histogram_while_step (fuel : nat) (charges : list Q) (max_bins : Z)
    (grain : Q) (st : hist_state) :
  (max_bins < num_bins st)%Z ->
  histogram_while (S fuel) charges max_bins grain st
  = match histogram_body charges grain st with
    | Raise e => Some (Raise e)
    | Ok st' => histogram_while fuel charges max_bins grain st'
    end.
Proof.
  intros H. cbn [histogram_while].
  destruct (Z.gtb_spec (num_bins st) max_bins); (lia || reflexivity).
Qed.

Lemma histogram_while_terminates (charges : list Q) (max_bins : Z) (grain : Q)
    (mn mx : Q) (S0 : Z) :
  py_min charges = Ok mn -> py_max charges = Ok mx -> mn <= mx ->
  0 < grain -> (1 <= max_bins)%Z ->
  (forall s, (S0 <= s)%Z -> wide (grain * inject_Z s) mn mx) ->
  forall (n : nat) (st : hist_state) (fuel : nat),
    (0 <= spacing st)%Z ->
    (S0 - spacing st <= Z.of_nat n)%Z ->
    (n < fuel)%nat ->
    ((num_bins st <= max_bins)%Z -> hist_good st) ->
    ((S0 <= spacing st)%Z -> (num_bins st <= max_bins)%Z) ->
    exists st' : hist_state,
      histogram_while fuel charges max_bins grain st = Some (Ok st')
      /\ hist_good st' /\ (num_bins st' <= max_bins)%Z.
Proof.
  intros Hmin Hmax Hle Hgrain Hmb Hwide.
  induction n as [| n IH]; intros st fuel Hsp Hn Hfuel Hgood Hstop.
  - exists st. assert (Hnb : (num_bins st <= max_bins)%Z) by (apply Hstop; lia).
    rewrite histogram_while_stop by exact Hnb. auto.
  - destruct (Z_lt_le_dec max_bins (num_bins st)) as [Hgt | Hnb].
    + destruct fuel as [| fuel]; [lia |].
      rewrite histogram_while_step by exact Hgt.
      destruct (histogram_body_ok charges grain st mn mx Hmin Hmax Hle Hgrain Hsp)
        as (st' & Hbody & Hsp' & Hgood' & Hlen).
      rewrite Hbody.
      apply IH; try lia; [auto |].
      intros HS0. rewrite Hsp' in HS0.
      assert (Hstep : 0 < grain * inject_Z (spacing st + 1)).
      { apply Qmult_lt_0_compat; [exact Hgrain |].
        change 0 with (inject_Z 0). rewrite <- Zlt_Qlt. lia. }
      destruct (wide_one_bin _ mn mx Hstep Hle (Hwide _ HS0)) as [Hb Ha].
      rewrite Hb, Ha in Hlen. cbn in Hlen.
      destruct Hgood' as (Hnum & _). rewrite Hnum.
      pose proof (np_count_nonzero_le (counts st')). lia.
    + exists st. rewrite histogram_while_stop by exact Hnb. auto.
Qed.

Lemma histogram_while_fuel_mono (charges : list Q) (max_bins : Z) (grain : Q) :
  forall (fuel : nat) (st : hist_state) (r : result hist_state),
    histogram_while fuel charges max_bins grain st = Some r ->
    forall fuel', (fuel <= fuel')%nat ->
      histogram_while fuel' charges max_bins grain st = Some r.
Proof.
  induction fuel as [| fuel IH]; intros st r Hrun fuel' Hle.
  - destruct (Z_lt_le_dec max_bins (num_bins st)) as [Hgt | Hnb].
    + cbn [histogram_while] in Hrun.
      destruct (Z.gtb_spec (num_bins st) max_bins); [discriminate | lia].
    + rewrite histogram_while_stop in * by exact Hnb. exact Hrun.
  - destruct (Z_lt_le_dec max_bins (num_bins st)) as [Hgt | Hnb].
    + destruct fuel' as [| fuel']; [lia |].
      rewrite histogram_while_step in * by exact Hgt.
      destruct (histogram_body charges grain st) as [st' | e]; [| exact Hrun].
      apply (IH st' r Hrun). lia.
    + rewrite histogram_while_stop in * by exact Hnb. exact Hrun.
Qed.

Lemma wide_eventually (grain mn mx : Q) :
  0 < grain ->
  exists S0 : Z,
    (1 <= S0)%Z
    /\ forall s, (S0 <= s)%Z -> wide (grain * inject_Z s) mn mx.
Proof.
  intros Hgrain.
  set (q := 2 * (Qabs mn + Qabs mx) / grain).
  pose proof (Qabs_nonneg mn) as Hmn. pose proof (Qabs_nonneg mx) as Hmx.
  assert (Hq : 0 <= q).
  { unfold q, Qdiv. apply Qmult_le_0_compat; [lra |].
    apply Qlt_le_weak, Qinv_lt_0_compat, Hgrain. }
  exists (Qceiling q + 1)%Z. split.
  { pose proof (Qceiling_resp_le 0 q Hq) as H. change (Qceiling 0) with 0%Z in H. lia. }
  intros s Hs.
  assert (Hsq : q < inject_Z s).
  { pose proof (Qle_ceiling q) as Hc. rewrite Zle_Qle, inject_Z_plus in Hs.
    change (inject_Z 1) with 1 in Hs. lra. }
  assert (Hstep : 2 * (Qabs mn + Qabs mx) < grain * inject_Z s).
  { assert (H : grain * q < grain * inject_Z s)
      by (apply Qmult_lt_l; assumption).
    assert (Hgq : grain * q == 2 * (Qabs mn + Qabs mx)) by (unfold q; field; lra).
    lra. }
  pose proof (Qle_Qabs mx) as H1. pose proof (Qle_Qabs (- mn)) as H2.
  rewrite Qabs_opp in H2.
  split; lra.
Qed.

(** * Further properties *)

(** ** Histogram binning: what the loop computes *)

Lemma histogram_body_spacing (charges : list Q) (grain : Q)
    (st1 st2 : hist_state) :
  spacing st1 = spacing st2 ->
  histogram_body charges grain st1 = histogram_body charges grain st2.
Proof. intros H. unfold histogram_body. rewrite H. reflexivity. Qed.

Lemma histogram_body_pass (charges : list Q) (grain : Q) (st : hist_state) :
  histogram_body charges grain st
  = histogram_pass charges grain (spacing st + 1).
Proof.
  apply histogram_body_spacing. cbn. lia.
Qed.

Lemma fold_min_lower (r : list Q) :
  forall x,
    Forall (fun y => fold_left (fun m y => if Qltb y m then y else m) r x <= y) r.
Proof.
  induction r as [| y r IH]; intros x; [constructor |].
  cbn [fold_left]. constructor; [| apply IH].
  destruct (Qltb y x) eqn:E.
  - apply fold_min_le.
  - apply Qltb_ge in E. pose proof (fold_min_le r x). lra.
Qed.

Lemma fold_max_upper (r : list Q) :
  forall x,
    Forall (fun y => y <= fold_left (fun m y => if Qltb m y then y else m) r x) r.
Proof.
  induction r as [| y r IH]; intros x; [constructor |].
  cbn [fold_left]. constructor; [| apply IH].
  destruct (Qltb x y) eqn:E.
  - apply fold_max_ge.
  - apply Qltb_ge in E. pose proof (fold_max_ge r x). lra.
Qed.

(** [min] and [max] bound every charge. *)
Lemma py_min_max_bounds (charges : list Q) (mn mx : Q) :
  py_min charges = Ok mn -> py_max charges = Ok mx ->
  Forall (fun x => mn <= x /\ x <= mx) charges.
Proof.
  destruct charges as [| x r]; [discriminate |]. cbn [py_min py_max].
  intros [= <-] [= <-].
  constructor.
  - split; [apply fold_min_le | apply fold_max_ge].
  - pose proof (fold_min_lower r x) as Hlo. pose proof (fold_max_upper r x) as Hhi.
    rewrite Forall_forall in *. intros y Hy. split; [apply Hlo | apply Hhi]; exact Hy.
Qed.

Lemma Zsum_cons (x : Z) (l : list Z) : Zsum (x :: l) = (x + Zsum l)%Z.
Proof. reflexivity. Qed.

Lemma count_if_split (p q r : Q -> bool) (a : list Q) :
  (forall x, In x a ->
     ((if p x then 1 else 0) + (if q x then 1 else 0))%Z = if r x then 1%Z else 0%Z) ->
  (count_if p a + count_if q a)%Z = count_if r a.
Proof.
  induction a as [| x a IH]; intros H; [reflexivity |].
  cbn [count_if]. rewrite <- IH by (intros y Hy; apply H; right; exact Hy).
  rewrite <- (H x) by (left; reflexivity). lia.
Qed.

Lemma count_if_all (p : Q -> bool) (a : list Q) :
  Forall (fun x => p x = true) a -> count_if p a = Z.of_nat (length a).
Proof.
  induction 1 as [| x a Hx _ IH]; [reflexivity |].
  cbn [count_if length]. rewrite Hx, IH. lia.
Qed.

Lemma monotonic_head_last (l : list Q) :
  monotonic l = true ->
  forall x e, head l = Some x -> last l = Some e -> x <= e.
Proof.
  induction l as [| y [| z r] IH]; intros Hm x e Hx He; [discriminate | |].
  - cbn in Hx, He. injection Hx as <-. injection He as <-. lra.
  - rewrite monotonic_cons2 in Hm. apply andb_true_iff in Hm as [Hyz Hm].
    cbn in Hx. injection Hx as <-. apply Qle_bool_iff in Hyz.
    specialize (IH Hm z e eq_refl He). lra.
Qed.

(** Ascending edges cut the closed interval from the first to the last edge
    into bins: the counts add up to the number of values in that interval. *)
Lemma bin_counts_sum (a : list Q) (bin_edges : list Q) :
  monotonic bin_edges = true ->
  forall lo e rest,
    bin_edges = lo :: rest -> rest ≠ [] -> last bin_edges = Some e ->
    Zsum (bin_counts a bin_edges)
    = count_if (fun x => Qle_bool lo x && Qle_bool x e) a.
Proof.
  induction bin_edges as [| lo' [| hi [| z r]] IH]; intros Hm lo e rest Heq Hne He;
    try discriminate.
  - injection Heq as <- <-. contradiction.
  - injection Heq as <- <-. cbn in He. injection He as <-.
    cbn [bin_counts]. rewrite Zsum_cons. cbn [Zsum fold_right]. lia.
  - injection Heq as <- <-.
    rewrite monotonic_cons2 in Hm. apply andb_true_iff in Hm as [Hlohi Hm].
    apply Qle_bool_iff in Hlohi.
    change (bin_counts a (lo' :: hi :: z :: r))
      with (count_if (fun x => Qle_bool lo' x && Qltb x hi) a
              :: bin_counts a (hi :: z :: r)).
    rewrite Zsum_cons.
    rewrite (IH Hm hi e (z :: r) eq_refl) by (discriminate || exact He).
    apply count_if_split. intros x _.
    pose proof (monotonic_head_last (hi :: z :: r) Hm hi e eq_refl He) as Hhie.
    destruct (Qle_bool lo' x) eqn:E1, (Qltb x hi) eqn:E2,
             (Qle_bool hi x) eqn:E3, (Qle_bool x e) eqn:E4; cbn; try reflexivity;
      exfalso;
      repeat match goal with
             | H : Qle_bool _ _ = true |- _ => apply Qle_bool_iff in H
             | H : Qle_bool ?u ?v = false |- _ =>
                 assert (~ u <= v) by (intros Hc; apply Qle_bool_iff in Hc; congruence);
                 clear H
             | H : Qltb _ _ = true |- _ => apply Qltb_lt in H
             | H : Qltb _ _ = false |- _ => apply Qltb_ge in H
             end; lra.
Qed.

Lemma nudge_last_app (l : list Q) (e : Q) :
  nudge_last (l ++ [e]) = Ok (l ++ [e + eps]).
Proof.
  unfold nudge_last. rewrite last_snoc. f_equal.
  rewrite length_app. cbn [length].
  replace (Nat.pred (length l + 1)) with (length l + 0)%nat by lia.
  rewrite insert_app_r. reflexivity.
Qed.

(** One pass of the loop body at [s >= 1] grains per bin, on charges that
    have a minimum and a maximum: the centers run from the rounded minimum to
    the rounded maximum, there is one count per center, and every charge is
    counted exactly once. *)
Lemma histogram_pass_spec (charges : list Q) (grain : Q) (s : Z) (mn mx : Q) :
  py_min charges = Ok mn -> py_max charges = Ok mx ->
  0 < grain -> (1 <= s)%Z ->
  exists st : hist_state,
    histogram_pass charges grain s = Ok st
    /\ spacing st = s
    /\ num_bins st = np_count_nonzero (counts st)
    /\ bin_centers st
       = np_arange (round_to mn (grain * inject_Z s) false)
           (round_to mx (grain * inject_Z s) true
            + (1 # 2) * (grain * inject_Z s))
           (grain * inject_Z s)
    /\ length (counts st) = length (bin_centers st)
    /\ Forall (fun c => (0 <= c)%Z) (counts st)
    /\ Zsum (counts st) = Z.of_nat (length charges).
Proof.
  intros Hmin Hmax Hgrain Hs.
  pose proof (py_min_max_bounds charges mn mx Hmin Hmax) as Hbounds.
  assert (Hle : mn <= mx).
  { destruct charges as [| x r]; [discriminate |].
    apply Forall_cons in Hbounds as [[? ?] _]. lra. }
  unfold histogram_pass, histogram_body. cbn [spacing].
  replace (s - 1 + 1)%Z with s by lia.
  rewrite Hmin, Hmax. cbn [rbind].
  set (step := grain * inject_Z s).
  assert (Hstep : 0 < step).
  { apply Qmult_lt_0_compat; [exact Hgrain |].
    change 0 with (inject_Z 0). rewrite <- Zlt_Qlt. lia. }
  destruct (round_to_nearest_ties_down mn step false Hstep) as [_ Hlo].
  destruct (round_to_nearest_ties_down mx step true Hstep) as [Hhi _].
  unfold round_to in *.
  set (a := Qceiling (mn / step - (1 # 2))) in *.
  set (b := Qceiling (mx / step - (1 # 2))) in *.
  assert (Hab : (a <= b)%Z).
  { apply Qceiling_resp_le.
    assert (mn / step <= mx / step)
      by (unfold Qdiv; apply Qmult_le_compat_r;
          [exact Hle | apply Qlt_le_weak, Qinv_lt_0_compat, Hstep]).
    lra. }
  set (centers := np_arange (inject_Z a * step)
                    (inject_Z b * step + (1 # 2) * step) step).
  set (e0 := inject_Z a * step - (1 # 2) * step).
  set (edges0 := np_arange e0
                   (inject_Z b * step + (1 # 2) * step + (1 # 2) * step) step).
  assert (Hclen : length centers = Z.to_nat (b - a + 1)).
  { unfold centers. rewrite np_arange_length. f_equal.
    apply Qceiling_plus_half. unfold Z.sub.
    rewrite inject_Z_plus, inject_Z_opp. field. lra. }
  assert (Helen : length edges0 = Z.to_nat (b - a + 2)).
  { unfold edges0, e0. rewrite np_arange_length. f_equal.
    replace (b - a + 2)%Z with (b - a + 1 + 1)%Z by lia.
    apply Qceiling_plus_half. unfold Z.sub.
    rewrite !inject_Z_plus, inject_Z_opp. change (inject_Z 1) with 1.
    field. lra. }
  assert (Hmono0 : monotonic edges0 = true)
    by (apply np_arange_monotonic; lra).
  destruct (last edges0) as [eL |] eqn:HeL.
  2:{ apply last_None in HeL. rewrite HeL in Helen. cbn in Helen. lia. }
  pose proof (monotonic_nudge edges0 Hmono0 eL HeL) as Hmono1.
  apply last_Some in HeL as [pre Hpre].
  assert (Hprelen : length pre = Z.to_nat (b - a + 1)).
  { rewrite Hpre, length_app in Helen. cbn in Helen. lia. }
  assert (HeLval : eL == inject_Z b * step + (1 # 2) * step).
  { assert (H : edges0 !! length pre = Some eL)
      by (rewrite Hpre; apply list_lookup_middle; reflexivity).
    unfold edges0 in H. rewrite np_arange_lookup in H
      by (fold edges0; rewrite Helen; lia).
    injection H as <-. rewrite Hprelen, Z2Nat.id by lia. unfold e0, Z.sub.
    rewrite !inject_Z_plus, inject_Z_opp. change (inject_Z 1) with 1. ring. }
  assert (Hhead : edges0 !! 0%nat = Some (e0 + inject_Z (Z.of_nat 0) * step)).
  { unfold edges0. apply np_arange_lookup. fold edges0. rewrite Helen. lia. }
  unfold nudge_last. fold edges0.
  replace (last edges0) with (Some eL) by (rewrite Hpre, last_snoc; reflexivity).
  set (edges1 := <[Nat.pred (length edges0) := eL + eps]> edges0) in *.
  assert (Hedges1 : edges1 = pre ++ [eL + eps]).
  { unfold edges1. rewrite Hpre at 2. rewrite Helen.
    replace (Nat.pred (Z.to_nat (b - a + 2))) with (length pre + 0)%nat by lia.
    rewrite insert_app_r. reflexivity. }
  cbn [rbind]. unfold np_histogram. rewrite Hmono1. cbn [rbind].
  eexists. split; [reflexivity |].
  cbn [spacing num_bins counts bin_centers]. fold centers.
  split; [reflexivity |]. split; [reflexivity |]. split; [reflexivity |].
  split.
  { rewrite bin_counts_length, Hclen. unfold edges1. rewrite length_insert, Helen. lia. }
  split; [apply bin_counts_nonneg |].
  destruct pre as [| lo pre']; [cbn in Hprelen; lia |].
  assert (Hlo0 : lo = e0 + inject_Z (Z.of_nat 0) * step).
  { rewrite Hpre in Hhead. cbn in Hhead. injection Hhead as ->. reflexivity. }
  rewrite (bin_counts_sum charges edges1 Hmono1 lo (eL + eps) (pre' ++ [eL + eps])).
  - apply count_if_all. eapply Forall_impl; [exact Hbounds |].
    cbn beta. intros x [Hx1 Hx2]. apply andb_true_iff.
    pose proof eps_pos.
    split; apply Qle_bool_iff.
    + rewrite Hlo0. change (inject_Z (Z.of_nat 0)) with 0. unfold e0. lra.
    + rewrite HeLval. lra.
  - rewrite Hedges1. reflexivity.
  - destruct pre'; discriminate.
  - rewrite Hedges1. apply last_snoc.
Qed.

Lemma histogram_body_spacing_out (charges : list Q) (grain : Q)
    (st st' : hist_state) :
  histogram_body charges grain st = Ok st' ->
  spacing st' = (spacing st + 1)%Z.
Proof.
  unfold histogram_body. intros H.
  destruct (py_min charges); [| discriminate]. cbn [rbind] in H.
  destruct (py_max charges); [| discriminate]. cbn [rbind] in H.
  destruct (nudge_last _); [| discriminate]. cbn [rbind] in H.
  destruct (np_histogram _ _); [| discriminate]. cbn [rbind] in H.
  injection H as <-. reflexivity.
Qed.

(** Whatever holds when the loop is entered and is kept by every iteration
    holds when the loop is left, together with the negated loop condition. *)
Lemma histogram_while_invariant (Inv : hist_state -> Prop) (charges : list Q)
    (max_bins : Z) (grain : Q) :
  (forall st st',
      Inv st -> (max_bins < num_bins st)%Z ->
      histogram_body charges grain st = Ok st' -> Inv st') ->
  forall (fuel : nat) (st st' : hist_state),
    Inv st ->
    histogram_while fuel charges max_bins grain st = Some (Ok st') ->
    Inv st' /\ (num_bins st' <= max_bins)%Z.
Proof.
  intros Hkeep. induction fuel as [| fuel IH]; intros st st' Hinv Hrun.
  - destruct (Z_lt_le_dec max_bins (num_bins st)) as [Hgt | Hnb].
    + cbn [histogram_while] in Hrun.
      destruct (Z.gtb_spec (num_bins st) max_bins); [discriminate | lia].
    + rewrite histogram_while_stop in Hrun by exact Hnb.
      injection Hrun as <-. auto.
  - destruct (Z_lt_le_dec max_bins (num_bins st)) as [Hgt | Hnb].
    + rewrite histogram_while_step in Hrun by exact Hgt.
      destruct (histogram_body charges grain st) as [st1 | e] eqn:Hbody;
        [| discriminate].
      apply (IH st1 st'); [eapply Hkeep; eassumption | exact Hrun].
    + rewrite histogram_while_stop in Hrun by exact Hnb.
      injection Hrun as <-. auto.
Qed.

(** What the loop returns is the first pass, in the order 1, 2, 3, ... grains
    per bin, that has at most [max_bins] occupied bins. *)
Lemma histogram_while_first_pass (charges : list Q) (max_bins : Z) (grain : Q)
    (fuel : nat) (st : hist_state) :
  histogram_while fuel charges max_bins grain (histogram_start max_bins)
  = Some (Ok st) ->
  (1 <= spacing st)%Z
  /\ histogram_pass charges grain (spacing st) = Ok st
  /\ (num_bins st <= max_bins)%Z
  /\ forall k, (1 <= k < spacing st)%Z ->
       exists stk, histogram_pass charges grain k = Ok stk
                   /\ (max_bins < num_bins stk)%Z.
Proof.
  intros Hrun.
  set (Inv := fun st : hist_state =>
    (0 <= spacing st)%Z
    /\ (st = histogram_start max_bins
        \/ ((1 <= spacing st)%Z
            /\ histogram_pass charges grain (spacing st) = Ok st))
    /\ forall k, (1 <= k < spacing st)%Z ->
         exists stk, histogram_pass charges grain k = Ok stk
                     /\ (max_bins < num_bins stk)%Z).
  destruct (histogram_while_invariant Inv charges max_bins grain) with
    (fuel := fuel) (st := histogram_start max_bins) (st' := st)
    as [(Hsp & Hst & Hmin) Hnb]; [| | exact Hrun |].
  - intros st1 st2 (Hsp1 & Hst1 & Hmin1) Hgt Hbody.
    pose proof (histogram_body_spacing_out _ _ _ _ Hbody) as Hsp2.
    rewrite histogram_body_pass in Hbody.
    unfold Inv. rewrite Hsp2. split; [lia |].
    split; [right; split; [lia | exact Hbody] |].
    intros k Hk. destruct (Z.eq_dec k (spacing st1)) as [-> | Hne].
    + destruct Hst1 as [-> | [_ Hpass]]; [cbn in Hk; lia |].
      exists st1. split; assumption.
    + apply Hmin1. lia.
  - unfold Inv. cbn. split; [lia |]. split; [left; reflexivity |]. intros k Hk. lia.
  - destruct Hst as [-> | [H1 Hpass]]; [cbn in Hnb; lia |].
    repeat split; assumption.
Qed.

(** The histogram [__calculate_histogram] returns is read off such a pass. *)
Lemma calculate_histogram_result (fuel : nat) (rounding_digits : Z)
    (charges : list Q) (max_bins : Z) (bs : list Q) (cs : list Z) :
  calculate_histogram fuel rounding_digits charges max_bins = Some (Ok (bs, cs)) ->
  exists (st : hist_state) (mn mx : Q),
    histogram_pass charges (pow10 (- rounding_digits)) (spacing st) = Ok st
    /\ (1 <= spacing st)%Z
    /\ (num_bins st <= max_bins)%Z
    /\ py_min charges = Ok mn /\ py_max charges = Ok mx
    /\ cs = filter (fun c => c ≠ 0%Z) (counts st)
    /\ take_at (bin_centers st) (np_nonzero (counts st)) = Ok bs.
Proof.
  unfold calculate_histogram. intros H.
  destruct (histogram_while _ _ _ _ _) as [[st | e] |] eqn:Hrun; try discriminate.
  apply (histogram_while_first_pass charges max_bins _ fuel st) in Hrun
    as (Hsp & Hpass & Hnb & _).
  injection H as H.
  pose proof (take_at_nonzero (counts st) []) as Hcs. cbn [app length] in Hcs.
  fold (np_nonzero (counts st)) in Hcs. rewrite Hcs in H. cbn [rbind] in H.
  destruct (take_at (bin_centers st) _) as [bs' | e] eqn:Hbs; [| discriminate].
  cbn [rbind] in H. injection H as <- <-.
  assert (Hmm : exists mn mx, py_min charges = Ok mn /\ py_max charges = Ok mx).
  { destruct charges as [| x r]; [| eexists _, _; split; reflexivity].
    unfold histogram_pass, histogram_body in Hpass. cbn in Hpass. discriminate. }
  destruct Hmm as (mn & mx & Hmin & Hmax).
  exists st, mn, mx. repeat split; assumption.
Qed.

Lemma calculate_histogram_empty (fuel : nat) (rounding_digits max_bins : Z) :
  calculate_histogram (S fuel) rounding_digits [] max_bins
  = Some (Raise (ValueError "min() arg is an empty sequence")).
Proof.
  unfold calculate_histogram.
  rewrite histogram_while_step by (cbn; lia). reflexivity.
Qed.

(** Without charges there is no histogram: whatever [max_bins] and the
    rounding digits are, the loop is entered and its first statement,
    [min(charges)], raises [ValueError]. *)
Theorem histogram_empty_raises (fuel : nat) (rounding_digits max_bins : Z) :
  calculate_histogram (S fuel) rounding_digits [] max_bins
  = Some (Raise (ValueError "min() arg is an empty sequence")).
Proof. apply calculate_histogram_empty. Qed.

(** ** The Mean collector *)

Lemma node_of_graph (g : Graph) (atom : Z) :
  atom ∈ (nodes g).*1 -> exists data, node g atom = Ok data.
Proof.
  intros Hin. unfold node.
  apply list_elem_of_fmap in Hin as (nd & -> & Hnd).
  destruct (list_find_elem_of (fun nd' : Z * gmap string value => nd'.1 = nd.1)
              (nodes g) nd Hnd eq_refl) as [[i nd'] Hfind].
  rewrite Hfind. eauto.
Qed.

Lemma first_match_app {A} (try : Z -> option A) (pre post : list Z) :
  Forall (fun s => try s = None) pre ->
  first_match try (pre ++ post) = first_match try post.
Proof.
  induction 1 as [| s pre Hs _ IH]; [reflexivity |].
  cbn [app first_match]. rewrite Hs. exact IH.
Qed.

Lemma mean_shells_first_match (repository : Repository) (rounding_digits : Z)
    (nauty : Nauty) (g : Graph) (atom : Z) (iacm_data_only : bool)
    (shells : list Z) :
  atom ∈ (nodes g).*1 ->
  mean_shells repository rounding_digits nauty g atom iacm_data_only shells
  = Ok (mean_match repository rounding_digits nauty g iacm_data_only shells atom).
Proof.
  intros Hin. destruct (node_of_graph g atom Hin) as [data Hnode].
  unfold mean_match. induction shells as [| s rest IH]; [reflexivity |].
  cbn [mean_shells first_match]. rewrite Hnode. cbn [rbind]. rewrite IH.
  set (fm := first_match _ rest).
  unfold mean_try, atom_data. rewrite Hnode.
  destruct (mean_collect _ _ _ _ _ _ (charges_iacm repository)) as [c |];
    [reflexivity |].
  destruct iacm_data_only; cbn [negb]; [reflexivity |].
  destruct (mean_collect _ _ _ _ _ _ (charges_elem repository)) as [c |];
    reflexivity.
Qed.

(** The shells are tried in the order given and the first one with a match,
    in either data set, decides; later shells are not looked at. *)
Theorem mean_first_matching_shell_wins (repository : Repository)
    (rounding_digits : Z) (nauty : Nauty) (g : Graph) (atom : Z)
    (iacm_data_only : bool) (pre post : list Z) (s : Z) (c : list Q * list Q) :
  atom ∈ (nodes g).*1 ->
  Forall (fun s' => mean_try repository rounding_digits nauty g iacm_data_only
                      atom s' = None) pre ->
  mean_try repository rounding_digits nauty g iacm_data_only atom s = Some c ->
  mean_shells repository rounding_digits nauty g atom iacm_data_only
    (pre ++ s :: post) = Ok (Some c).
Proof.
  intros Hin Hpre Hs. rewrite mean_shells_first_match by exact Hin.
  unfold mean_match. rewrite first_match_app by exact Hpre.
  cbn [first_match]. rewrite Hs. reflexivity.
Qed.

Lemma mean_atoms_spec (repository : Repository) (rounding_digits : Z)
    (nauty : Nauty) (g : Graph) (iacm_data_only : bool) (shells : list Z)
    (atoms : list Z) :
  Forall (fun a => a ∈ (nodes g).*1) atoms ->
  forall (charges0 : Values) (no_vals0 : list Z),
  exists charges : Values,
    mean_atoms repository rounding_digits nauty g iacm_data_only shells atoms
      charges0 no_vals0
    = Ok (charges,
          no_vals0 ++ filter (fun a => ¬ is_Some (mean_match repository
                                rounding_digits nauty g iacm_data_only shells a))
                        atoms)
    /\ (forall a, a ∈ atoms ->
          is_Some (mean_match repository rounding_digits nauty g iacm_data_only
                     shells a) ->
          charges !! a = mean_match repository rounding_digits nauty g
                           iacm_data_only shells a)
    /\ (forall a, a ∉ atoms -> charges !! a = charges0 !! a).
Proof.
  induction 1 as [| a atoms Ha _ IH]; intros charges0 nv0.
  - exists charges0. cbn [mean_atoms]. rewrite filter_nil, app_nil_r.
    split; [reflexivity |]. split; [intros a Ha; inversion Ha | auto].
  - cbn [mean_atoms]. rewrite mean_shells_first_match by exact Ha. cbn [rbind].
    destruct (mean_match repository rounding_digits nauty g iacm_data_only shells a)
      as [c |] eqn:Hm.
    + destruct (IH (<[a := c]> charges0) nv0) as (charges & -> & Hin & Hout).
      exists charges.
      rewrite filter_cons_False by (rewrite Hm; intros H; apply H; eauto).
      split; [reflexivity |]. split.
      * intros b Hb Hsome. destruct (decide (b ∈ atoms)) as [Hb' | Hb'];
          [auto |].
        apply elem_of_cons in Hb as [-> | Hb]; [| contradiction].
        rewrite (Hout a Hb'), lookup_insert_eq, Hm. reflexivity.
      * intros b Hb. apply not_elem_of_cons in Hb as [Hne Hb].
        rewrite (Hout b Hb). apply lookup_insert_ne. congruence.
    + destruct (IH charges0 (nv0 ++ [a])) as (charges & -> & Hin & Hout).
      exists charges.
      rewrite filter_cons_True by (rewrite Hm; intros [? H]; discriminate H).
      rewrite <- app_assoc. split; [reflexivity |]. split.
      * intros b Hb Hsome. destruct (decide (b ∈ atoms)) as [Hb' | Hb'];
          [auto |].
        apply elem_of_cons in Hb as [-> | Hb]; [| contradiction].
        rewrite Hm in Hsome. destruct Hsome as [? H]. discriminate H.
      * intros b Hb. apply not_elem_of_cons in Hb as [Hne Hb]. auto.
Qed.

Lemma mean_try_shape (repository : Repository) (rounding_digits : Z)
    (nauty : Nauty) (g : Graph) (iacm_data_only : bool) (atom s : Z)
    (c : list Q * list Q) :
  mean_try repository rounding_digits nauty g iacm_data_only atom s = Some c ->
  exists m : Q, c = ([m], [1]) /\ on_grid rounding_digits m.
Proof.
  assert (H : forall attribute charges,
             mean_collect rounding_digits nauty g atom s attribute charges = Some c ->
             exists m : Q, c = ([m], [1]) /\ on_grid rounding_digits m).
  { intros attribute charges. unfold mean_collect.
    destruct (charges !! s) as [by_key |]; [| discriminate].
    destruct (by_key !! _) as [values |]; [| discriminate].
    intros [= <-]. eexists. split; [reflexivity | apply py_round_on_grid]. }
  unfold mean_try.
  destruct (mean_collect _ _ _ _ _ _ (charges_iacm repository)) as [c' |] eqn:E.
  - intros [= <-]. eapply H, E.
  - destruct iacm_data_only; [discriminate |]. apply H.
Qed.

Lemma first_match_Some {A} (try : Z -> option A) (shells : list Z) (c : A) :
  first_match try shells = Some c -> exists s, s ∈ shells /\ try s = Some c.
Proof.
  induction shells as [| s rest IH]; [discriminate |]. cbn [first_match].
  destruct (try s) as [c' |] eqn:E.
  - intros [= <-]. exists s. split; [apply elem_of_cons; left; reflexivity | exact E].
  - intros H. destruct (IH H) as (s' & Hs' & Htry).
    exists s'. split; [apply elem_of_cons; right; exact Hs' | exact Htry].
Qed.

(** On a repository without empty charge lists: when every atom has a match
    at some shell, the Mean collector returns a dict with exactly the atoms of
    the graph; each atom carries the match of its first matching shell, a
    single charge with at most [rounding_digits] decimals, and the weight 1. *)
Theorem mean_collect_values_resolved (repository : Repository)
    (rounding_digits : Z) (nauty : Nauty) (g : Graph) (iacm_data_only : bool)
    (shells : list Z) :
  no_empty_lists (charges_iacm repository) ->
  no_empty_lists (charges_elem repository) ->
  Forall (fun a => is_Some (mean_match repository rounding_digits nauty g
                              iacm_data_only shells a)) (nodes g).*1 ->
  exists values : Values,
    mean_collect_values repository rounding_digits nauty g iacm_data_only shells
    = Ok values
    /\ (forall a, a ∈ (nodes g).*1 ->
          values !! a = mean_match repository rounding_digits nauty g
                          iacm_data_only shells a)
    /\ (forall a, a ∉ (nodes g).*1 -> values !! a = None)
    /\ (forall a c, values !! a = Some c ->
          exists m : Q, c = ([m], [1]) /\ on_grid rounding_digits m).
Proof.
  intros _ _ Hall. unfold mean_collect_values.
  destruct (mean_atoms_spec repository rounding_digits nauty g iacm_data_only
              shells (nodes g).*1) with (charges0 := (∅ : Values))
                                        (no_vals0 := @nil Z)
    as (values & -> & Hin & Hout).
  { apply Forall_forall. auto. }
  assert (Hnone : filter (fun a => ¬ is_Some (mean_match repository rounding_digits
                            nauty g iacm_data_only shells a)) (nodes g).*1 = []).
  { clear -Hall. induction Hall as [| a l Ha _ IHl]; [reflexivity |].
    rewrite filter_cons_False by (intros H; apply H, Ha). exact IHl. }
  rewrite Hnone. cbn [app length Nat.ltb Nat.leb].
  exists values. split; [reflexivity |]. split.
  { intros a Ha. apply Hin; [exact Ha |]. rewrite Forall_forall in Hall. auto. }
  split.
  { intros a Ha. rewrite Hout by exact Ha. apply lookup_empty. }
  intros a c Hc.
  destruct (decide (a ∈ (nodes g).*1)) as [Ha | Ha].
  - rewrite Forall_forall in Hall. rewrite (Hin a Ha (Hall a Ha)) in Hc.
    apply first_match_Some in Hc as (s & _ & Hs). eapply mean_try_shape, Hs.
  - rewrite Hout, lookup_empty in Hc by exact Ha. discriminate.
Qed.

(** When some atom has no match at any shell, the Mean collector raises
    [AssignmentError] for exactly the atoms without a match, in the order of
    the graph, and advises a smaller shell exactly when shell 0 was not among
    the shells tried. *)
Theorem mean_collect_values_unresolved (repository : Repository)
    (rounding_digits : Z) (nauty : Nauty) (g : Graph) (iacm_data_only : bool)
    (shells : list Z) :
  let unresolved :=
    filter (fun a => ¬ is_Some (mean_match repository rounding_digits nauty g
                                  iacm_data_only shells a)) (nodes g).*1 in
  unresolved ≠ [] ->
  mean_collect_values repository rounding_digits nauty g iacm_data_only shells
  = Raise (AssignmentError unresolved
             (if bool_decide (0%Z ∈ shells) then ""
              else " Please retry with a smaller shell parameter.")).
Proof.
  cbn zeta. intros Hne. unfold mean_collect_values.
  destruct (mean_atoms_spec repository rounding_digits nauty g iacm_data_only
              shells (nodes g).*1) with (charges0 := (∅ : Values))
                                        (no_vals0 := @nil Z)
    as (values & -> & _).
  { apply Forall_forall. auto. }
  cbn [app]. destruct (filter _ _) as [| a l]; [contradiction |].
  cbn [length Nat.ltb Nat.leb]. unfold zero_in.
  destruct (bool_decide (0%Z ∈ shells)); reflexivity.
Qed.

Lemma mean_first_matching_shell_wins_witness :
  exists c : list Q * list Q,
    mean_shells ref_repository 3 color_nauty ref_graph 2 false
      ([2; 1]%Z ++ 0%Z :: []) = Ok (Some c).
Proof.
  eexists.
  apply (mean_first_matching_shell_wins ref_repository 3 color_nauty ref_graph 2
           false [2; 1]%Z [] 0).
  - apply (bool_decide_unpack _). vm_compute. exact I.
  - repeat constructor; vm_compute; reflexivity.
  - vm_compute. reflexivity.
Defined.

Lemma mean_collect_values_resolved_witness :
  exists values : Values,
    mean_collect_values ref_repository 3 color_nauty ref_graph false [0%Z]
    = Ok values
    /\ (forall a, a ∈ (nodes ref_graph).*1 ->
          values !! a = mean_match ref_repository 3 color_nauty ref_graph false
                          [0%Z] a)
    /\ (forall a, a ∉ (nodes ref_graph).*1 -> values !! a = None)
    /\ (forall a c, values !! a = Some c ->
          exists m : Q, c = ([m], [1]) /\ on_grid 3 m).
Proof.
  apply (mean_collect_values_resolved ref_repository 3 color_nauty ref_graph
           false [0%Z]).
  - apply (bool_decide_unpack _). vm_compute. exact I.
  - apply (bool_decide_unpack _). vm_compute. exact I.
  - repeat constructor; vm_compute; eauto.
Defined.

Lemma mean_collect_values_unresolved_witness :
  mean_collect_values ref_repository 3 color_nauty ref_graph true [0%Z]
  = Raise (AssignmentError [2; 3; 4; 5]%Z "").
Proof.
  apply (mean_collect_values_unresolved ref_repository 3 color_nauty ref_graph
           true [0%Z]).
  vm_compute. discriminate.
Defined.

(** ** The Histogram collector *)

Lemma histogram_shells_spec (fuel : nat) (repository : Repository)
    (rounding_digits : Z) (nauty : Nauty) (g : Graph) (atom : Z)
    (iacm_data_only : bool) (max_bins : Z) (shells : list Z) :
  atom ∈ (nodes g).*1 ->
  histogram_shells fuel repository rounding_digits nauty g atom iacm_data_only
    max_bins shells
  = match first_match (hist_try repository nauty g iacm_data_only atom) shells with
    | None => Some (Ok None)
    | Some charges =>
        match calculate_histogram fuel rounding_digits charges max_bins with
        | None => None
        | Some (Raise e) => Some (Raise e)
        | Some (Ok h) => Some (Ok (Some h))
        end
    end.
Proof.
  intros Hin. destruct (node_of_graph g atom Hin) as [data Hnode].
  induction shells as [| s rest IH]; [reflexivity |].
  cbn [histogram_shells first_match]. rewrite IH.
  set (fm := first_match _ rest).
  unfold hist_try, atom_data. rewrite Hnode.
  destruct (charges_iacm repository !! s) as [by_key |].
  - destruct (by_key !! _); reflexivity.
  - destruct iacm_data_only; cbn [negb]; [reflexivity |].
    destruct (charges_elem repository !! s) as [by_key |]; [| reflexivity].
    destruct (by_key !! _); reflexivity.
Qed.

(** The histogram of an atom is built from the charges of the first shell, in
    the order given, at which [hist_try] finds data; without such a shell the
    atom is left unresolved. *)
Theorem histogram_shells_first_match (fuel : nat) (repository : Repository)
    (rounding_digits : Z) (nauty : Nauty) (g : Graph) (atom : Z)
    (iacm_data_only : bool) (max_bins : Z) (shells : list Z) :
  atom ∈ (nodes g).*1 ->
  histogram_shells fuel repository rounding_digits nauty g atom iacm_data_only
    max_bins shells
  = match first_match (hist_try repository nauty g iacm_data_only atom) shells with
    | None => Some (Ok None)
    | Some charges =>
        match calculate_histogram fuel rounding_digits charges max_bins with
        | None => None
        | Some (Raise e) => Some (Raise e)
        | Some (Ok h) => Some (Ok (Some h))
        end
    end.
Proof. apply histogram_shells_spec. Qed.

Lemma histogram_shells_first_match_witness :
  histogram_shells 5 ref_repository 1 color_nauty ref_graph 1 false 3 [2; 1; 0]%Z
  = match calculate_histogram 5 1 [-(1 # 10)] 3 with
    | None => None
    | Some (Raise e) => Some (Raise e)
    | Some (Ok h) => Some (Ok (Some h))
    end.
Proof.
  apply (histogram_shells_first_match 5 ref_repository 1 color_nauty ref_graph 1
           false 3 [2; 1; 0]%Z).
  apply (bool_decide_unpack _). vm_compute. exact I.
Defined.

Lemma mean_shells_ignores_elem (iacm elem1 elem2 : ChargeSet)
    (rounding_digits : Z) (nauty : Nauty) (g : Graph) (atom : Z)
    (shells : list Z) :
  mean_shells {| charges_iacm := iacm; charges_elem := elem1 |} rounding_digits
    nauty g atom true shells
  = mean_shells {| charges_iacm := iacm; charges_elem := elem2 |} rounding_digits
      nauty g atom true shells.
Proof.
  induction shells as [| s rest IH]; [reflexivity |].
  cbn [mean_shells charges_iacm negb]. destruct (node g atom); [| reflexivity].
  cbn [rbind]. destruct (mean_collect _ _ _ _ _ _ _); [reflexivity | exact IH].
Qed.

Lemma mean_atoms_ignores_elem (iacm elem1 elem2 : ChargeSet)
    (rounding_digits : Z) (nauty : Nauty) (g : Graph) (shells atoms : list Z) :
  forall (charges : Values) (no_vals : list Z),
    mean_atoms {| charges_iacm := iacm; charges_elem := elem1 |} rounding_digits
      nauty g true shells atoms charges no_vals
    = mean_atoms {| charges_iacm := iacm; charges_elem := elem2 |}
        rounding_digits nauty g true shells atoms charges no_vals.
Proof.
  induction atoms as [| a atoms IH]; intros charges no_vals; [reflexivity |].
  cbn [mean_atoms]. rewrite (mean_shells_ignores_elem iacm elem1 elem2).
  destruct (mean_shells _ _ _ _ _ _ _) as [[c |] | e]; cbn [rbind];
    [apply IH | apply IH | reflexivity].
Qed.

Lemma histogram_shells_ignores_elem (fuel : nat) (iacm elem1 elem2 : ChargeSet)
    (rounding_digits : Z) (nauty : Nauty) (g : Graph) (atom max_bins : Z)
    (shells : list Z) :
  histogram_shells fuel {| charges_iacm := iacm; charges_elem := elem1 |}
    rounding_digits nauty g atom true max_bins shells
  = histogram_shells fuel {| charges_iacm := iacm; charges_elem := elem2 |}
      rounding_digits nauty g atom true max_bins shells.
Proof.
  induction shells as [| s rest IH]; [reflexivity |].
  cbn [histogram_shells charges_iacm negb]. rewrite IH. reflexivity.
Qed.

Lemma histogram_atoms_ignores_elem (fuel : nat) (iacm elem1 elem2 : ChargeSet)
    (rounding_digits : Z) (nauty : Nauty) (g : Graph) (max_bins : Z)
    (shells atoms : list Z) :
  forall (histograms : Values) (no_vals : list Z),
    histogram_atoms fuel {| charges_iacm := iacm; charges_elem := elem1 |}
      rounding_digits nauty g true max_bins shells atoms histograms no_vals
    = histogram_atoms fuel {| charges_iacm := iacm; charges_elem := elem2 |}
        rounding_digits nauty g true max_bins shells atoms histograms no_vals.
Proof.
  induction atoms as [| a atoms IH]; intros histograms no_vals; [reflexivity |].
  cbn [histogram_atoms]. rewrite (histogram_shells_ignores_elem fuel iacm elem1 elem2).
  destruct (histogram_shells _ _ _ _ _ _ _ _ _) as [[[h |] | e] |];
    [apply IH | apply IH | reflexivity | reflexivity].
Qed.

(** With [iacm_data_only] set, neither collector reads the plain-element
    data: two repositories with the same IACM data give the same outcome. *)
Theorem iacm_data_only_ignores_elem (MAX_BINS : Z) (fuel : nat)
    (iacm elem1 elem2 : ChargeSet) (rounding_digits : Z) (nauty : Nauty)
    (g : Graph) (shells : list Z) (kwargs : gmap string Z) :
  mean_collect_values {| charges_iacm := iacm; charges_elem := elem1 |}
    rounding_digits nauty g true shells
  = mean_collect_values {| charges_iacm := iacm; charges_elem := elem2 |}
      rounding_digits nauty g true shells
  /\ histogram_collect_values MAX_BINS fuel
       {| charges_iacm := iacm; charges_elem := elem1 |} rounding_digits nauty g
       true shells kwargs
     = histogram_collect_values MAX_BINS fuel
         {| charges_iacm := iacm; charges_elem := elem2 |} rounding_digits nauty
         g true shells kwargs.
Proof.
  split.
  - unfold mean_collect_values.
    rewrite (mean_atoms_ignores_elem iacm elem1 elem2). reflexivity.
  - unfold histogram_collect_values.
    rewrite (histogram_atoms_ignores_elem fuel iacm elem1 elem2). reflexivity.
Qed.

Lemma calculate_histogram_shape (fuel : nat) (rounding_digits : Z)
    (charges : list Q) (max_bins : Z) (bs : list Q) (cs : list Z) :
  calculate_histogram fuel rounding_digits charges max_bins = Some (Ok (bs, cs)) ->
  length bs = length cs
  /\ (Z.of_nat (length cs) <= max_bins)%Z
  /\ Forall (fun c => (0 < c)%Z) cs
  /\ StronglySorted Qlt bs.
Proof.
  intros H. apply calculate_histogram_result in H
    as (st & mn & mx & Hpass & Hsp & Hnb & Hmin & Hmax & -> & Hbs).
  pose proof (pow10_pos (- rounding_digits)) as Hgrain.
  destruct (histogram_pass_spec charges _ (spacing st) mn mx Hmin Hmax Hgrain Hsp)
    as (st1 & Hpass1 & _ & Hnum & Hcenters & Hlen & Hnonneg & _).
  rewrite Hpass in Hpass1. injection Hpass1 as <-.
  set (step := pow10 (- rounding_digits) * inject_Z (spacing st)) in *.
  assert (Hstep : 0 < step).
  { apply Qmult_lt_0_compat; [exact Hgrain |].
    change 0 with (inject_Z 0). rewrite <- Zlt_Qlt. lia. }
  rewrite Hcenters in Hbs, Hlen.
  destruct (take_at_arange (round_to mn step false)
              (round_to mx step true + (1 # 2) * step) step
              (np_nonzero (counts st)) Hstep)
    as (bs' & Hbs' & Hbslen & Hsorted & _).
  { eapply Forall_impl; [apply nonzero_from_bounds |]. cbn beta. intros k Hk.
    rewrite <- Hlen. lia. }
  { apply nonzero_from_sorted. }
  rewrite Hbs in Hbs'. injection Hbs' as <-.
  split; [rewrite Hbslen; apply nonzero_from_length |].
  split; [unfold np_count_nonzero in Hnum; lia |].
  split; [| exact Hsorted].
  apply Forall_forall. intros c Hc. apply list_elem_of_filter in Hc as [Hc0 Hin].
  rewrite Forall_forall in Hnonneg. specialize (Hnonneg c Hin). lia.
Qed.

Lemma histogram_shells_result (fuel : nat) (repository : Repository)
    (rounding_digits : Z) (nauty : Nauty) (g : Graph) (atom : Z)
    (iacm_data_only : bool) (max_bins : Z) (shells : list Z)
    (h : list Q * list Z) :
  histogram_shells fuel repository rounding_digits nauty g atom iacm_data_only
    max_bins shells = Some (Ok (Some h)) ->
  exists charges,
    calculate_histogram fuel rounding_digits charges max_bins = Some (Ok h).
Proof.
  induction shells as [| s rest IH]; [discriminate |].
  cbn [histogram_shells].
  destruct (charges_iacm repository !! s) as [by_key |].
  - destruct (node g atom) as [data | e]; [| discriminate].
    destruct (by_key !! _) as [charges |]; [| exact IH].
    destruct (calculate_histogram fuel rounding_digits charges max_bins)
      as [[h' | e] |] eqn:E; try discriminate.
    intros [= <-]. eauto.
  - destruct (negb iacm_data_only); [| exact IH].
    destruct (charges_elem repository !! s) as [by_key |]; [| exact IH].
    destruct (by_key !! _) as [charges |]; [| exact IH].
    destruct (calculate_histogram fuel rounding_digits charges max_bins)
      as [[h' | e] |] eqn:E; try discriminate.
    intros [= <-]. eauto.
Qed.

Lemma histogram_atoms_result (fuel : nat) (repository : Repository)
    (rounding_digits : Z) (nauty : Nauty) (g : Graph) (iacm_data_only : bool)
    (max_bins : Z) (shells atoms : list Z) :
  forall (histograms0 histograms : Values) (no_vals0 no_vals : list Z),
    histogram_atoms fuel repository rounding_digits nauty g iacm_data_only
      max_bins shells atoms histograms0 no_vals0
    = Some (Ok (histograms, no_vals)) ->
    (forall a c, histograms !! a = Some c ->
       histograms0 !! a = Some c
       \/ exists charges h,
            calculate_histogram fuel rounding_digits charges max_bins
            = Some (Ok h) /\ c = as_values h)
    /\ (forall a, is_Some (histograms0 !! a) -> is_Some (histograms !! a))
    /\ (forall a, a ∈ no_vals0 -> a ∈ no_vals)
    /\ (forall a, a ∈ atoms -> is_Some (histograms !! a) \/ a ∈ no_vals).
Proof.
  induction atoms as [| a atoms IH]; intros h0 hs nv0 nv Hrun.
  - cbn in Hrun. injection Hrun as <- <-.
    split; [auto |]. split; [auto |]. split; [auto |].
    intros a Ha. inversion Ha.
  - cbn [histogram_atoms] in Hrun.
    destruct (histogram_shells _ _ _ _ _ _ _ _ _) as [[[h |] | e] |] eqn:Hs;
      try discriminate.
    + apply histogram_shells_result in Hs as (charges & Hcalc).
      apply IH in Hrun as (Hval & Hkeep & Hnv & Hall).
      split.
      { intros b c Hb. destruct (Hval b c Hb) as [Hold | Hnew]; [| auto].
        rewrite lookup_insert in Hold. case_decide as Hab; [| auto].
        injection Hold as <-. right. eauto. }
      split.
      { intros b Hb. apply Hkeep. rewrite lookup_insert. case_decide; eauto. }
      split; [exact Hnv |].
      intros b Hb. apply elem_of_cons in Hb as [-> | Hb]; [| auto].
      left. apply Hkeep. rewrite lookup_insert_eq. eauto.
    + apply IH in Hrun as (Hval & Hkeep & Hnv & Hall).
      split; [exact Hval |]. split; [exact Hkeep |].
      split.
      { intros b Hb. apply Hnv, elem_of_app. left. exact Hb. }
      intros b Hb. apply elem_of_cons in Hb as [-> | Hb]; [| auto].
      right. apply Hnv, elem_of_app. right. apply elem_of_cons. left. reflexivity.
Qed.

(** What the Histogram collector returns has an entry for every atom of the
    graph, and every entry is a histogram: as many weights as centers, at most
    the allowed number of bins (the [max_bins] option raised to 1 if it is
    smaller, [MAX_BINS] without the option), strictly ascending centers and
    positive integer weights. *)
Theorem histogram_collect_values_shape (MAX_BINS : Z) (fuel : nat)
    (repository : Repository) (rounding_digits : Z) (nauty : Nauty) (g : Graph)
    (iacm_data_only : bool) (shells : list Z) (kwargs : gmap string Z)
    (values : Values) :
  histogram_collect_values MAX_BINS fuel repository rounding_digits nauty g
    iacm_data_only shells kwargs = Some (Ok values) ->
  (forall a, a ∈ (nodes g).*1 -> is_Some (values !! a))
  /\ forall a bs ws, values !! a = Some (bs, ws) ->
       length bs = length ws
       /\ (Z.of_nat (length bs) <= effective_max_bins MAX_BINS kwargs)%Z
       /\ StronglySorted Qlt bs
       /\ Forall (fun w => exists c : Z, (0 < c)%Z /\ w = inject_Z c) ws.
Proof.
  unfold histogram_collect_values. fold (effective_max_bins MAX_BINS kwargs).
  intros H.
  destruct (histogram_atoms _ _ _ _ _ _ _ _ _ _ _) as [[[hs nv] | e] |] eqn:Hrun;
    try discriminate.
  destruct nv as [| a0 nv]; [| discriminate]. cbn in H. injection H as <-.
  apply histogram_atoms_result in Hrun as (Hval & _ & _ & Hall).
  split.
  { intros a Ha. destruct (Hall a Ha) as [Hs | Hn]; [exact Hs | inversion Hn]. }
  intros a bs ws Ha.
  destruct (Hval a _ Ha) as [Hold | (charges & [bs' cs] & Hcalc & Heq)].
  { rewrite lookup_empty in Hold. discriminate. }
  unfold as_values in Heq. cbn [fst snd] in Heq. injection Heq as -> ->.
  apply calculate_histogram_shape in Hcalc as (Hlen & Hmax & Hpos & Hsorted).
  split; [rewrite length_fmap; exact Hlen |].
  split; [lia |]. split; [exact Hsorted |].
  apply Forall_fmap. eapply Forall_impl; [exact Hpos |].
  cbn. intros c Hc. eauto.
Qed.

Lemma histogram_collect_values_shape_witness :
  exists values : Values,
    histogram_collect_values 25 3
      {| charges_iacm := ∅; charges_elem := charges_elem ref_repository |}
      2 color_nauty ref_graph false [0%Z] {[ "max_bins" := 0%Z ]}
    = Some (Ok values)
    /\ (forall a, a ∈ (nodes ref_graph).*1 -> is_Some (values !! a))
    /\ forall a bs ws, values !! a = Some (bs, ws) ->
         length bs = length ws
         /\ (Z.of_nat (length bs)
             <= effective_max_bins 25 {[ "max_bins" := 0%Z ]})%Z
         /\ StronglySorted Qlt bs
         /\ Forall (fun w => exists c : Z, (0 < c)%Z /\ w = inject_Z c) ws.
Proof.
  eexists. split; [vm_compute; reflexivity |].
  eapply (histogram_collect_values_shape 25 3
            {| charges_iacm := ∅; charges_elem := charges_elem ref_repository |}
            2 color_nauty ref_graph false [0%Z] {[ "max_bins" := 0%Z ]}).
  vm_compute. reflexivity.
Defined.

(** ** Termination of the Histogram collector *)

Lemma calculate_histogram_terminates (rounding_digits : Z) (charges : list Q)
    (max_bins : Z) :
  (1 <= max_bins)%Z ->
  exists (fuel0 : nat) (r : result (list Q * list Z)),
    forall fuel, (fuel0 <= fuel)%nat ->
      calculate_histogram fuel rounding_digits charges max_bins = Some r.
Proof.
  intros Hmb. destruct charges as [| x rest].
  - exists 1%nat. eexists. intros [| fuel] Hfuel; [lia |].
    apply calculate_histogram_empty.
  - assert (Hne : x :: rest ≠ []) by discriminate.
    set (charges := x :: rest) in *.
    destruct (py_min_max charges Hne) as (mn & mx & Hmin & Hmax & Hle).
    pose proof (pow10_pos (- rounding_digits)) as Hgrain.
    destruct (wide_eventually (pow10 (- rounding_digits)) mn mx Hgrain)
      as (S0 & HS0 & Hwide).
    destruct (histogram_while_terminates charges max_bins _ mn mx S0
                Hmin Hmax Hle Hgrain Hmb Hwide (Z.to_nat S0)
                (histogram_start max_bins) (S (Z.to_nat S0)))
      as (st & Hrun & _); cbn [spacing num_bins histogram_start]; try lia.
    exists (S (Z.to_nat S0)). eexists. intros fuel Hfuel.
    unfold calculate_histogram. fold (histogram_start max_bins).
    rewrite (histogram_while_fuel_mono _ _ _ _ _ _ Hrun fuel Hfuel).
    reflexivity.
Qed.



Example histogram_two_bins :
  exists c1 c2 : Q,
    calculate_histogram 2 1 [1 # 10; 2 # 10; 2 # 10; 5 # 10] 2
    = Some (Ok ([c1; c2], [3; 1]%Z))
    /\ c1 == 2 # 10 /\ c2 == 4 # 10.
Proof.
  eexists _, _. split; [vm_compute; reflexivity |]. split; reflexivity.
Qed.


Lemma histogram_shells_terminates (repository : Repository)
    (rounding_digits : Z) (nauty : Nauty) (g : Graph) (atom : Z)
    (iacm_data_only : bool) (max_bins : Z) (shells : list Z) :
  atom ∈ (nodes g).*1 -> (1 <= max_bins)%Z ->
  exists (fuel0 : nat) (r : result (option (list Q * list Z))),
    forall fuel, (fuel0 <= fuel)%nat ->
      histogram_shells fuel repository rounding_digits nauty g atom
        iacm_data_only max_bins shells = Some r.
Proof.
  intros Hin Hmb.
  destruct (first_match (hist_try repository nauty g iacm_data_only atom) shells)
    as [charges |] eqn:Hfm.
  - destruct (calculate_histogram_terminates rounding_digits charges max_bins Hmb)
      as (fuel0 & r & Hr).
    exists fuel0.
    exists (match r with Raise e => Raise e | Ok h => Ok (Some h) end).
    intros fuel Hfuel. rewrite histogram_shells_spec by exact Hin.
    rewrite Hfm, (Hr fuel Hfuel). destruct r; reflexivity.
  - exists 0%nat, (Ok None). intros fuel _.
    rewrite histogram_shells_spec by exact Hin. rewrite Hfm. reflexivity.
Qed.

Lemma histogram_atoms_terminates (repository : Repository)
    (rounding_digits : Z) (nauty : Nauty) (g : Graph) (iacm_data_only : bool)
    (max_bins : Z) (shells atoms : list Z) :
  Forall (fun a => a ∈ (nodes g).*1) atoms -> (1 <= max_bins)%Z ->
  forall (histograms : Values) (no_vals : list Z),
  exists (fuel0 : nat) (r : result (Values * list Z)),
    forall fuel, (fuel0 <= fuel)%nat ->
      histogram_atoms fuel repository rounding_digits nauty g iacm_data_only
        max_bins shells atoms histograms no_vals = Some r.
Proof.
  intros Hatoms Hmb. induction Hatoms as [| a atoms Ha _ IH];
    intros histograms no_vals.
  - exists 0%nat. eexists. intros fuel _. reflexivity.
  - destruct (histogram_shells_terminates repository rounding_digits nauty g a
                iacm_data_only max_bins shells Ha Hmb) as (f1 & r1 & Hr1).
    destruct r1 as [[h |] | e].
    + destruct (IH (<[a := as_values h]> histograms) no_vals) as (f2 & r2 & Hr2).
      exists (Nat.max f1 f2), r2. intros fuel Hfuel. cbn [histogram_atoms].
      rewrite Hr1 by lia. apply Hr2. lia.
    + destruct (IH histograms (no_vals ++ [a])) as (f2 & r2 & Hr2).
      exists (Nat.max f1 f2), r2. intros fuel Hfuel. cbn [histogram_atoms].
      rewrite Hr1 by lia. apply Hr2. lia.
    + exists f1, (Raise e). intros fuel Hfuel. cbn [histogram_atoms].
      rewrite Hr1 by lia. reflexivity.
Qed.

(** With at least one bin allowed, which the [max_bins] option always
    ensures, the Histogram collector comes to an end on every graph, whatever
    the repository holds: from some amount of fuel on it has one and the same
    outcome, a dict or an exception. *)
Theorem histogram_collect_values_terminates (MAX_BINS : Z)
    (repository : Repository) (rounding_digits : Z) (nauty : Nauty) (g : Graph)
    (iacm_data_only : bool) (shells : list Z) (kwargs : gmap string Z) :
  (1 <= effective_max_bins MAX_BINS kwargs)%Z ->
  exists (fuel0 : nat) (r : result Values),
    forall fuel, (fuel0 <= fuel)%nat ->
      histogram_collect_values MAX_BINS fuel repository rounding_digits nauty g
        iacm_data_only shells kwargs = Some r.
Proof.
  intros Hmb.
  destruct (histogram_atoms_terminates repository rounding_digits nauty g
              iacm_data_only (effective_max_bins MAX_BINS kwargs) shells
              (nodes g).*1) with (histograms := (∅ : Values)) (no_vals := @nil Z)
    as (fuel0 & r & Hr); [apply Forall_forall; auto | exact Hmb |].
  exists fuel0.
  exists (match r with
          | Raise e => Raise e
          | Ok (histograms, no_vals) =>
              if (0 <? length no_vals)%nat then
                Raise (AssignmentError no_vals
                         (if negb (zero_in shells)
                          then " Please retry with a smaller shell parameter or a SimpleCharger."
                          else " Please retry with a SimpleCharger."))
              else Ok histograms
          end).
  intros fuel Hfuel. unfold histogram_collect_values.
  fold (effective_max_bins MAX_BINS kwargs). rewrite (Hr fuel Hfuel).
  destruct r as [[hs nv] | e]; [| reflexivity].
  destruct (0 <? length nv)%nat; reflexivity.
Qed.

Lemma histogram_collect_values_terminates_witness :
  exists (fuel0 : nat) (r : result Values),
    forall fuel, (fuel0 <= fuel)%nat ->
      histogram_collect_values 25 fuel ref_repository 3 color_nauty ref_graph
        false [2; 1; 0]%Z {[ "max_bins" := (-4)%Z ]} = Some r.
Proof.
  apply (histogram_collect_values_terminates 25 ref_repository 3 color_nauty
           ref_graph false [2; 1; 0]%Z {[ "max_bins" := (-4)%Z ]}).
  vm_compute. discriminate.
Defined.

(** The [max_bins] option never lets the collector ask for less than one bin. *)
Lemma effective_max_bins_option (MAX_BINS m : Z) (kwargs : gmap string Z) :
  kwargs !! "max_bins" = Some m ->
  (1 <= effective_max_bins MAX_BINS kwargs)%Z.
Proof. intros H. unfold effective_max_bins. rewrite H. lia. Qed.

(** ** The redistribution, step by step *)

(** On a graph as the solver leaves it, with confidence in some atom and a
    graph score other than 0, the call returns, and this is the graph it
    leaves: every atom gets its rounded adjusted charge, the first atom of
    minimum score then gets the remainder, and the total is recorded. *)
Lemma add_redistributed_charges_returns (self : Charger) (g : Graph)
    (total_charge : Z) (T c : Q) :
  graph g !! "score" = Some (VNum T) ->
  graph g !! "total_charge" = Some (VNum c) ->
  Forall node_solved (nodes g) ->
  Exists (fun nd => 0 < score_of nd) (nodes g) ->
  ~ T == 0 ->
  exists (proportions : gmap Z Q) (total_prop total : Q) (j : nat)
         (nd : Z * gmap string value),
    let total_error := inject_Z total_charge - c in
    let R := node_redist self proportions total_error total_prop in
    redist_setup g total_charge = Ok (total_error, proportions, total_prop)
    /\ total_prop == T * Qsum (inv_score <$> nodes g)
    /\ total == Qsum (R <$> nodes g)
    /\ nodes g !! j = Some nd
    /\ first_min (score_of <$> nodes g) j
    /\ add_redistributed_charges self g total_charge
       = ({| graph := <["total_charge_redist" :=
                          VNum (py_round (total + (inject_Z total_charge - total))
                                  (_rounding_digits self))]> (graph g);
             nodes := <[j := (nd.1,
                              <["partial_charge_redist" :=
                                  VNum (py_round (R nd + inject_Z total_charge - total)
                                          (_rounding_digits self))]>
                                (<["partial_charge_redist" := VNum (R nd)]> nd.2))]>
                        (redist_written self proportions total_error total_prop
                           <$> nodes g);
             edges := edges g |}, Ok tt).
Proof.
  intros HT Hc Hsolved Hpos HT0.
  destruct (proportions_loop_ok T (nodes g) Hsolved ∅ 0)
    as (props & P & Hloop & HP & _ & Hdom & _).
  assert (HP0 : ~ P == 0).
  { pose proof (Qsum_inv_score_pos (nodes g) Hpos) as HW. rewrite HP.
    intros H0. assert (H1 : T * Qsum (inv_score <$> nodes g) == 0) by lra.
    apply Qmult_integral in H1 as [H1 | H1]; [contradiction | lra]. }
  set (E := inject_Z total_charge - c).
  assert (Hsetup : redist_setup g total_charge = Ok (E, props, P)).
  { unfold redist_setup, getitem. rewrite HT, Hc. cbn [rbind num].
    rewrite Hloop. reflexivity. }
  destruct (redist_loop_ok self props E P (nodes g) Hsolved Hdom HP0 0
              {| total_charge_redist := 0; min_score := None; min_atom_data := None |})
    as (acc & Hloop2 & Htotal & Hmin).
  cbn [total_charge_redist min_score min_atom_data] in Htotal, Hmin.
  assert (Hne : score_of <$> nodes g ≠ []).
  { destruct (nodes g); [inversion Hpos | discriminate]. }
  destruct (scan_min_first_min _ Hne) as (m & j & Hscan & Hfirst).
  rewrite Hscan in Hmin. injection Hmin as _ Hminj.
  assert (Hj : exists nd, nodes g !! j = Some nd).
  { destruct Hfirst as (m' & Hjm & _). rewrite list_lookup_fmap in Hjm.
    destruct (nodes g !! j) as [nd |]; [eauto | discriminate]. }
  destruct Hj as [nd Hj].
  exists props, P, (total_charge_redist acc), j, nd. cbn zeta.
  split; [exact Hsetup |]. split; [rewrite HP; lra |].
  split; [rewrite Htotal; lra |]. split; [exact Hj |]. split; [exact Hfirst |].
  unfold add_redistributed_charges. rewrite Hsetup, Hloop2.
  apply redist_remainder_ok; [exact Hminj |].
  rewrite list_lookup_fmap, Hj. reflexivity.
Qed.

Lemma Qsum_ext (l l' : list Q) : Forall2 Qeq l l' -> Qsum l == Qsum l'.
Proof.
  induction 1 as [| x y l l' Hxy _ IH]; [reflexivity |].
  rewrite !Qsum_cons, Hxy, IH. reflexivity.
Qed.

Lemma inv_score_le_sum (nds : list (Z * gmap string value))
    (nd : Z * gmap string value) :
  nd ∈ nds -> inv_score nd <= Qsum (inv_score <$> nds).
Proof.
  induction nds as [| x nds IH]; intros Hin; [inversion Hin |].
  rewrite fmap_cons, Qsum_cons.
  apply elem_of_cons in Hin as [-> | Hin].
  - pose proof (Qsum_inv_score_nonneg nds). lra.
  - pose proof (inv_score_nonneg x). specialize (IH Hin). lra.
Qed.

(** The share of the total error that goes to an atom: between none of it and
    all of it. *)
Lemma delta_input (self : Charger) (g : Graph) (total_charge : Z) (T c : Q)
    (v : Z) (data : gmap string value) :
  graph g !! "score" = Some (VNum T) ->
  graph g !! "total_charge" = Some (VNum c) ->
  Forall node_solved (nodes g) ->
  NoDup (nodes g).*1 ->
  Exists (fun nd => 0 < score_of nd) (nodes g) ->
  ~ T == 0 ->
  (v, data) ∈ nodes g ->
  exists share : Q,
    0 <= share /\ share <= 1
    /\ share == inv_score (v, data) / Qsum (inv_score <$> nodes g)
    /\ exists x : Q,
         x == (inject_Z total_charge - c) * share
         /\ delta_of self g total_charge v
            = Ok (py_round x (_rounding_digits self)).
Proof.
  intros HT Hc Hsolved Hnodup Hpos HT0 Hin.
  destruct (proportions_loop_ok T (nodes g) Hsolved ∅ 0)
    as (props & P & Hloop & HP & _ & _ & Hval).
  destruct (Hval v data Hnodup Hin) as (p & Hp & Hpeq).
  pose proof (Qsum_inv_score_pos (nodes g) Hpos) as HW.
  set (W := Qsum (inv_score <$> nodes g)) in *.
  assert (HP0 : ~ P == 0).
  { rewrite HP. intros H0. assert (H1 : T * W == 0) by lra.
    apply Qmult_integral in H1 as [H1 | H1]; [contradiction | lra]. }
  pose proof (inv_score_nonneg (v, data)) as Hi0.
  pose proof (inv_score_le_sum (nodes g) (v, data) Hin) as Hi1. fold W in Hi1.
  exists (inv_score (v, data) / W).
  split; [apply Qle_shift_div_l; [exact HW | lra] |].
  split; [apply Qle_shift_div_r; [exact HW | lra] |].
  split; [reflexivity |].
  exists (p * (inject_Z total_charge - c) / P). split.
  - rewrite Hpeq, HP. field. split; lra.
  - unfold delta_of, redist_setup, getitem. rewrite HT, Hc. cbn [rbind num].
    rewrite Hloop. cbn [rbind fst snd].
    rewrite delta_ok by (eauto || exact HP0).
    unfold node_delta. rewrite Hp. reflexivity.
Qed.



(** An atom without confidence gets no share of the error: its [delta] is 0. *)
Theorem zero_score_gets_zero_delta (self : Charger) (g : Graph)
    (total_charge : Z) (T c : Q) (v : Z) (data : gmap string value) :
  graph g !! "score" = Some (VNum T) ->
  graph g !! "total_charge" = Some (VNum c) ->
  Forall node_solved (nodes g) ->
  NoDup (nodes g).*1 ->
  Exists (fun nd => 0 < score_of nd) (nodes g) ->
  ~ T == 0 ->
  (v, data) ∈ nodes g ->
  score_of (v, data) <= 0 ->
  exists d : Q, delta_of self g total_charge v = Ok d /\ d == 0.
Proof.
  intros HT Hc Hsolved Hnodup Hpos HT0 Hin Hzero.
  destruct (delta_input self g total_charge T c v data HT Hc Hsolved Hnodup
              Hpos HT0 Hin) as (share & _ & _ & Hshare & x & Hx & Hdelta).
  exists (py_round x (_rounding_digits self)). split; [exact Hdelta |].
  assert (Hinv : inv_score (v, data) == 0).
  { unfold inv_score. unfold score_of in Hzero. apply Qltb_ge in Hzero.
    rewrite Hzero. reflexivity. }
  assert (Hx0 : x == 0).
  { rewrite Hx, Hshare, Hinv. unfold Qdiv. ring. }
  rewrite Hx0. apply py_round_0.
Qed.

Lemma zero_score_gets_zero_delta_witness :
  exists d : Q, delta_of ref_charger methane_unsure_hydrogen 0 2 = Ok d /\ d == 0.
Proof.
  eapply (zero_score_gets_zero_delta ref_charger methane_unsure_hydrogen 0 5
            (-(8 # 1000)) 2).
  - reflexivity.
  - reflexivity.
  - repeat constructor; eexists _, _; split; reflexivity.
  - apply (bool_decide_unpack _). vm_compute. exact I.
  - apply Exists_cons_hd. reflexivity.
  - vm_compute. discriminate.
  - apply list_elem_of_lookup. exists 1%nat. reflexivity.
  - vm_compute. discriminate.
Defined.

(** ** Redistribution: edge cases *)

(** A graph without atoms is left exactly as it is: nothing is adjusted and
    no [total_charge_redist] is recorded. *)
Theorem redistribution_of_empty_graph (self : Charger) (g : Graph)
    (total_charge : Z) (ts : value) (c : Q) :
  nodes g = [] ->
  graph g !! "score" = Some ts ->
  graph g !! "total_charge" = Some (VNum c) ->
  add_redistributed_charges self g total_charge = (g, Ok tt).
Proof.
  intros Hnodes Hts Hc. unfold add_redistributed_charges, redist_setup, getitem.
  rewrite Hts, Hc, Hnodes. cbn. destruct g as [ga nds es]. cbn in *.
  subst nds. reflexivity.
Qed.

Lemma redistribution_of_empty_graph_witness :
  add_redistributed_charges ref_charger
    {| graph := {[ "score" := VNum 0; "total_charge" := VNum 0 ]};
       nodes := []; edges := [] |} 3
  = ({| graph := {[ "score" := VNum 0; "total_charge" := VNum 0 ]};
        nodes := []; edges := [] |}, Ok tt).
Proof.
  apply (redistribution_of_empty_graph ref_charger _ 3 (VNum 0) 0); reflexivity.
Defined.

Lemma proportions_loop_app (ts : value) (pre rest : list (Z * gmap string value)) :
  forall (proportions : gmap Z Q) (total_prop : Q),
    proportions_loop ts (pre ++ rest) proportions total_prop
    = match proportions_loop ts pre proportions total_prop with
      | Ok (m, P) => proportions_loop ts rest m P
      | Raise e => Raise e
      end.
Proof.
  induction pre as [| [v data] pre IH]; intros m0 P0; [reflexivity |].
  cbn [app proportions_loop].
  destruct (let! s := getitem data "score" in num s) as [s | e]; [| reflexivity].
  cbn [rbind].
  destruct (if Qltb 0 s then _ else _) as [p | e]; [| reflexivity].
  cbn [rbind]. apply IH.
Qed.

Lemma proportions_loop_scores (T : Q) (nds : list (Z * gmap string value)) :
  Forall has_score nds ->
  forall (proportions0 : gmap Z Q) (total_prop0 : Q),
  exists (proportions : gmap Z Q) (total_prop : Q),
    proportions_loop (VNum T) nds proportions0 total_prop0
    = Ok (proportions, total_prop)
    /\ total_prop == total_prop0 + T * Qsum (inv_score <$> nds)
    /\ (forall v, is_Some (proportions0 !! v) -> is_Some (proportions !! v))
    /\ (forall v, v ∈ nds.*1 -> is_Some (proportions !! v)).
Proof.
  induction 1 as [| [v data] rest [s Hs] _ IH]; intros props0 P0.
  - exists props0, P0. cbn. split; [reflexivity |]. split; [lra |].
    split; [auto |]. intros v Hv; inversion Hv.
  - cbn in Hs.
    destruct (proportion_solved T s v data Hs) as (p & Hpeq & Hp).
    rewrite (proportions_loop_step _ _ _ _ _ _ _ _ Hs Hpeq).
    destruct (IH (<[v := p]> props0) (P0 + p)) as (props & P & Hloop & HP & Hold & Hnew).
    exists props, P. split; [exact Hloop |].
    split; [rewrite HP, Hp, fmap_cons, Qsum_cons; lra |].
    split.
    { intros w Hw. apply Hold. rewrite lookup_insert. case_decide; [eauto | exact Hw]. }
    intros w Hw. cbn in Hw. apply elem_of_cons in Hw as [-> | Hw].
    + apply Hold. rewrite lookup_insert_eq. eauto.
    + apply Hnew, Hw.
Qed.

(** An atom without a [score] stops the call in its first loop: [KeyError],
    and nothing has been written to the graph. *)
Theorem redistribution_missing_score (self : Charger) (g : Graph)
    (total_charge : Z) (T c : Q) (pre post : list (Z * gmap string value))
    (v : Z) (data : gmap string value) :
  graph g !! "score" = Some (VNum T) ->
  graph g !! "total_charge" = Some (VNum c) ->
  nodes g = pre ++ (v, data) :: post ->
  Forall has_score pre ->
  data !! "score" = None ->
  add_redistributed_charges self g total_charge = (g, Raise (KeyError "score")).
Proof.
  intros HT Hc Hnodes Hpre Hdata.
  destruct (proportions_loop_scores T pre Hpre ∅ 0) as (m & P & Hloop & _).
  unfold add_redistributed_charges, redist_setup, getitem.
  rewrite HT, Hc. cbn [rbind num]. rewrite Hnodes, proportions_loop_app, Hloop.
  cbn [proportions_loop]. unfold getitem. rewrite Hdata. reflexivity.
Qed.

Lemma redistribution_missing_score_witness :
  add_redistributed_charges ref_charger methane_unsolved 0
  = (methane_unsolved, Raise (KeyError "score")).
Proof.
  apply (redistribution_missing_score ref_charger methane_unsolved 0 5 0 []
           (List.tl (nodes ref_graph)) 1
           {[ "atom_type" := VStr "C"; "label" := VStr "C1";
              "charge_group" := VNum 0 ]}).
  - reflexivity.
  - reflexivity.
  - reflexivity.
  - constructor.
  - reflexivity.
Defined.

Lemma redist_loop_app (self : Charger) (proportions : gmap Z Q)
    (total_error total_prop : Q) (pre rest : list (Z * gmap string value)) :
  forall (i : nat) (acc : redist_acc),
    redist_loop self proportions total_error total_prop i (pre ++ rest) acc
    = match redist_loop self proportions total_error total_prop i pre acc with
      | (pre', Ok acc') =>
          let '(rest', r) :=
            redist_loop self proportions total_error total_prop
              (i + length pre) rest acc' in
          (pre' ++ rest', r)
      | (pre', Raise e) => (pre' ++ rest, Raise e)
      end.
Proof.
  induction pre as [| [v data] pre IH]; intros i acc.
  - cbn [app redist_loop length]. rewrite Nat.add_0_r.
    destruct (redist_loop _ _ _ _ _ _ _). reflexivity.
  - cbn [app redist_loop length].
    destruct (redist_node _ _ _ _ _ _ _ _) as [data' [acc' | e]]; [| reflexivity].
    rewrite IH. replace (S i + length pre)%nat with (i + S (length pre))%nat by lia.
    destruct (redist_loop _ _ _ _ (S i) pre acc') as [pre' [acc'' | e]].
    + destruct (redist_loop _ _ _ _ _ rest acc''). reflexivity.
    + reflexivity.
Qed.

(** The call is not all-or-nothing.  When an atom lacks its
    [partial_charge], the atoms before it already carry their
    [partial_charge_redist] when [KeyError] is raised; the atom itself, the
    atoms after it and the graph attributes are as before. *)
Theorem redistribution_stops_half_way (self : Charger) (g : Graph)
    (total_charge : Z) (T c : Q) (pre post : list (Z * gmap string value))
    (v : Z) (data : gmap string value) :
  graph g !! "score" = Some (VNum T) ->
  graph g !! "total_charge" = Some (VNum c) ->
  nodes g = pre ++ (v, data) :: post ->
  Forall has_score (nodes g) ->
  Forall node_solved pre ->
  data !! "partial_charge" = None ->
  Exists (fun nd => 0 < score_of nd) (nodes g) ->
  ~ T == 0 ->
  exists (proportions : gmap Z Q) (total_prop : Q),
    redist_setup g total_charge
    = Ok (inject_Z total_charge - c, proportions, total_prop)
    /\ add_redistributed_charges self g total_charge
       = ({| graph := graph g;
             nodes := (redist_written self proportions
                         (inject_Z total_charge - c) total_prop <$> pre)
                      ++ (v, data) :: post;
             edges := edges g |}, Raise (KeyError "partial_charge")).
Proof.
  intros HT Hc Hnodes Hscores Hpre Hdata Hpos HT0.
  destruct (proportions_loop_scores T (nodes g) Hscores ∅ 0)
    as (props & P & Hloop & HP & _ & Hdom).
  assert (HP0 : ~ P == 0).
  { pose proof (Qsum_inv_score_pos (nodes g) Hpos) as HW. rewrite HP.
    intros H0. assert (H1 : T * Qsum (inv_score <$> nodes g) == 0) by lra.
    apply Qmult_integral in H1 as [H1 | H1]; [contradiction | lra]. }
  set (E := inject_Z total_charge - c).
  assert (Hsetup : redist_setup g total_charge = Ok (E, props, P)).
  { unfold redist_setup, getitem. rewrite HT, Hc. cbn [rbind num].
    rewrite Hloop. reflexivity. }
  exists props, P. split; [exact Hsetup |].
  unfold add_redistributed_charges. rewrite Hsetup, Hnodes, redist_loop_app.
  assert (Hdom_pre : forall w, w ∈ pre.*1 -> is_Some (props !! w)).
  { intros w Hw. apply Hdom. rewrite Hnodes, fmap_app. apply elem_of_app. auto. }
  destruct (redist_loop_ok self props E P pre Hpre Hdom_pre HP0 0
              {| total_charge_redist := 0; min_score := None; min_atom_data := None |})
    as (acc & -> & _).
  cbn [redist_loop]. unfold redist_node.
  rewrite delta_ok; [| apply Hdom; rewrite Hnodes, fmap_app; apply elem_of_app;
                       right; cbn; apply elem_of_cons; left; reflexivity
                     | exact HP0].
  cbn [rbind]. unfold getitem. rewrite Hdata. reflexivity.
Qed.

Lemma redistribution_stops_half_way_witness :
  exists (proportions : gmap Z Q) (total_prop : Q),
    redist_setup methane_missing_charge 0
    = Ok (inject_Z 0 - - (8 # 1000), proportions, total_prop)
    /\ add_redistributed_charges ref_charger methane_missing_charge 0
       = ({| graph := graph methane_missing_charge;
             nodes := (redist_written ref_charger proportions
                         (inject_Z 0 - - (8 # 1000)) total_prop
                         <$> take 2 (nodes methane_solved))
                      ++ (3%Z, {[ "atom_type" := VStr "HC"; "score" := VNum 1 ]})
                         :: drop 3 (nodes methane_solved);
             edges := edges methane_missing_charge |},
          Raise (KeyError "partial_charge")).
Proof.
  apply (redistribution_stops_half_way ref_charger methane_missing_charge 0 5
           (-(8 # 1000)) (take 2 (nodes methane_solved))
           (drop 3 (nodes methane_solved)) 3
           {[ "atom_type" := VStr "HC"; "score" := VNum 1 ]}).
  - reflexivity.
  - reflexivity.
  - reflexivity.
  - repeat constructor; eexists; reflexivity.
  - repeat constructor; eexists _, _; split; reflexivity.
  - reflexivity.
  - apply Exists_cons_hd. reflexivity.
  - vm_compute. discriminate.
Defined.

(** ** Redistribution: what is written *)

(** Every charge the call writes, on the atoms and on the graph, has at most
    [rounding_digits] decimals. *)
Theorem redistribution_writes_rounded_charges (self : Charger) (g : Graph)
    (total_charge : Z) (T c : Q) :
  graph g !! "score" = Some (VNum T) ->
  graph g !! "total_charge" = Some (VNum c) ->
  Forall node_solved (nodes g) ->
  Exists (fun nd => 0 < score_of nd) (nodes g) ->
  ~ T == 0 ->
  exists g' : Graph,
    add_redistributed_charges self g total_charge = (g', Ok tt)
    /\ Forall (fun nd => exists r, nd.2 !! "partial_charge_redist" = Some (VNum r)
                                   /\ on_grid (_rounding_digits self) r)
         (nodes g')
    /\ exists t, graph g' !! "total_charge_redist" = Some (VNum t)
                 /\ on_grid (_rounding_digits self) t.
Proof.
  intros HT Hc Hsolved Hpos HT0.
  destruct (add_redistributed_charges_returns self g total_charge T c
              HT Hc Hsolved Hpos HT0)
    as (props & P & total & j & nd & _ & _ & _ & Hj & _ & Hrun).
  cbn zeta in Hrun. eexists. split; [exact Hrun |]. cbn [nodes graph].
  split.
  - apply Forall_lookup. intros k nd' Hk.
    destruct (decide (j = k)) as [<- | Hjk].
    + rewrite list_lookup_insert_eq in Hk
        by (rewrite length_fmap; eapply lookup_lt_Some, Hj).
      injection Hk as <-. cbn [snd]. rewrite lookup_insert_eq.
      eexists. split; [reflexivity | apply py_round_on_grid].
    + rewrite list_lookup_insert_ne in Hk by exact Hjk.
      rewrite list_lookup_fmap in Hk.
      destruct (nodes g !! k) as [ndk |]; [| discriminate Hk].
      injection Hk as <-. unfold redist_written. cbn [snd].
      rewrite lookup_insert_eq.
      eexists. split; [reflexivity | apply py_round_on_grid].
  - eexists. split; [apply lookup_insert_eq | apply py_round_on_grid].
Qed.

Lemma redistribution_writes_rounded_charges_witness :
  exists g' : Graph,
    add_redistributed_charges ref_charger methane_solved 0 = (g', Ok tt)
    /\ Forall (fun nd => exists r, nd.2 !! "partial_charge_redist" = Some (VNum r)
                                   /\ on_grid (_rounding_digits ref_charger) r)
         (nodes g')
    /\ exists t, graph g' !! "total_charge_redist" = Some (VNum t)
                 /\ on_grid (_rounding_digits ref_charger) t.
Proof.
  apply (redistribution_writes_rounded_charges ref_charger methane_solved 0 5
           (-(8 # 1000))).
  - reflexivity.
  - reflexivity.
  - repeat constructor; eexists _, _; split; reflexivity.
  - apply Exists_cons_hd. reflexivity.
  - vm_compute. discriminate.
Defined.

(** A raw solution that is already rounded and already hits the target is
    handed on unchanged: every [partial_charge_redist] equals the atom's
    [partial_charge], and the recorded total is the target. *)
Theorem redistribution_keeps_exact_solution (self : Charger) (g : Graph)
    (total_charge : Z) (T c : Q) :
  graph g !! "score" = Some (VNum T) ->
  graph g !! "total_charge" = Some (VNum c) ->
  Forall node_solved (nodes g) ->
  Exists (fun nd => 0 < score_of nd) (nodes g) ->
  ~ T == 0 ->
  c == inject_Z total_charge ->
  Qsum (raw_charge <$> nodes g) == inject_Z total_charge ->
  Forall (fun nd => on_grid (_rounding_digits self) (raw_charge nd)) (nodes g) ->
  exists g' : Graph,
    add_redistributed_charges self g total_charge = (g', Ok tt)
    /\ Forall2 (fun nd nd' =>
                  nd'.1 = nd.1
                  /\ exists r, nd'.2 !! "partial_charge_redist" = Some (VNum r)
                               /\ r == raw_charge nd)
         (nodes g) (nodes g')
    /\ exists t, graph g' !! "total_charge_redist" = Some (VNum t)
                 /\ t == inject_Z total_charge.
Proof.
  intros HT Hc Hsolved Hpos HT0 Hexact Hsum Hgrid.
  destruct (add_redistributed_charges_returns self g total_charge T c
              HT Hc Hsolved Hpos HT0)
    as (props & P & total & j & nd & _ & _ & Htotal & Hj & _ & Hrun).
  cbn zeta in *.
  set (d := _rounding_digits self) in *.
  set (R := node_redist self props (inject_Z total_charge - c) P) in *.
  assert (HR : forall x, x ∈ nodes g -> R x == raw_charge x).
  { intros x Hx. unfold R, node_redist, node_delta. fold d.
    assert (H0 : default 0 (props !! x.1) * (inject_Z total_charge - c) / P == 0)
      by (rewrite Hexact; unfold Qdiv; ring).
    rewrite H0, py_round_0.
    assert (H1 : the_num x.2 "partial_charge" + 0 == raw_charge x)
      by (unfold raw_charge; ring).
    rewrite H1. apply py_round_id.
    rewrite Forall_forall in Hgrid. apply Hgrid, Hx. }
  assert (Htot : total == inject_Z total_charge).
  { rewrite Htotal, <- Hsum. apply Qsum_ext.
    apply Forall2_fmap, Forall2_same_length_lookup. split; [reflexivity |].
    intros k x y Hx Hy. rewrite Hx in Hy. injection Hy as <-.
    apply HR. eapply list_elem_of_lookup_2, Hx. }
  assert (Hnd : nd ∈ nodes g) by (eapply list_elem_of_lookup_2, Hj).
  eexists. split; [exact Hrun |]. cbn [nodes graph].
  split.
  - apply Forall2_same_length_lookup.
    split; [rewrite length_insert, length_fmap; reflexivity |].
    intros k x y Hx Hy.
    destruct (decide (j = k)) as [<- | Hjk].
    + rewrite list_lookup_insert_eq in Hy
        by (rewrite length_fmap; eapply lookup_lt_Some, Hj).
      injection Hy as <-. rewrite Hj in Hx. injection Hx as <-.
      split; [reflexivity |]. cbn [snd]. rewrite lookup_insert_eq.
      eexists. split; [reflexivity |].
      assert (H : R nd + inject_Z total_charge - total == raw_charge nd)
        by (rewrite Htot, (HR nd Hnd); ring).
      rewrite H. apply py_round_id.
      rewrite Forall_forall in Hgrid. apply Hgrid, Hnd.
    + rewrite list_lookup_insert_ne in Hy by exact Hjk.
      rewrite list_lookup_fmap, Hx in Hy. injection Hy as <-.
      split; [reflexivity |]. unfold redist_written. cbn [snd].
      rewrite lookup_insert_eq. eexists. split; [reflexivity |].
      apply HR. eapply list_elem_of_lookup_2, Hx.
  - eexists. split; [apply lookup_insert_eq |].
    assert (H : total + (inject_Z total_charge - total)
                == Qsum (raw_charge <$> nodes g)) by (rewrite Hsum; ring).
    rewrite H, py_round_id; [exact Hsum |].
    apply on_grid_Qsum, Forall_fmap. exact Hgrid.
Qed.

Lemma redistribution_keeps_exact_solution_witness :
  exists g' : Graph,
    add_redistributed_charges ref_charger methane_neutral 0 = (g', Ok tt)
    /\ Forall2 (fun nd nd' =>
                  nd'.1 = nd.1
                  /\ exists r, nd'.2 !! "partial_charge_redist" = Some (VNum r)
                               /\ r == raw_charge nd)
         (nodes methane_neutral) (nodes g')
    /\ exists t, graph g' !! "total_charge_redist" = Some (VNum t)
                 /\ t == inject_Z 0.
Proof.
  apply (redistribution_keeps_exact_solution ref_charger methane_neutral 0 9 0).
  - reflexivity.
  - reflexivity.
  - repeat constructor; eexists _, _; split; reflexivity.
  - apply Exists_cons_hd. reflexivity.
  - vm_compute. discriminate.
  - reflexivity.
  - vm_compute. reflexivity.
  - repeat constructor.
    + exists (-100)%Z. vm_compute. reflexivity.
    + exists 25%Z. vm_compute. reflexivity.
    + exists 25%Z. vm_compute. reflexivity.
    + exists 25%Z. vm_compute. reflexivity.
    + exists 25%Z. vm_compute. reflexivity.
Defined.

(** ** The chargers *)

(** Every charger keeps a number of rounding digits between 0 and
    [MAX_ROUNDING_DIGITS], the caller's number when that is in range; its
    collector is built with the caller's number as it is. *)
Theorem charger_rounding_digits_clamped (MAX_ROUNDING_DIGITS : Z)
    (new_Nauty : Nauty) (repository : Repository)
    (rounding_digits max_seconds : Z) (nauty : option Nauty) :
  (0 <= MAX_ROUNDING_DIGITS)%Z ->
  Forall (fun self : Charger =>
            (0 <= _rounding_digits self <= MAX_ROUNDING_DIGITS)%Z
            /\ ((0 <= rounding_digits <= MAX_ROUNDING_DIGITS)%Z ->
                _rounding_digits self = rounding_digits)
            /\ ((rounding_digits < 0)%Z -> _rounding_digits self = 0%Z)
            /\ ((MAX_ROUNDING_DIGITS < rounding_digits)%Z ->
                _rounding_digits self = MAX_ROUNDING_DIGITS)
            /\ collector_rounding_digits (_collector self) = rounding_digits)
    [ SimpleCharger MAX_ROUNDING_DIGITS new_Nauty repository rounding_digits nauty;
      ILPCharger MAX_ROUNDING_DIGITS new_Nauty repository rounding_digits
        max_seconds nauty;
      DPCharger MAX_ROUNDING_DIGITS new_Nauty repository rounding_digits
        max_seconds nauty;
      CDPCharger MAX_ROUNDING_DIGITS new_Nauty repository rounding_digits
        max_seconds nauty ].
Proof.
  intros HMAX.
  repeat constructor; cbn; unfold init_rounding_digits; lia.
Qed.

Lemma charger_rounding_digits_clamped_witness :
  Forall (fun self : Charger =>
            (0 <= _rounding_digits self <= 9)%Z
            /\ ((0 <= 20 <= 9)%Z -> _rounding_digits self = 20%Z)
            /\ ((20 < 0)%Z -> _rounding_digits self = 0%Z)
            /\ ((9 < 20)%Z -> _rounding_digits self = 9%Z)
            /\ collector_rounding_digits (_collector self) = 20%Z)
    [ SimpleCharger 9 color_nauty ref_repository 20 None;
      ILPCharger 9 color_nauty ref_repository 20 60 None;
      DPCharger 9 color_nauty ref_repository 20 60 None;
      CDPCharger 9 color_nauty ref_repository 20 60 None ].
Proof.
  apply (charger_rounding_digits_clamped 9 color_nauty ref_repository 20 60 None).
  lia.
Defined.

Lemma StronglySorted_strict (l : list Z) :
  StronglySorted (flip Z.le) l -> NoDup l ->
  StronglySorted (fun a b => (b < a)%Z) l.
Proof.
  induction 1 as [| x l _ IH Hx]; intros Hnd; [constructor |].
  apply NoDup_cons in Hnd as [Hnotin Hnd].
  constructor; [apply IH, Hnd |].
  apply Forall_forall. intros y Hy. rewrite Forall_forall in Hx.
  specialize (Hx y Hy). unfold flip in Hx.
  assert (y ≠ x) by (intros ->; contradiction). lia.
Qed.

Lemma sorted_keys_reverse_spec {A} (d : gmap Z A) :
  StronglySorted (fun a b => (b < a)%Z) (sorted_keys_reverse d)
  /\ forall s, s ∈ sorted_keys_reverse d <-> is_Some (d !! s).
Proof.
  unfold sorted_keys_reverse.
  pose proof (merge_sort_Permutation Z.le (elements (dom d))) as Hperm.
  split.
  - apply StronglySorted_strict.
    + apply Sorted_StronglySorted; [intros x y z; unfold flip; lia |].
      apply Sorted_reverse, Sorted_merge_sort. intros x y. lia.
    + rewrite reverse_Permutation, Hperm. apply NoDup_elements.
  - intros s. rewrite elem_of_reverse, Hperm, elem_of_elements.
    apply elem_of_dom.
Qed.

(** When [shell] is falsy ([None], and also [0] and the empty list), the
    shells tried are exactly the shell sizes of the repository's IACM data,
    each once, largest first. *)
Theorem charge_shells_unset (self : Charger) (shell : shell_arg) :
  py_not shell = true ->
  exists shells : list Z,
    charge_shells self shell = Ok shells
    /\ StronglySorted (fun a b => (b < a)%Z) shells
    /\ forall s, s ∈ shells <-> is_Some (charges_iacm (_repo self) !! s).
Proof.
  intros Hnot. unfold charge_shells. rewrite Hnot.
  eexists. split; [reflexivity |]. apply sorted_keys_reverse_spec.
Qed.

Lemma charge_shells_unset_witness :
  exists shells : list Z,
    charge_shells ref_charger ShellNone = Ok shells
    /\ StronglySorted (fun a b => (b < a)%Z) shells
    /\ forall s, s ∈ shells <-> is_Some (charges_iacm (_repo ref_charger) !! s).
Proof.
  apply (charge_shells_unset ref_charger ShellNone). reflexivity.
Defined.

Lemma redistribution_sum_exact (self : Charger) (g : Graph) (total_charge : Z)
    (T c : Q) :
  (0 <= _rounding_digits self)%Z ->
  graph g !! "score" = Some (VNum T) ->
  graph g !! "total_charge" = Some (VNum c) ->
  Forall node_solved (nodes g) ->
  Exists (fun nd => 0 < score_of nd) (nodes g) ->
  ~ T == 0 ->
  exists g' : Graph,
    add_redistributed_charges self g total_charge = (g', Ok tt)
    /\ redist_sum (nodes g') == inject_Z total_charge.
Proof.
  intros Hd HT Hc Hsolved Hpos HT0.
  destruct (add_redistributed_charges_returns self g total_charge T c
              HT Hc Hsolved Hpos HT0)
    as (props & P & total & j & nd & _ & _ & Htotal & Hj & _ & Hrun).
  cbn zeta in *.
  set (R := node_redist self props (inject_Z total_charge - c) P) in *.
  eexists. split; [exact Hrun |]. cbn [nodes].
  assert (HS : on_grid (_rounding_digits self) (Qsum (R <$> nodes g)))
    by apply on_grid_Qsum, node_redist_on_grid.
  unfold redist_sum. rewrite list_fmap_insert. cbn [snd].
  rewrite the_num_insert.
  rewrite (Qsum_insert _ j (R nd)).
  - fold (redist_sum (redist_written self props (inject_Z total_charge - c) P
                        <$> nodes g)).
    rewrite redist_sum_written. fold R.
    rewrite py_round_id.
    + rewrite Htotal. ring.
    + apply on_grid_minus; [apply on_grid_plus |].
      * apply py_round_on_grid.
      * apply on_grid_Z, Hd.
      * rewrite Htotal. exact HS.
  - rewrite !list_lookup_fmap, Hj. cbn. rewrite the_num_insert. reflexivity.
Qed.

(** [charge] from end to end: when the shells are accepted, the collector
    returns candidates and the solver returns a solved graph with confidence
    in some atom and a graph score other than 0, [charge] returns, the atoms
    are those of the solver's graph and their [partial_charge_redist] sum to
    the target exactly. *)
Theorem charge_reaches_target (MAX_BINS : Z) (util_iacmize : Graph -> Graph)
    (solve_partial_charges :
       Solver -> Graph -> Values -> Z -> gmap string Z -> Graph * result unit)
    (fuel : nat) (self : Charger) (g : Graph) (total_charge : Z)
    (iacmize iacm_data_only : bool) (shell : shell_arg) (kwargs : gmap string Z)
    (shells : list Z) (values : Values) (g1 : Graph) (T c : Q) :
  charge_shells self shell = Ok shells ->
  collect_values MAX_BINS fuel (_collector self)
    (if iacmize then util_iacmize g else g) (iacm_data_only || iacmize)
    shells kwargs = Some (Ok values) ->
  solve_partial_charges (_solver self) (if iacmize then util_iacmize g else g)
    values total_charge kwargs = (g1, Ok tt) ->
  (0 <= _rounding_digits self)%Z ->
  graph g1 !! "score" = Some (VNum T) ->
  graph g1 !! "total_charge" = Some (VNum c) ->
  Forall node_solved (nodes g1) ->
  Exists (fun nd => 0 < score_of nd) (nodes g1) ->
  ~ T == 0 ->
  exists g2 : Graph,
    charge MAX_BINS util_iacmize solve_partial_charges fuel self g total_charge
      iacmize iacm_data_only shell kwargs = Some (g2, Ok tt)
    /\ (nodes g2).*1 = (nodes g1).*1
    /\ redist_sum (nodes g2) == inject_Z total_charge.
Proof.
  intros Hshells Hcollect Hsolve Hd HT Hc Hsolved Hpos HT0.
  destruct (redistribution_sum_exact self g1 total_charge T c Hd HT Hc Hsolved
              Hpos HT0) as (g2 & Hrun & Hsum).
  exists g2. unfold charge. rewrite Hshells, Hcollect, Hsolve, Hrun.
  split; [reflexivity |]. split; [| exact Hsum].
  assert (Hframe : nodes_same_but "partial_charge_redist" (nodes g1)
                     (nodes (add_redistributed_charges self g1 total_charge).1)).
  { unfold add_redistributed_charges.
    destruct (redist_setup _ _) as [[[E props] P] | e];
      [| apply nodes_same_but_refl].
    pose proof (redist_loop_frame self props E P (nodes g1) 0
                  {| total_charge_redist := 0; min_score := None;
                     min_atom_data := None |}) as Hl.
    destruct (redist_loop _ _ _ _ _ _ _) as [nds [acc | e]]; cbn [fst] in Hl.
    - apply (redist_remainder_frame self g1
               {| graph := graph g1; nodes := nds; edges := edges g1 |}
               total_charge acc Hl).
    - exact Hl. }
  rewrite Hrun in Hframe. cbn [fst] in Hframe.
  eapply nodes_same_but_ids, Hframe.
Qed.

Lemma charge_reaches_target_witness :
  exists g1 g2 : Graph,
    charge 25 (fun g => g) pass_through_solver 0 ref_charger ref_graph 0
      false false ShellNone ∅ = Some (g2, Ok tt)
    /\ (nodes g2).*1 = (nodes g1).*1
    /\ redist_sum (nodes g2) == inject_Z 0.
Proof.
  eexists.
  eapply (charge_reaches_target 25 (fun g => g) pass_through_solver 0
            ref_charger ref_graph 0 false false ShellNone ∅).
  - reflexivity.
  - vm_compute. reflexivity.
  - vm_compute. reflexivity.
  - vm_compute. discriminate.
  - reflexivity.
  - reflexivity.
  - repeat constructor; eexists _, _; split; reflexivity.
  - apply Exists_cons_hd. reflexivity.
  - vm_compute. discriminate.
Defined.

(** ** The Histogram collector: unresolved atoms *)

Lemma histogram_atoms_spec (fuel : nat) (repository : Repository)
    (rounding_digits : Z) (nauty : Nauty) (g : Graph) (iacm_data_only : bool)
    (max_bins : Z) (shells atoms : list Z) :
  Forall (fun a => a ∈ (nodes g).*1) atoms ->
  Forall (fun a => forall charges,
            first_match (hist_try repository nauty g iacm_data_only a) shells
            = Some charges ->
            exists h, calculate_histogram fuel rounding_digits charges max_bins
                      = Some (Ok h)) atoms ->
  forall (histograms0 : Values) (no_vals0 : list Z),
  exists histograms : Values,
    histogram_atoms fuel repository rounding_digits nauty g iacm_data_only
      max_bins shells atoms histograms0 no_vals0
    = Some (Ok (histograms,
                no_vals0
                ++ filter (fun a => ¬ is_Some (first_match
                             (hist_try repository nauty g iacm_data_only a)
                             shells)) atoms)).
Proof.
  induction atoms as [| a atoms IH]; intros Hin Hcalc h0 nv0.
  - exists h0. cbn [histogram_atoms]. rewrite filter_nil, app_nil_r. reflexivity.
  - apply Forall_cons in Hin as [Ha Hin]. apply Forall_cons in Hcalc as [Hca Hcalc].
    cbn [histogram_atoms]. rewrite histogram_shells_spec by exact Ha.
    destruct (first_match (hist_try repository nauty g iacm_data_only a) shells)
      as [charges |] eqn:Hfm.
    + destruct (Hca charges eq_refl) as [h Hh]. rewrite Hh.
      destruct (IH Hin Hcalc (<[a := as_values h]> h0) nv0) as (hs & ->).
      exists hs.
      rewrite filter_cons_False by (rewrite Hfm; intros H; apply H; eauto).
      reflexivity.
    + destruct (IH Hin Hcalc h0 (nv0 ++ [a])) as (hs & ->).
      exists hs.
      rewrite filter_cons_True by (rewrite Hfm; intros [? H]; discriminate H).
      rewrite <- app_assoc. reflexivity.
Qed.

(** The Histogram collector goes through all atoms before it fails.  When the
    histograms of the atoms that have data can be computed and some atom has
    no data at any shell, it raises [AssignmentError] for exactly the atoms
    without data, in the order of the graph; the advice names a smaller shell
    only when shell 0 was not among the shells tried, and a SimpleCharger in
    both cases. *)
Theorem histogram_collect_values_unresolved (MAX_BINS : Z) (fuel : nat)
    (repository : Repository) (rounding_digits : Z) (nauty : Nauty) (g : Graph)
    (iacm_data_only : bool) (shells : list Z) (kwargs : gmap string Z) :
  let unresolved :=
    filter (fun a => ¬ is_Some (first_match
              (hist_try repository nauty g iacm_data_only a) shells))
      (nodes g).*1 in
  Forall (fun a => forall charges,
            first_match (hist_try repository nauty g iacm_data_only a) shells
            = Some charges ->
            exists h, calculate_histogram fuel rounding_digits charges
                        (effective_max_bins MAX_BINS kwargs) = Some (Ok h))
    (nodes g).*1 ->
  unresolved ≠ [] ->
  histogram_collect_values MAX_BINS fuel repository rounding_digits nauty g
    iacm_data_only shells kwargs
  = Some (Raise (AssignmentError unresolved
                   (if bool_decide (0%Z ∈ shells)
                    then " Please retry with a SimpleCharger."
                    else " Please retry with a smaller shell parameter or a SimpleCharger."))).
Proof.
  cbn zeta. intros Hcalc Hne. unfold histogram_collect_values.
  fold (effective_max_bins MAX_BINS kwargs).
  destruct (histogram_atoms_spec fuel repository rounding_digits nauty g
              iacm_data_only (effective_max_bins MAX_BINS kwargs) shells
              (nodes g).*1) with (histograms0 := (∅ : Values))
                                 (no_vals0 := @nil Z) as (hs & ->);
    [apply Forall_forall; auto | exact Hcalc |].
  cbn [app]. destruct (filter _ _) as [| a l]; [contradiction |].
  cbn [length Nat.ltb Nat.leb]. unfold zero_in.
  destruct (bool_decide (0%Z ∈ shells)); reflexivity.
Qed.

Lemma histogram_collect_values_unresolved_witness :
  histogram_collect_values 25 3 ref_repository 3 color_nauty ref_graph false
    [0%Z] ∅
  = Some (Raise (AssignmentError [2; 3; 4; 5]%Z
                   " Please retry with a SimpleCharger.")).
Proof.
  apply (histogram_collect_values_unresolved 25 3 ref_repository 3 color_nauty
           ref_graph false [0%Z] ∅).
  - repeat constructor; intros charges H; vm_compute in H;
      first [ discriminate H
            | injection H as <-; eexists; vm_compute; reflexivity ].
  - vm_compute. discriminate.
Defined.
